(** * obsd: a shallow embedding of [src/index.ts]

    The vault manager is a script over strings and the file system.  The
    embedding keeps that shape:

    - a JavaScript string is the list of its UTF-16 code units ([list N]);
    - every regular expression of the source is a [matcher], run by the
      two drivers [replaceFirst] (no [g] flag) and [replaceAll] ([g] flag);
    - [Record<string, string>] is a [gmap] from strings to strings;
    - the vault is a finite map from normalised absolute paths to entries
      (regular file with its text, or directory);
    - [Math.random] is a supply of letter indices handed to the sampling loops;
    - [process.exit], uncaught exceptions and normal return are the three
      ways a command ends ([outcome]); of what a command prints only the
      kind of failure is kept. *)

From Stdlib Require Import String Ascii.
From stdpp Require Import base list option numbers gmap fin finite sorting.

Local Open Scope N_scope.

(** ** Strings *)

Abbreviation jschar := N.
Abbreviation jsstring := (list N).

(** An ASCII literal of the source, as code units. *)
Definition js (s : string) : jsstring := N_of_ascii <$> list_ascii_of_string s.

Definition inRange (lo hi c : jschar) : bool := (lo <=? c) && (c <=? hi).

(** [[a-z]], [[0-9]] and [[a-z0-9]]. *)
Definition isLower (c : jschar) : bool := inRange 97 122 c.
Definition isDigit (c : jschar) : bool := inRange 48 57 c.
Definition isAlnum (c : jschar) : bool := isLower c || isDigit c.

(** LineTerminator of ECMAScript: LF, CR, LS, PS.  [.] excludes them, and
    with the [m] flag [^] and [$] match next to them. *)
Definition isLineTerminator (c : jschar) : bool :=
  (c =? 10) || (c =? 13) || (c =? 8232) || (c =? 8233).

(** [\s], which is also what [trim] strips: WhiteSpace and LineTerminator. *)
Definition isSpace (c : jschar) : bool :=
  inRange 9 13 c || (c =? 32) || (c =? 160) || (c =? 5760)
  || inRange 8192 8202 c || (c =? 8232) || (c =? 8233) || (c =? 8239)
  || (c =? 8287) || (c =? 12288) || (c =? 65279).

Definition hyphen : jschar := 45.
Definition underscore : jschar := 95.
Definition slash : jschar := 47.
Definition pipe : jschar := 124.
Definition lbrace : jschar := 123.
Definition rbrace : jschar := 125.
Definition newline : jschar := 10.

Definition isHyphen (c : jschar) : bool := c =? hyphen.

(** Longest prefix whose code units satisfy [p], and what follows it: the
    greedy [X+] / [X*] of a character class. *)
Fixpoint span (p : jschar → bool) (s : jsstring) : jsstring * jsstring :=
  match s with
  | [] => ([], [])
  | c :: s' => if p c then let '(run, rest) := span p s' in (c :: run, rest)
               else ([], s)
  end.

Fixpoint dropWhile (p : jschar → bool) (s : jsstring) : jsstring :=
  match s with
  | [] => []
  | c :: s' => if p c then dropWhile p s' else s
  end.

(** [s.trim()] *)
Definition trim (s : jsstring) : jsstring :=
  reverse (dropWhile isSpace (reverse (dropWhile isSpace s))).

(** [s.startsWith(p)], returning what follows [p]. *)
Fixpoint stripPrefix (p s : jsstring) : option jsstring :=
  match p, s with
  | [], _ => Some s
  | a :: p', b :: s' => if a =? b then stripPrefix p' s' else None
  | _ :: _, [] => None
  end.

Definition startsWith (s p : jsstring) : bool :=
  bool_decide (is_Some (stripPrefix p s)).

(** [s.includes("_")] for a one-unit needle. *)
Definition includes (s : jsstring) (c : jschar) : bool :=
  existsb (N.eqb c) s.

(** [s.substring(0, n)] *)
Definition substring0 (n : nat) (s : jsstring) : jsstring := take n s.

(** [s.split(sep)] for a one-unit separator: never empty. *)
Fixpoint split (sep : jschar) (s : jsstring) : list jsstring :=
  match s with
  | [] => [[]]
  | c :: s' =>
      if c =? sep then [] :: split sep s'
      else match split sep s' with
           | [] => [[c]]
           | w :: ws => (c :: w) :: ws
           end
  end.

(** [s.replace(pat, repl)] with a string pattern: the first occurrence only.
    The source passes the replacement [""], which has no [$] patterns. *)
Fixpoint replaceStr (pat repl s : jsstring) : jsstring :=
  match stripPrefix pat s with
  | Some rest => repl ++ rest
  | None => match s with
            | [] => []
            | c :: s' => c :: replaceStr pat repl s'
            end
  end.

(** ** Regular expressions *)

(** A successful match at the current position: the matched text, the first
    capture group, and the input after the match. *)
Record hit := Hit { matched : jsstring; group1 : jsstring; rest : jsstring }.

(** A matcher tries one position.  It is given the code unit before the
    position ([None] at index 0, for [^]) and the input from the position on. *)
Definition matcher := option jschar → jsstring → option hit.

(** [s.replace(re, f)] without the [g] flag: leftmost match only. *)
Fixpoint replaceFirst (m : matcher) (repl : hit → jsstring)
    (prev : option jschar) (s : jsstring) : jsstring :=
  match m prev s with
  | Some h => repl h ++ rest h
  | None => match s with
            | [] => []
            | c :: s' => c :: replaceFirst m repl (Some c) s'
            end
  end.

(** [s.replace(re, f)] with the [g] flag: after a match the scan resumes
    right behind it.  No expression of the source matches the empty string,
    so every iteration consumes input and [length s] rounds suffice. *)
Fixpoint replaceLoop (fuel : nat) (m : matcher) (repl : hit → jsstring)
    (prev : option jschar) (s : jsstring) : jsstring :=
  match fuel with
  | O => s
  | S fuel' =>
      match m prev s with
      | Some h =>
          repl h ++ replaceLoop fuel' m repl
                      (match last (matched h) with Some c => Some c | None => prev end)
                      (rest h)
      | None => match s with
                | [] => []
                | c :: s' => c :: replaceLoop fuel' m repl (Some c) s'
                end
      end
  end.

Definition replaceFrom (m : matcher) (repl : hit → jsstring)
    (prev : option jschar) (s : jsstring) : jsstring :=
  replaceLoop (S (length s)) m repl prev s.

Definition replaceAll (m : matcher) (repl : hit → jsstring) (s : jsstring) : jsstring :=
  replaceFrom m repl None s.

(** [/[^a-z0-9]+/] *)
Definition nonAlnumRun : matcher := λ _ s,
  match span (λ c, negb (isAlnum c)) s with
  | ([], _) => None
  | (run, after) => Some (Hit run [] after)
  end.

(** [/^-+|-+$/]: a run of hyphens at index 0, or one that reaches the end. *)
Definition edgeHyphens : matcher := λ prev s,
  match span isHyphen s with
  | ([], _) => None
  | (run, after) =>
      match prev, after with
      | None, _ => Some (Hit run [] after)
      | Some _, [] => Some (Hit run [] [])
      | Some _, _ :: _ => None
      end
  end.

(** [/\{\{([^}]+)\}\}/] *)
Definition VAR_PATTERN : matcher := λ _ s,
  match stripPrefix (js "{{") s with
  | Some s1 =>
      let '(rawKey, s2) := span (λ c, negb (c =? rbrace)) s1 in
      match rawKey, stripPrefix (js "}}") s2 with
      | _ :: _, Some after => Some (Hit (js "{{" ++ rawKey ++ js "}}") rawKey after)
      | _, _ => None
      end
  | None => None
  end.

(** ** slugify and renderTemplate *)

Section Runtime.

(** [String.prototype.toLowerCase] follows the Unicode case tables, which
    are not part of the repository: it is a parameter of the embedding. *)
Variable toLowerCase : jsstring → jsstring.

Definition slugify (input : jsstring) : jsstring :=
  replaceAll edgeHyphens (λ _, [])
    (replaceAll nonAlnumRun (λ _, [hyphen])
       (trim (toLowerCase input))).

End Runtime.

(** ASCII lower-casing, the instance used when the model is run on examples. *)
Definition asciiLower (s : jsstring) : jsstring :=
  (λ c, if inRange 65 90 c then c + 32 else c) <$> s.

(** A built-in function as text: [function <name>() { [native code] }]. *)
Definition nativeFunction (name : string) : jsstring :=
  js "function " ++ js name ++ js "() { [native code] }".

(** What [vars[key]] finds when [key] is no own property of [vars].  The
    mapping is an object literal, so the lookup goes on in
    [Object.prototype]: its twelve members, each with the text [replace]
    makes of it when the callback returns it.  The methods are built-in
    functions; [__proto__] is the prototype object itself, which reads
    [[object Object]]. *)
Definition objectPrototype : list (jsstring * jsstring) :=
  (js "constructor", nativeFunction "Object")
  :: (js "__proto__", js "[object Object]")
  :: ((λ name, (js name, nativeFunction name))
      <$> ["hasOwnProperty"; "isPrototypeOf"; "propertyIsEnumerable";
           "toLocaleString"; "toString"; "valueOf";
           "__defineGetter__"; "__defineSetter__";
           "__lookupGetter__"; "__lookupSetter__"]%string).

Definition inherited (key : jsstring) : option jsstring :=
  snd <$> List.find (λ member, bool_decide (member.1 = key)) objectPrototype.

(** [vars[key]]: an own property of the mapping, else a member it inherits;
    [undefined] ([None]) when there is neither. *)
Definition property (vars : gmap jsstring jsstring) (key : jsstring) : option jsstring :=
  match vars !! key with
  | Some val => Some val
  | None => inherited key
  end.

(** The callback of [renderTemplate]: [rawKey.split("|").map(trim)], then
    [vars[key] ?? def ?? ""]. *)
Definition substitute (vars : gmap jsstring jsstring) (rawKey : jsstring) : jsstring :=
  let parts := trim <$> split pipe rawKey in
  let key := default [] (parts !! 0%nat) in
  let def := parts !! 1%nat in
  match property vars key with
  | Some val => val
  | None => match def with
            | Some d => d
            | None => []
            end
  end.

Definition renderTemplate (tmpl : jsstring) (vars : gmap jsstring jsstring) : jsstring :=
  replaceAll VAR_PATTERN (λ h, substitute vars (group1 h)) tmpl.

(** [/^status: .+$/m]: at the start of a line, the field up to the end of
    that line. *)
Definition statusField : matcher := λ prev s,
  let lineStart := match prev with None => true | Some c => isLineTerminator c end in
  if lineStart then
    match stripPrefix (js "status: ") s with
    | Some s1 =>
        match span (λ c, negb (isLineTerminator c)) s1 with
        | ([], _) => None
        | (value, after) => Some (Hit (js "status: " ++ value) [] after)
        end
    | None => None
    end
  else None.

(** [- status\/[^\n]+] at the current position: the tag value and what
    follows the line. *)
Definition statusTagAt (s : jsstring) : option (jsstring * jsstring) :=
  match stripPrefix (js "- status/") s with
  | Some s1 =>
      match span (λ c, negb (c =? newline)) s1 with
      | ([], _) => None
      | (value, after) => Some (value, after)
      end
  | None => None
  end.

(** [/- status\/[^\n]+/] *)
Definition statusTag : matcher := λ _ s,
  match statusTagAt s with
  | Some (value, after) => Some (Hit (js "- status/" ++ value) [] after)
  | None => None
  end.

(** [/\n\s*- status\/[^\n]+/]: the line break before the tag, the blank
    space in front of it ([\s] also crosses line breaks), the tag. *)
Definition statusTagLine : matcher := λ _ s,
  match stripPrefix [newline] s with
  | Some s1 =>
      let '(blank, s2) := span isSpace s1 in
      match statusTagAt s2 with
      | Some (value, after) =>
          Some (Hit (newline :: blank ++ js "- status/" ++ value) [] after)
      | None => None
      end
  | None => None
  end.

(** [([\s\S]*?)- status\/[^\n]+]: the lazy group takes the fewest code units
    that let the tag match. *)
Fixpoint lazyUntilTag (s : jsstring) : option (jsstring * jsstring * jsstring) :=
  match statusTagAt s with
  | Some (value, after) => Some ([], value, after)
  | None =>
      match s with
      | [] => None
      | c :: s' =>
          match lazyUntilTag s' with
          | Some (skipped, value, after) => Some (c :: skipped, value, after)
          | None => None
          end
      end
  end.

(** [/tags:\n([\s\S]*?)- status\/[^\n]+/] *)
Definition tagsBlock : matcher := λ _ s,
  match stripPrefix (js "tags:" ++ [newline]) s with
  | Some s1 =>
      match lazyUntilTag s1 with
      | Some (skipped, value, after) =>
          Some (Hit (js "tags:" ++ [newline] ++ skipped ++ js "- status/" ++ value)
                    skipped after)
      | None => None
      end
  | None => None
  end.

(** [file.match(/^([a-z]{n})_/)]: the captured code, if the name has one. *)
Definition codeOf (n : nat) (file : jsstring) : option jsstring :=
  let code := take n file in
  if (length code =? n)%nat && forallb isLower code
     && bool_decide (file !! n = Some underscore)
  then Some code else None.

(** ** Paths and the vault *)

(** A normalised absolute path: its segments from the root down. *)
Abbreviation path := (list (list N)).

(** What [path.normalize] does with one more segment of an absolute path. *)
Definition pushSegment (acc : path) (seg : jsstring) : path :=
  if decide (seg = [] ∨ seg = js ".") then acc
  else if decide (seg = js "..") then removelast acc
  else acc ++ [seg].

(** [join(base, ...parts)] where [base] is already normalised. *)
Definition joinAt (base : path) (parts : list jsstring) : path :=
  foldl pushSegment base (parts ≫= split slash).

(** [join(config.vaultPath, ...)]: the vault path is absolute, so the result
    is.  [join(a, join(b, c), d)] is [join(a, b, c, d)]; the model writes
    nested joins of the source flat.

    A path is its list of segments, so a [/] at the end of the text is not
    kept: [p/] is [p].  [path.join] keeps that [/], and the system calls
    agree with the model when [p] is a directory or does not exist; when
    [p] is a regular file they fail on [p/] ([existsSync] is false), where
    the model sees the file.  Such a path arises only from a configured
    root or a template target written with a [/] at its end. *)
Definition join (parts : list jsstring) : path := joinAt [] parts.

Definition dirname (p : path) : path := removelast p.

(** [join(root, dir)] kept as text, as [opts.folder] is: relative when
    [root] is, [..] kept in front. *)
Definition pushRelative (acc : list jsstring) (seg : jsstring) : list jsstring :=
  if decide (seg = [] ∨ seg = js ".") then acc
  else if decide (seg = js "..") then
    match last acc with
    | Some top => if decide (top = js "..") then acc ++ [seg] else removelast acc
    | None => [seg]
    end
  else acc ++ [seg].

Fixpoint intercalate (sep : jsstring) (segs : list jsstring) : jsstring :=
  match segs with
  | [] => []
  | [seg] => seg
  | seg :: segs' => seg ++ sep ++ intercalate sep segs'
  end.

(** [path.join] of Node (POSIX): the non-empty parts joined by [/], then
    [normalize], which keeps a trailing [/]. *)
Definition joinText (parts : list jsstring) : jsstring :=
  let text := intercalate [slash] (filter (λ part, part ≠ []) parts) in
  let isAbsolute := bool_decide (head text = Some slash) in
  let trailingSeparator := bool_decide (last text = Some slash) in
  let body :=
    intercalate [slash]
      (if isAbsolute then foldl pushSegment [] (split slash text)
       else foldl pushRelative [] (split slash text)) in
  match text, body with
  | [], _ => js "."
  | _, [] => if isAbsolute then [slash]
             else if trailingSeparator then js "./" else js "."
  | _, _ =>
      (if isAbsolute then [slash] else [])
      ++ body ++ (if trailingSeparator then [slash] else [])
  end.

Inductive entry := File (text : jsstring) | Dir.

Abbreviation vault := (gmap (list (list N)) entry).

(** The root always exists. *)
Definition stat (fs : vault) (p : path) : option entry :=
  if decide (p = []) then Some Dir else fs !! p.

Definition existsSync (fs : vault) (p : path) : bool :=
  bool_decide (is_Some (stat fs p)).

(** The order of a directory listing.  Node reads a directory with libuv's
    [scandir], which sorts the names with [strcmp] on their UTF-8 bytes: the
    order of the code points.  On UTF-16 code units the surrogates
    (D800-DFFF), which encode the code points above the basic plane, come
    behind the units E000-FFFF; a name that is the beginning of another one
    comes first. *)
Definition codePointRank (c : N) : N :=
  if inRange 55296 57343 c then c + 8192
  else if 57344 <=? c then c - 2048
  else c.

Fixpoint nameLeb (a b : jsstring) : bool :=
  match a, b with
  | [], _ => true
  | _ :: _, [] => false
  | c :: a', d :: b' =>
      if codePointRank c =? codePointRank d then nameLeb a' b'
      else codePointRank c <? codePointRank d
  end.

Definition nameLe (a b : jsstring) : Prop := nameLeb a b = true.

#[global] Instance nameLe_dec : RelDecision nameLe :=
  λ a b, decide (nameLeb a b = true).

Definition sortNames (names : list jsstring) : list jsstring :=
  merge_sort nameLe names.

(** Names of the entries directly below [p], in the order [scandir] gives
    them: sorted.  Throws ([None]) when [p] is not a directory. *)
Definition readdirSync (fs : vault) (p : path) : option (list jsstring) :=
  match stat fs p with
  | Some Dir =>
      Some (sortNames
              (omap (λ kv : path * entry,
                       if decide (removelast kv.1 = p) then last kv.1 else None)
                    (map_to_list fs)))
  | _ => None
  end.

Definition readFileSync (fs : vault) (p : path) : option jsstring :=
  match stat fs p with
  | Some (File text) => Some text
  | _ => None
  end.

(** Creates or overwrites a regular file; throws on a directory (EISDIR)
    and when the parent is not a directory (ENOENT, ENOTDIR). *)
Definition writeFileSync (fs : vault) (p : path) (text : jsstring) : option vault :=
  match stat fs p, stat fs (dirname p) with
  | Some Dir, _ => None
  | _, Some Dir => Some (<[p := File text]> fs)
  | _, _ => None
  end.

Definition unlinkSync (fs : vault) (p : path) : option vault :=
  match stat fs p with
  | Some (File _) => Some (delete p fs)
  | _ => None
  end.

(** [mkdirSync(p, { recursive: true })]: walks down from [base], creating
    what is missing; throws when it meets a regular file. *)
Fixpoint mkdirFrom (fs : vault) (base : path) (todo : list jsstring) : option vault :=
  match todo with
  | [] => Some fs
  | seg :: todo' =>
      let p := base ++ [seg] in
      match fs !! p with
      | Some (File _) => None
      | Some Dir => mkdirFrom fs p todo'
      | None => mkdirFrom (<[p := Dir]> fs) p todo'
      end
  end.

Definition mkdirSync (fs : vault) (p : path) : option vault := mkdirFrom fs [] p.

Definition ensureDir (fs : vault) (p : path) : option vault :=
  if existsSync fs p then Some fs else mkdirSync fs p.

(** ** Configuration and options *)

Record TemplateFile := { tf_name : jsstring; tf_template : jsstring }.

Record EntityTemplate := {
  folderPattern : option jsstring;
  filePath : option jsstring;
  files : option (list TemplateFile);
  template : option jsstring
}.

Record Config := {
  vaultPath : jsstring;
  areasRoot : jsstring;
  projectsRoot : jsstring;
  resourcesRoot : jsstring;
  templates : gmap jsstring EntityTemplate
}.

(** The options bag of [new]; an option that was not given is [None]. *)
Record Options := {
  o_prefix : option jsstring;
  o_area : option jsstring;
  o_dependencies : option jsstring;
  o_type : option jsstring;
  o_content : option jsstring;
  o_solo : bool;
  o_atRoot : bool;
  o_folder : option jsstring
}.

(** Truthiness of a possibly undefined string, and [x || d]. *)
Definition truthy (x : option jsstring) : bool :=
  match x with
  | Some (_ :: _) => true
  | _ => false
  end.

Definition orElse (x : option jsstring) (d : jsstring) : jsstring :=
  match x with
  | Some (c :: s) => c :: s
  | _ => d
  end.

(** ** How a command ends *)

Inductive failure :=
  | TemplateNotFound | PrefixTaken | AreaNotFound | ParentNotFound
  | PrefixRequired | PrefixLength | ItemLength | MarkType
  | FileExists (p : path) | FolderExists (p : path)
  | InvalidStatus | ItemNotFound | MoveError
  | Uncaught.

(** [Return]: the function returned.  [Exit]: [process.exit(code)], or an
    exception nobody caught ([Uncaught], Node exits with 1).  [Spinning]: a
    sampling loop has used up the random draws it was given and is still
    running.  Each carries the vault as it is at that moment. *)
Inductive outcome (A : Type) :=
  | Return (a : A) (fs : vault)
  | Exit (code : nat) (why : failure) (fs : vault)
  | Spinning (fs : vault).
Arguments Return {A} a fs.
Arguments Exit {A} code why fs.
Arguments Spinning {A} fs.

Definition M (A : Type) : Type := vault → outcome A.

Definition ret {A} (a : A) : M A := λ fs, Return a fs.

Definition bind {A B} (m : M A) (k : A → M B) : M B := λ fs,
  match m fs with
  | Return a fs' => k a fs'
  | Exit code why fs' => Exit code why fs'
  | Spinning fs' => Spinning fs'
  end.

Notation "'let*' x := m 'in' k" := (bind m (λ x, k))
  (at level 10, x pattern, m at level 100, k at level 200).

Definition exit {A} (code : nat) (why : failure) : M A := λ fs, Exit code why fs.

(** What can be seen of an outcome: the exit status (none while the process
    is still running), the value returned, and the vault it leaves. *)
Definition exitCode {A} (o : outcome A) : option nat :=
  match o with
  | Return _ _ => Some 0%nat
  | Exit code _ _ => Some code
  | Spinning _ => None
  end.

Definition returned {A} (o : outcome A) : option A :=
  match o with
  | Return a _ => Some a
  | _ => None
  end.

Definition failureOf {A} (o : outcome A) : option failure :=
  match o with
  | Exit _ why _ => Some why
  | _ => None
  end.

Definition vaultAfter {A} (o : outcome A) : vault :=
  match o with
  | Return _ fs | Exit _ _ fs | Spinning fs => fs
  end.

(** A call that reads the vault. *)
Definition ask {A} (f : vault → A) : M A := λ fs, Return (f fs) fs.

(** A call that reads the vault and may throw. *)
Definition attempt {A} (f : vault → option A) : M A := λ fs,
  match f fs with
  | Some a => Return a fs
  | None => Exit 1 Uncaught fs
  end.

(** A call that changes the vault and may throw. *)
Definition perform (f : vault → option vault) : M unit := λ fs,
  match f fs with
  | Some fs' => Return tt fs'
  | None => Exit 1 Uncaught fs
  end.

(** A sampling loop: it returns its sample, or is still running. *)
Definition sampled (r : option jsstring) : M jsstring := λ fs,
  match r with
  | Some sample => Return sample fs
  | None => Spinning fs
  end.

(** ** Prefix generation *)

Definition chars : jsstring := js "abcdefghijklmnopqrstuvwxyz".

(** [chars[Math.floor(Math.random() * chars.length)]]: the index is one of
    the 26 positions of [chars]. *)
Definition letter (i : fin 26) : jschar := chars !!! fin_to_nat i.

(** [do { prefix = two letters } while (existing.has(prefix))], run on a
    supply of draws. *)
Fixpoint sample2 (existing : gset jsstring) (rnd : list (fin 26)) : option jsstring :=
  match rnd with
  | i :: j :: rnd' =>
      let prefix := [letter i; letter j] in
      if decide (prefix ∈ existing) then sample2 existing rnd' else Some prefix
  | _ => None
  end.

Fixpoint sample3 (existing : gset jsstring) (rnd : list (fin 26)) : option jsstring :=
  match rnd with
  | i :: j :: k :: rnd' =>
      let prefix := [letter i; letter j; letter k] in
      if decide (prefix ∈ existing) then sample3 existing rnd' else Some prefix
  | _ => None
  end.

(** [for (const dir of dirs) if (dir.includes("_")) set.add(dir.substring(0, 2))] *)
Definition addPrefixes (existing : gset jsstring) (dirs : list jsstring) : gset jsstring :=
  foldl (λ acc dir, if includes dir underscore then {[ substring0 2 dir ]} ∪ acc else acc)
        existing dirs.

(** [for (const file of files) { match = file.match(/^([a-z]{n})_/); ... }] *)
Definition addCodes (n : nat) (existing : gset jsstring) (files : list jsstring) : gset jsstring :=
  foldl (λ acc file, match codeOf n file with Some code => {[ code ]} ∪ acc | None => acc end)
        existing files.

Definition statusFolders : list jsstring :=
  [js "backlog"; js "active"; js "review"; js "done"].

(** The loop over the status folders below [base] that collects the codes
    in use. *)
Fixpoint collectCodes (n : nat) (base : path) (folders : list jsstring)
    (existing : gset jsstring) : M (gset jsstring) :=
  match folders with
  | [] => ret existing
  | statusFolder :: folders' =>
      let statusPath := joinAt base [statusFolder] in
      let* present := ask (λ fs, existsSync fs statusPath) in
      if present then
        let* files := attempt (λ fs, readdirSync fs statusPath) in
        collectCodes n base folders' (addCodes n existing files)
      else collectCodes n base folders' existing
  end.

Section Commands.

Variable toLowerCase : jsstring → jsstring.

(** [YAML.parse(readFileSync(templatesPath))]: the configuration lies next
    to the program, outside the vault, and is the same for the whole run. *)
Variable config : Config.

(** [new Date().toISOString().split("T")[0]] *)
Variable today : jsstring.

(** The draws [Math.random] will give. *)
Variable rnd : list (fin 26).

Definition generateUniquePrefix : M jsstring :=
  let projectsDir := join [vaultPath config; projectsRoot config] in
  let* hasProjects := ask (λ fs, existsSync fs projectsDir) in
  let* existingPrefixes :=
    if hasProjects then
      let* projectDirs := attempt (λ fs, readdirSync fs projectsDir) in
      ret (addPrefixes ∅ projectDirs)
    else ret ∅ in
  let areasDir := join [vaultPath config; areasRoot config] in
  let* hasAreas := ask (λ fs, existsSync fs areasDir) in
  let* existingPrefixes :=
    if hasAreas then
      let* areaDirs := attempt (λ fs, readdirSync fs areasDir) in
      ret (addPrefixes existingPrefixes areaDirs)
    else ret existingPrefixes in
  sampled (sample2 existingPrefixes rnd).

Definition validatePrefixUnique (prefix : jsstring) : M bool :=
  let taken (dirs : list jsstring) :=
    existsb (λ dir, startsWith dir (prefix ++ [underscore])) dirs in
  let projectsDir := join [vaultPath config; projectsRoot config] in
  let* hasProjects := ask (λ fs, existsSync fs projectsDir) in
  let* inProjects :=
    if hasProjects then
      let* projectDirs := attempt (λ fs, readdirSync fs projectsDir) in
      ret (taken projectDirs)
    else ret false in
  if inProjects then ret false else
  let areasDir := join [vaultPath config; areasRoot config] in
  let* hasAreas := ask (λ fs, existsSync fs areasDir) in
  let* inAreas :=
    if hasAreas then
      let* areaDirs := attempt (λ fs, readdirSync fs areasDir) in
      ret (taken areaDirs)
    else ret false in
  ret (negb inAreas).

(** [x === "literal"] *)
Definition isLit (x : jsstring) (literal : string) : bool := bool_decide (x = js literal).

(** [dirs.find((d) => d.startsWith(prefix + "_"))] *)
Definition findByPrefix (prefix : jsstring) (dirs : list jsstring) : option jsstring :=
  List.find (λ d, startsWith d (prefix ++ [underscore])) dirs.

(** [content.replace("{{cursor}}", "")] *)
Definition removeCursor (content : jsstring) : jsstring :=
  replaceStr (js "{{cursor}}") [] content.

(** The first half of [createEntity] (up to the [vars] object): the
    template to use and the render variables. *)
Definition createEntity_vars (type title : jsstring) (options : Options)
    : M (EntityTemplate * gmap jsstring jsstring) :=
  let actualType :=
    if isLit type "episode" && o_solo options then js "solo_episode" else type in
  let actualType :=
    if isLit type "scratch" && o_atRoot options then js "scratch_root" else actualType in
  let actualType :=
    if isLit type "resource" && truthy (o_prefix options) then js "resource_folder"
    else actualType in
  match templates config !! actualType with
  | None => exit 1 TemplateNotFound
  | Some tpl =>
      let slug := slugify toLowerCase title in
      let date := today in
      let* prefix :=
        if (isLit type "project" || isLit type "area") && negb (truthy (o_prefix options))
        then let* generated := generateUniquePrefix in ret (Some generated)
        else ret (o_prefix options) in
      let* _ :=
        if (isLit type "project" || isLit type "area") && truthy prefix
           && truthy (o_prefix options)
        then
          let* unique := validatePrefixUnique (default [] prefix) in
          if unique then ret tt else exit 1 PrefixTaken
        else ret tt in
      let* workItemPrefix :=
        if isLit type "work" then
          let* folder := attempt (λ _, o_folder options) in
          let folderPath := join [vaultPath config; folder] in
          let workPath := joinAt folderPath [js "work"] in
          let* hasWork := ask (λ fs, existsSync fs workPath) in
          let* existingWorkPrefixes :=
            if hasWork then collectCodes 2 workPath statusFolders ∅ else ret ∅ in
          sampled (sample2 existingWorkPrefixes rnd)
        else ret [] in
      let resolvedArea := orElse (o_area options) (js "pb_personal_blog") in
      let* (postPrefix, resolvedArea) :=
        if isLit type "post" then
          let areaPrefix := orElse (o_area options) (js "pb") in
          let areasDir := join [vaultPath config; areasRoot config] in
          let* hasAreas := ask (λ fs, existsSync fs areasDir) in
          let* resolvedArea :=
            if hasAreas then
              let* areaDirs := attempt (λ fs, readdirSync fs areasDir) in
              match findByPrefix areaPrefix areaDirs with
              | Some areaDir => ret areaDir
              | None => exit 1 AreaNotFound
              end
            else ret resolvedArea in
          let areaPath := join [vaultPath config; areasRoot config; resolvedArea] in
          let* hasArea := ask (λ fs, existsSync fs areaPath) in
          let* existingPostPrefixes :=
            if hasArea then collectCodes 3 areaPath statusFolders ∅ else ret ∅ in
          let* postPrefix := sampled (sample3 existingPostPrefixes rnd) in
          ret (postPrefix, resolvedArea)
        else ret ([], resolvedArea) in
      let vars : gmap jsstring jsstring :=
        list_to_map [
          (js "title", title);
          (js "slug", slug);
          (js "date", date);
          (js "status", if isLit type "project" then js "Planned" else js "Active");
          (js "area", if isLit type "post" then resolvedArea
                      else orElse (o_area options) (js "pb_personal_blog"));
          (js "dependencies", orElse (o_dependencies options) (js "none"));
          (js "type", orElse (o_type options) (js "task"));
          (js "content", orElse (o_content options) []);
          (js "prefix", if isLit type "work" then workItemPrefix
                        else if isLit type "post" then postPrefix
                        else orElse prefix []);
          (js "folder", orElse (o_folder options) [])
        ] in
      ret (tpl, vars)
  end.

(** The loop of [createEntity] over the files of a multi-file template. *)
Fixpoint writeFiles (folderPath : path) (vars : gmap jsstring jsstring)
    (fileDefs : list TemplateFile) : M unit :=
  match fileDefs with
  | [] => ret tt
  | fileDef :: fileDefs' =>
      let filePath := joinAt folderPath [tf_name fileDef] in
      let fileDir := dirname filePath in
      let* _ := perform (λ fs, ensureDir fs fileDir) in
      let content := renderTemplate (tf_template fileDef) vars in
      let content := removeCursor content in
      let* _ := perform (λ fs, writeFileSync fs filePath content) in
      writeFiles folderPath vars fileDefs'
  end.

(** The second half of [createEntity]: the single-file branch, then the
    multi-file branch.  A [!] on a missing field throws where it is used. *)
Definition createEntity_write (tpl : EntityTemplate)
    (vars : gmap jsstring jsstring) : M unit :=
  if truthy (filePath tpl) then
    let filePath := join [vaultPath config;
                          renderTemplate (default [] (filePath tpl)) vars] in
    let* present := ask (λ fs, existsSync fs filePath) in
    if present then exit 1 (FileExists filePath) else
    let fileDir := dirname filePath in
    let* _ := perform (λ fs, ensureDir fs fileDir) in
    let* body := attempt (λ _, template tpl) in
    let content := renderTemplate body vars in
    let content := removeCursor content in
    perform (λ fs, writeFileSync fs filePath content)
  else
    let* pattern := attempt (λ _, folderPattern tpl) in
    let folderPath := join [vaultPath config; renderTemplate pattern vars] in
    let* present := ask (λ fs, existsSync fs folderPath) in
    if present then exit 1 (FolderExists folderPath) else
    let* _ := perform (λ fs, ensureDir fs folderPath) in
    let* fileDefs := attempt (λ _, files tpl) in
    writeFiles folderPath vars fileDefs.

Definition createEntity (type title : jsstring) (options : Options) : M unit :=
  let* (tpl, vars) := createEntity_vars type title options in
  createEntity_write tpl vars.

(** The branch of [new resource --prefix xx] for a resource folder that is
    already there: one more file directly inside it.  The source has this
    code inline in the action of [new], renderer included. *)
Definition newResourceFile (actualTitle prefix resourceDir : jsstring) (opts : Options)
    : M unit :=
  let actualSlug := slugify toLowerCase actualTitle in
  let filePath := join [vaultPath config; resourcesRoot config; resourceDir;
                        actualSlug ++ js ".md"] in
  let* present := ask (λ fs, existsSync fs filePath) in
  if present then exit 1 (FileExists filePath) else
  let fileDir := dirname filePath in
  let* _ := perform (λ fs, ensureDir fs fileDir) in
  let* body := attempt (λ _, templates config !! js "resource" ≫= template) in
  let vars : gmap jsstring jsstring :=
    list_to_map [
      (js "title", actualTitle);
      (js "slug", actualSlug);
      (js "date", today);
      (js "status", js "Active");
      (js "area", orElse (o_area opts) (js "pb_personal_blog"));
      (js "dependencies", orElse (o_dependencies opts) (js "none"));
      (js "type", orElse (o_type opts) (js "task"));
      (js "content", orElse (o_content opts) []);
      (js "prefix", prefix);
      (js "folder", orElse (o_folder opts) [])
    ] in
  let content := renderTemplate body vars in
  let content := removeCursor content in
  perform (λ fs, writeFileSync fs filePath content).

(** [opts.folder = folder] *)
Definition withFolder (opts : Options) (folder : jsstring) : Options :=
  {| o_prefix := o_prefix opts; o_area := o_area opts;
     o_dependencies := o_dependencies opts; o_type := o_type opts;
     o_content := o_content opts; o_solo := o_solo opts;
     o_atRoot := o_atRoot opts; o_folder := Some folder |}.

(** [opts.prefix = prefix] *)
Definition withPrefix (opts : Options) (prefix : jsstring) : Options :=
  {| o_prefix := Some prefix; o_area := o_area opts;
     o_dependencies := o_dependencies opts; o_type := o_type opts;
     o_content := o_content opts; o_solo := o_solo opts;
     o_atRoot := o_atRoot opts; o_folder := o_folder opts |}.

(** The lookup shared by the work and scratch branches of [new]: the parent
    is searched in the projects, then in the areas. *)
Definition newInParent (type actualTitle prefix : jsstring) (opts : Options) : M unit :=
  let projectsDir := join [vaultPath config; projectsRoot config] in
  let* hasProjects := ask (λ fs, existsSync fs projectsDir) in
  let* projectDir :=
    if hasProjects then
      let* projectDirs := attempt (λ fs, readdirSync fs projectsDir) in
      ret (findByPrefix prefix projectDirs)
    else ret None in
  match projectDir with
  | Some projectDir =>
      createEntity type actualTitle
        (withFolder opts (joinText [projectsRoot config; projectDir]))
  | None =>
      let areasDir := join [vaultPath config; areasRoot config] in
      let* hasAreas := ask (λ fs, existsSync fs areasDir) in
      let* areaDir :=
        if hasAreas then
          let* areaDirs := attempt (λ fs, readdirSync fs areasDir) in
          ret (findByPrefix prefix areaDirs)
        else ret None in
      match areaDir with
      | Some areaDir =>
          createEntity type actualTitle
            (withFolder opts (joinText [areasRoot config; areaDir]))
      | None => exit 1 ParentNotFound
      end
  end.

(** The action of [new <type> [title]]. *)
Definition newAction (type : jsstring) (title : option jsstring) (opts : Options) : M unit :=
  let actualTitle := orElse title (js "Untitled") in
  let prefix := default [] (o_prefix opts) in
  if isLit type "work" then
    if negb (truthy (o_prefix opts)) then exit 1 PrefixRequired
    else if negb (length prefix =? 2)%nat then exit 1 PrefixLength
    else newInParent type actualTitle prefix opts
  else if isLit type "scratch" && negb (truthy (o_prefix opts)) && negb (o_atRoot opts)
  then exit 1 PrefixRequired
  else if isLit type "scratch" && truthy (o_prefix opts) && negb (length prefix =? 2)%nat
  then exit 1 PrefixLength
  else if isLit type "scratch" && truthy (o_prefix opts)
  then newInParent type actualTitle prefix opts
  else if isLit type "resource" && truthy (o_prefix opts) then
    if negb (length prefix =? 2)%nat then exit 1 PrefixLength else
    let resourcesDir := join [vaultPath config; resourcesRoot config] in
    let* hasResources := ask (λ fs, existsSync fs resourcesDir) in
    let* resourceDir :=
      if hasResources then
        let* resourceDirs := attempt (λ fs, readdirSync fs resourcesDir) in
        ret (findByPrefix prefix resourceDirs)
      else ret None in
    match resourceDir with
    | Some resourceDir => newResourceFile actualTitle prefix resourceDir opts
    | None => createEntity (js "resource_folder") actualTitle opts
    end
  else if isLit type "recipe" then
    let opts := if truthy (o_prefix opts) then opts else withPrefix opts (js "re") in
    if negb (length (default [] (o_prefix opts)) =? 2)%nat then exit 1 PrefixLength
    else createEntity type actualTitle opts
  else createEntity type actualTitle opts.

(** ** mark *)

Definition validStatuses : list jsstring :=
  [js "backlog"; js "active"; js "review"; js "done"].

Definition statusMap : gmap jsstring jsstring :=
  list_to_map [ (js "backlog", js "Backlog"); (js "active", js "Active");
                (js "review", js "Review"); (js "done", js "Done") ].

(** The loop with [break] over the status folders below [base]: the first
    folder that lists a name starting with [<code>_] gives the source path
    and the file name. *)
Fixpoint findItem (base : path) (code : jsstring) (folders : list jsstring)
    : M (option (path * jsstring)) :=
  match folders with
  | [] => ret None
  | stat :: folders' =>
      let statusPath := joinAt base [stat] in
      let* present := ask (λ fs, existsSync fs statusPath) in
      if present then
        let* files := attempt (λ fs, readdirSync fs statusPath) in
        match findByPrefix code files with
        | Some found => ret (Some (joinAt statusPath [found], found))
        | None => findItem base code folders'
        end
      else findItem base code folders'
  end.

(** [try { writeFileSync(target, content); unlinkSync(source) } catch { exit(1) }] *)
Definition moveFile (targetPath : path) (content : jsstring) (sourcePath : path) : M unit :=
  λ fs,
    match writeFileSync fs targetPath content with
    | None => Exit 1 MoveError fs
    | Some written =>
        match unlinkSync written sourcePath with
        | None => Exit 1 MoveError written
        | Some moved => Return tt moved
        end
    end.

Definition markPost (areaPrefix postPrefix status : jsstring) : M unit :=
  if negb (bool_decide (toLowerCase status ∈ validStatuses)) then exit 1 InvalidStatus else
  let statusLower := toLowerCase status in
  let areasDir := join [vaultPath config; areasRoot config] in
  let* hasAreas := ask (λ fs, existsSync fs areasDir) in
  let* source :=
    if hasAreas then
      let* areaDirs := attempt (λ fs, readdirSync fs areasDir) in
      match findByPrefix areaPrefix areaDirs with
      | Some areaDir =>
          let areaPath := join [vaultPath config; areasRoot config; areaDir] in
          let* found := findItem areaPath postPrefix statusFolders in
          ret (option_map (λ hitAt : path * jsstring,
                             (hitAt.1, [areasRoot config; areaDir], hitAt.2)) found)
      | None => ret None
      end
    else ret None in
  match source with
  | None => exit 1 ItemNotFound
  | Some (sourcePath, sourceFolder, fileName) =>
      let targetFileName :=
        if isLit statusLower "done"
        then replaceStr (postPrefix ++ [underscore]) [] fileName
        else fileName in
      let targetPath :=
        join ([vaultPath config] ++ sourceFolder ++ [statusLower; targetFileName]) in
      let* _ := perform (λ fs, ensureDir fs (dirname targetPath)) in
      let* content := attempt (λ fs, readFileSync fs sourcePath) in
      let content :=
        if isLit statusLower "done"
        then replaceFirst statusTagLine (λ _, []) None content
        else replaceFirst statusTag (λ _, js "- status/" ++ statusLower) None content in
      moveFile targetPath content sourcePath
  end.

(** The search of [markWork] below one root ([config.projectsRoot], then
    [config.areasRoot]); the source spells it out twice. *)
Definition findWork (root folderPrefix itemPrefix : jsstring)
    : M (option (path * list jsstring * jsstring)) :=
  let rootDir := join [vaultPath config; root] in
  let* hasRoot := ask (λ fs, existsSync fs rootDir) in
  if hasRoot then
    let* dirs := attempt (λ fs, readdirSync fs rootDir) in
    match findByPrefix folderPrefix dirs with
    | Some dir =>
        let workPath := join [vaultPath config; root; dir; js "work"] in
        let* hasWork := ask (λ fs, existsSync fs workPath) in
        if hasWork then
          let* found := findItem workPath itemPrefix statusFolders in
          ret (option_map (λ hitAt : path * jsstring,
                             (hitAt.1, [root; dir], hitAt.2)) found)
        else ret None
    | None => ret None
    end
  else ret None.

Definition markWork (folderPrefix itemPrefix status : jsstring) : M unit :=
  if negb (bool_decide (toLowerCase status ∈ validStatuses)) then exit 1 InvalidStatus else
  let statusLower := toLowerCase status in
  let* inProjects := findWork (projectsRoot config) folderPrefix itemPrefix in
  let* source :=
    match inProjects with
    | Some _ => ret inProjects
    | None => findWork (areasRoot config) folderPrefix itemPrefix
    end in
  match source with
  | None => exit 1 ItemNotFound
  | Some (sourcePath, sourceFolder, fileName) =>
      let targetFileName :=
        if isLit statusLower "done"
        then replaceStr (itemPrefix ++ [underscore]) [] fileName
        else fileName in
      let targetPath :=
        join ([vaultPath config] ++ sourceFolder
              ++ [js "work"; statusLower; targetFileName]) in
      let* _ := perform (λ fs, ensureDir fs (dirname targetPath)) in
      let* content := attempt (λ fs, readFileSync fs sourcePath) in
      let newStatus := default (js "undefined") (statusMap !! statusLower) in
      let content :=
        replaceFirst statusField (λ _, js "status: " ++ newStatus) None content in
      let content :=
        if isLit statusLower "done"
        then replaceFirst statusTagLine (λ _, []) None content
        else replaceFirst tagsBlock
               (λ h, js "tags:" ++ [newline] ++ group1 h ++ js "- status/" ++ statusLower)
               None content in
      moveFile targetPath content sourcePath
  end.

(** The action of [mark <type>]; its three options are required ones. *)
Definition markAction (type prefix item status : jsstring) : M unit :=
  if negb (isLit type "work") && negb (isLit type "post") then exit 1 MarkType
  else if negb (length prefix =? 2)%nat then exit 1 PrefixLength
  else if isLit type "work" then
    if negb (length item =? 2)%nat then exit 1 ItemLength
    else markWork prefix item status
  else
    if negb (length item =? 3)%nat then exit 1 ItemLength
    else markPost prefix item status.

End Commands.

(** ** Vocabulary of the properties *)

(** A matcher that consumes input whenever it matches. *)
Definition progressing (m : matcher) : Prop :=
  ∀ prev s h, m prev s = Some h → (length (rest h) < length s)%nat.

(** What the two passes of [slugify] compute, by structural recursion:
    [collapseIn inRun s] writes one hyphen per run of code units outside
    [[a-z0-9]] ([inRun]: the hyphen of the current run is already out);
    [dropTrail] cuts a run of hyphens that reaches the end. *)
Fixpoint collapseIn (inRun : bool) (s : jsstring) : jsstring :=
  match s with
  | [] => []
  | c :: s' =>
      if isAlnum c then c :: collapseIn false s'
      else if inRun then collapseIn true s'
      else hyphen :: collapseIn true s'
  end.

Fixpoint dropTrail (s : jsstring) : jsstring :=
  match s with
  | [] => []
  | c :: s' => if isHyphen c && forallb isHyphen s' then [] else c :: dropTrail s'
  end.

(** Template text in which [VAR_PATTERN] cannot start a match, whatever
    follows it: no [{{] inside and no [{] at the end. *)
Fixpoint literal (s : jsstring) : bool :=
  match s with
  | [] => true
  | c :: s' =>
      match s' with
      | [] => negb (c =? lbrace)
      | d :: _ => negb ((c =? lbrace) && (d =? lbrace)) && literal s'
      end
  end.

(** The prefix of a folder name: what stands before its first underscore.
    A name without underscore has none. *)
Definition prefixOf (name : jsstring) : option jsstring :=
  if includes name underscore
  then Some (span (λ c, negb (c =? underscore)) name).1
  else None.

(** A path that holds no regular file: absent, or a directory. *)
Definition notFile (fs : vault) (p : path) : Prop :=
  ∀ text, stat fs p ≠ Some (File text).

(** The names listed below [dir]; none when [dir] does not exist. *)
Definition listing (fs : vault) (dir : path) : list jsstring :=
  default [] (readdirSync fs dir).

(** The set [generateUniquePrefix] has built when its scan is over. *)
Definition scannedPrefixes (config : Config) (fs : vault) : gset jsstring :=
  addPrefixes
    (addPrefixes ∅ (listing fs (join [vaultPath config; projectsRoot config])))
    (listing fs (join [vaultPath config; areasRoot config])).

(** The draws of some rounds of the two-letter loop, one after the other. *)
Definition draws (rounds : list (fin 26 * fin 26)) : list (fin 26) :=
  rounds ≫= λ round, [round.1; round.2].

(** *** Vaults and configurations to run the model on *)

(** The [n]-th index of [chars] (the last one beyond that). *)
Fixpoint indexOf (m n : nat) : fin (S m) :=
  match n, m with
  | S n', S m' => FS (indexOf m' n')
  | _, _ => 0%fin
  end.

Definition draw (n : nat) : fin 26 := indexOf 25 n.

Definition vaultOf (entries : list (list string * entry)) : vault :=
  list_to_map ((λ e : list string * entry, (js <$> e.1, e.2)) <$> entries).

Definition demoTemplates : gmap jsstring EntityTemplate :=
  list_to_map [
    (js "resource",
     {| folderPattern := None;
        filePath := Some (js "03_resources/{{slug}}.md");
        files := None;
        template := Some (js "# {{title}}" ++ [newline] ++ js "{{cursor}}") |});
    (js "project",
     {| folderPattern := Some (js "01_projects/{{prefix}}_{{slug}}");
        filePath := None;
        files := Some [ {| tf_name := js "index.md";
                           tf_template := js "# {{title}}" ++ [newline] ++ js "{{cursor}}" |} ];
        template := None |})
  ].

Definition demoConfig : Config :=
  {| vaultPath := js "/vault";
     areasRoot := js "02_areas";
     projectsRoot := js "01_projects";
     resourcesRoot := js "03_resources";
     templates := demoTemplates |}.

Definition taskText (status tag : string) : jsstring :=
  js "---" ++ [newline] ++ js "status: " ++ js status ++ [newline]
  ++ js "tags:" ++ [newline] ++ js "  - work" ++ [newline]
  ++ js "  - status/" ++ js tag ++ [newline] ++ js "---" ++ [newline] ++ js "# Task".

Definition demoVault : vault :=
  vaultOf [
    (["vault"], Dir);
    (["vault"; "01_projects"], Dir);
    (["vault"; "01_projects"; "ab_site"], Dir);
    (["vault"; "01_projects"; "ab_site"; "work"], Dir);
    (["vault"; "01_projects"; "ab_site"; "work"; "active"], Dir);
    (["vault"; "01_projects"; "ab_site"; "work"; "active"; "xy_task.md"],
     File (taskText "Active" "active"));
    (["vault"; "02_areas"], Dir);
    (["vault"; "02_areas"; "cd_health"], Dir);
    (["vault"; "02_areas"; "cd_health"; "backlog"], Dir);
    (["vault"; "02_areas"; "cd_health"; "backlog"; "abc_post.md"],
     File (taskText "Backlog" "backlog"));
    (["vault"; "03_resources"], Dir)
  ]%string.

(** Every two-letter combination, and a vault whose projects root has a
    folder for each of them. *)
Definition allCombinations : list jsstring :=
  i ← enum (fin 26); j ← enum (fin 26); [[letter i; letter j]].

Definition saturatedVault : vault :=
  list_to_map
    (([js "vault"], Dir) :: ([js "vault"; js "01_projects"], Dir)
     :: ((λ combination, ([js "vault"; js "01_projects"; combination ++ js "_x"], Dir))
           <$> allCombinations)).

(** Whether every two-letter combination is in [existing]. *)
Definition saturated (existing : gset jsstring) : bool :=
  forallb (λ combination, bool_decide (combination ∈ existing)) allCombinations.

(** A computation that leaves the vault as it found it. *)
Definition readonly {A} (m : M A) : Prop := ∀ fs, vaultAfter (m fs) = fs.

(** Options with nothing given. *)
Definition noOptions : Options :=
  {| o_prefix := None; o_area := None; o_dependencies := None; o_type := None;
     o_content := None; o_solo := false; o_atRoot := false; o_folder := None |}.

(** How an invocation of [new] goes on after its own checks: it has
    stopped with status 1 and the vault untouched, or it runs [createEntity],
    or it runs [newResourceFile], on the vault as it was. *)
Definition dispatched (toLowerCase : jsstring → jsstring) (config : Config)
    (today : jsstring) (rnd : list (fin 26))
    (actualTitle : jsstring) (opts : Options) (fs : vault) (out : outcome unit) : Prop :=
  (∃ why, out = Exit 1 why fs)
  ∨ (∃ type' opts', out = createEntity toLowerCase config today rnd type' actualTitle opts' fs)
  ∨ (∃ prefix resourceDir,
       out = newResourceFile toLowerCase config today actualTitle prefix resourceDir opts fs).

(** *** The vault as a file tree, and a work item in it *)

Global Instance entry_eq_dec : EqDecision entry.
Proof. solve_decision. Defined.

(** A segment that names an entry: not empty, not [.] or [..], no [/]. *)
Definition plain (seg : jsstring) : Prop :=
  seg ≠ [] ∧ seg ≠ js "." ∧ seg ≠ js ".." ∧ slash ∉ seg.

(** Every entry has a proper name for each of its segments, and lies in a
    directory. *)
Definition wfVault (fs : vault) : Prop :=
  map_Forall (λ p _, Forall plain p ∧ stat fs (removelast p) = Some Dir) fs.

(** The parent container of a work item, as the spec has it: the first
    folder with the prefix in the projects root, else in the areas root.
    The result is the root and the folder. *)
Definition parentContainer (config : Config) (fs : vault) (folderPrefix : jsstring)
    : option (jsstring * jsstring) :=
  match findByPrefix folderPrefix (listing fs (join [vaultPath config; projectsRoot config])) with
  | Some dir => Some (projectsRoot config, dir)
  | None =>
      match findByPrefix folderPrefix (listing fs (join [vaultPath config; areasRoot config])) with
      | Some dir => Some (areasRoot config, dir)
      | None => None
      end
  end.

(** [name], in [folder], is the one entry below the status folders of
    [workPath] whose name starts with [<code>_]. *)
Definition onlyItem (fs : vault) (workPath : path) (code folder name : jsstring) : Prop :=
  folder ∈ statusFolders
  ∧ name ∈ listing fs (workPath ++ [folder])
  ∧ startsWith name (code ++ [underscore]) = true
  ∧ Forall (λ folder',
       Forall (λ name',
          startsWith name' (code ++ [underscore]) = true →
          folder' = folder ∧ name' = name)
         (listing fs (workPath ++ [folder'])))
      statusFolders.

(** The text [markWork] writes for a file with text [content]: the status
    field, then the status tag. *)
Definition markWorkText (statusLower content : jsstring) : jsstring :=
  let newStatus := default (js "undefined") (statusMap !! statusLower) in
  let content := replaceFirst statusField (λ _, js "status: " ++ newStatus) None content in
  if isLit statusLower "done"
  then replaceFirst statusTagLine (λ _, []) None content
  else replaceFirst tagsBlock
         (λ h, js "tags:" ++ [newline] ++ group1 h ++ js "- status/" ++ statusLower)
         None content.

(** Whether [pat] occurs in [s]. *)
Fixpoint occurs (pat s : jsstring) : bool :=
  match stripPrefix pat s with
  | Some _ => true
  | None => match s with
            | [] => false
            | _ :: s' => occurs pat s'
            end
  end.

(** Whether [s] ends with a line break followed by nothing but blanks. *)
Fixpoint blankAfterBreak (s : jsstring) : bool :=
  match s with
  | [] => false
  | c :: s' => (c =? newline) && forallb isSpace s' || blankAfterBreak s'
  end.

(** Whether [s] is empty or starts with a line break. *)
Definition lineEnd (s : jsstring) : bool :=
  match s with
  | [] => true
  | c :: _ => c =? newline
  end.

(** The code units a slug may contain. *)
Definition slugChar (c : jschar) : bool := isAlnum c || isHyphen c.

(** ** archive and init *)

(** *** archive *)

(** Where an entry at [p] stands after [src] has been renamed to [dst]. *)
Definition relocate (src dst p : path) : path :=
  if decide (src `prefix_of` p) then dst ++ drop (length src) p else p.

(** The vault after the rename: what was at or below [dst] is gone, what
    was at or below [src] is at or below [dst]. *)
Definition moved (fs : vault) (src dst : path) : vault :=
  list_to_map
    ((λ kv : path * entry, (relocate src dst kv.1, kv.2))
       <$> map_to_list (filter (λ kv : path * entry, ¬ dst `prefix_of` kv.1) fs)).

(** [renameSync(src, dst)], as [rename(2)] has it: [src] has to be there
    and the directory of [dst] too; neither path may lie inside the other;
    a regular file replaces a regular file, a directory replaces an empty
    directory, and nothing else is replaced. *)
Definition renameSync (fs : vault) (src dst : path) : option vault :=
  match fs !! src, stat fs (dirname dst) with
  | Some e, Some Dir =>
      if decide (src = dst) then Some fs
      else if decide (src `prefix_of` dst ∨ dst `prefix_of` src) then None
      else
        match e, fs !! dst with
        | _, None | File _, Some (File _) => Some (moved fs src dst)
        | Dir, Some Dir =>
            if decide (listing fs dst = []) then Some (moved fs src dst) else None
        | _, _ => None
        end
  | _, _ => None
  end.

(** The fields of the configuration that only [archive] and [init] read. *)
Record ArchiveRoots := {
  inboxRoot : jsstring;
  archiveAreasRoot : jsstring;
  archiveProjectsRoot : jsstring;
  archiveResourcesRoot : jsstring
}.

(** [rootMap[type]] and [archiveMap[type]]; for any other type the lookup
    gives no string, and [join] throws on it. *)
Definition rootMap (config : Config) (type : jsstring) : option jsstring :=
  if isLit type "project" then Some (projectsRoot config)
  else if isLit type "area" then Some (areasRoot config)
  else if isLit type "resource" then Some (resourcesRoot config)
  else None.

Definition archiveMap (roots : ArchiveRoots) (type : jsstring) : option jsstring :=
  if isLit type "project" then Some (archiveProjectsRoot roots)
  else if isLit type "area" then Some (archiveAreasRoot roots)
  else if isLit type "resource" then Some (archiveResourcesRoot roots)
  else None.

(** [archiveEntity].  Its "Folder not found" is reported as [ItemNotFound]. *)
Definition archiveEntity (config : Config) (roots : ArchiveRoots)
    (type folderName : jsstring) : M unit :=
  let* root := attempt (λ _, rootMap config type) in
  let sourcePath := join [vaultPath config; root; folderName] in
  let* archiveRoot := attempt (λ _, archiveMap roots type) in
  let targetPath := join [vaultPath config; archiveRoot; folderName] in
  let* present := ask (λ fs, existsSync fs sourcePath) in
  if negb present then exit 1 ItemNotFound else
  let* _ := perform (λ fs, ensureDir fs (dirname targetPath)) in
  perform (λ fs, renameSync fs sourcePath targetPath).

(** The action of [archive <type> <name>].  Its "Invalid type" is reported
    as [MarkType]. *)
Definition archiveAction (config : Config) (roots : ArchiveRoots)
    (type name : jsstring) : M unit :=
  let validTypes := [js "project"; js "area"; js "resource"] in
  if negb (bool_decide (type ∈ validTypes)) then exit 1 MarkType
  else archiveEntity config roots type name.

(** *** init *)

Definition quote : jschar := 34.

(** The lines of the text of [generateAgentsMd]; the text ends each of
    them with a line break. *)
Definition agentsLines : list jsstring :=
  [ js "## obsd Commands";
    [];
    js "Use `obsd` to create and manage notes in the vault using the PARA method (Projects, Areas, Resources, Archives).";
    [];
    js "### Quick Reference";
    [];
    js "```bash";
    js "obsd new project " ++ [quote] ++ js "Title" ++ [quote] ++ js "                           # Creates 00_projects/<prefix>_<slug>/ with work folders";
    js "obsd new area " ++ [quote] ++ js "Title" ++ [quote] ++ js "                              # Creates 01_areas/<prefix>_<slug>/ with work folders";
    js "obsd new post " ++ [quote] ++ js "Title" ++ [quote] ++ js " --area <prefix>              # Creates <area>/post.md";
    js "obsd new resource " ++ [quote] ++ js "Title" ++ [quote] ++ js "                          # Creates 02_resources/resource.md";
    js "obsd new resource " ++ [quote] ++ js "Title" ++ [quote] ++ js " --prefix <xx>            # Creates resource inside 02_resources/<prefix>_<slug>/";
    js "obsd new recipe " ++ [quote] ++ js "Title" ++ [quote] ++ js "                            # Creates 02_resources/re_<slug>.md (prefix: re)";
    js "obsd new recipe " ++ [quote] ++ js "Title" ++ [quote] ++ js " --prefix <xx>              # Creates 02_resources/<prefix>_<slug>.md";
    js "obsd new inbox " ++ [quote] ++ js "Title" ++ [quote] ++ js "                             # Creates 05_inbox/dated-note.md";
    js "obsd new inbox " ++ [quote] ++ js "Title" ++ [quote] ++ js " " ++ [quote] ++ js "Content" ++ [quote] ++ js "                   # Creates with content (second arg)";
    js "obsd new scratch " ++ [quote] ++ js "Title" ++ [quote] ++ js " --prefix <xx>             # Creates <prefix>_folder/notes/dated-note.md";
    js "obsd new scratch " ++ [quote] ++ js "Title" ++ [quote] ++ js " --prefix <xx> --at-root   # Creates at folder root";
    js "obsd new work " ++ [quote] ++ js "Title" ++ [quote] ++ js " --prefix <xx> --item <id>    # Creates <prefix>_folder/work/backlog/<prefix>_<item>.md";
    js "obsd new episode " ++ [quote] ++ js "Guest Name" ++ [quote] ++ js "                      # Creates interview episode in ha_howaiisbuilt/guests/";
    js "obsd new episode " ++ [quote] ++ js "Topic" ++ [quote] ++ js " --solo                    # Creates solo episode in ha_howaiisbuilt/";
    [];
    js "obsd mark work --prefix <xx> --item <id> --status <status>  # Move work item between statuses";
    [];
    js "obsd archive project <prefix>_<slug>               # Move to 03_archive/projects/";
    js "obsd archive area <prefix>_<slug>                  # Move to 03_archive/areas/";
    js "obsd archive resource <prefix>_<slug>              # Move to 03_archive/resources/";
    js "```";
    [];
    js "### Work Item Workflow";
    [];
    js "Work items live in project/area folders and flow through: `backlog` " ++ [8594] ++ js " `active` " ++ [8594] ++ js " `review` " ++ [8594] ++ js " `done`";
    [];
    js "Each work item gets a unique 2-letter prefix within its project/area.";
    [];
    js "```bash";
    js "obsd new work " ++ [quote] ++ js "Build dashboard" ++ [quote] ++ js " --prefix am              # Creates xy_build-dashboard.md in am_amp/work/backlog/";
    js "obsd mark work --prefix am --item xy --status active     # Move am_*/xy_* to active";
    js "obsd mark work --prefix am --item xy --status review     # Move am_*/xy_* to review";
    js "obsd mark work --prefix am --item xy --status done       # Mark am_*/xy_* as complete";
    js "```";
    [];
    js "### Options";
    [];
    js "- `--prefix <xx>` " ++ [8212] ++ js " 2-character prefix (auto-generated for project/area, required for scratch/resource/work)";
    js "- `--item <id>` " ++ [8212] ++ js " Item identifier (required for work items)";
    js "- `--status <status>` " ++ [8212] ++ js " Status for mark command (backlog, active, review, done)";
    js "- `--area <name>` " ++ [8212] ++ js " Area prefix for posts";
    js "- `--solo` " ++ [8212] ++ js " For episode type, creates a solo episode instead of interview";
    js "- `--at-root` " ++ [8212] ++ js " For scratch type, creates file at folder root (not in notes/)" ].

Definition generateAgentsMd : jsstring :=
  agentsLines ≫= λ line, line ++ [newline].

Definition obsdMarker : jsstring := js "## obsd Commands".

(** [s.split(pat)[0]]: what stands before the first occurrence of [pat];
    all of [s] when there is none. *)
Fixpoint beforeFirst (pat s : jsstring) : jsstring :=
  match stripPrefix pat s with
  | Some _ => []
  | None => match s with
            | [] => []
            | c :: s' => c :: beforeFirst pat s'
            end
  end.

(** [dirsToCreate.add(dir)]: a [Set] keeps its elements in the order in
    which they were first added. *)
Definition addDir (dirs : list jsstring) (dir : jsstring) : list jsstring :=
  if decide (dir ∈ dirs) then dirs else dirs ++ [dir].

Definition configuredRoots (config : Config) (roots : ArchiveRoots) : list jsstring :=
  [ projectsRoot config; areasRoot config; resourcesRoot config; inboxRoot roots;
    archiveProjectsRoot roots; archiveAreasRoot roots; archiveResourcesRoot roots ].

Definition journalDirs : list jsstring :=
  [ js "04_journal"; js "04_journal/daily"; js "04_journal/weeklies";
    js "04_journal/experiments" ].

Definition dirsToCreate (config : Config) (roots : ArchiveRoots) : list jsstring :=
  foldl addDir
    (foldl (λ dirs dir, if truthy (Some dir) then addDir dirs dir else dirs) []
       (configuredRoots config roots))
    journalDirs.

(** The loop of [initVault] over the directories. *)
Fixpoint createDirs (vaultPath : jsstring) (dirs : list jsstring) : M unit :=
  match dirs with
  | [] => ret tt
  | dir :: dirs' =>
      let fullPath := join [vaultPath; dir] in
      let* present := ask (λ fs, existsSync fs fullPath) in
      let* _ := if present then ret tt else perform (λ fs, mkdirSync fs fullPath) in
      createDirs vaultPath dirs'
  end.

Definition initVault (config : Config) (roots : ArchiveRoots) : M unit :=
  let* _ := createDirs (vaultPath config) (dirsToCreate config roots) in
  let agentsMdPath := join [vaultPath config; js "AGENTS.md"] in
  let agentsContent := generateAgentsMd in
  let* present := ask (λ fs, existsSync fs agentsMdPath) in
  if present then
    let* existing := attempt (λ fs, readFileSync fs agentsMdPath) in
    if occurs obsdMarker existing then
      let beforeObsd := beforeFirst obsdMarker existing in
      perform (λ fs, writeFileSync fs agentsMdPath (beforeObsd ++ agentsContent))
    else
      perform (λ fs, writeFileSync fs agentsMdPath (existing ++ [newline] ++ agentsContent))
  else perform (λ fs, writeFileSync fs agentsMdPath agentsContent).

(** ** Vocabulary of the further properties *)

(** A computation that only reads the vault and, when it stops the
    process, does so with status 1. *)
Definition reader {A : Type} (m : M A) : Prop :=
  ∀ fs, match m fs with
        | Return _ fs' | Spinning fs' => fs' = fs
        | Exit code _ fs' => code = 1%nat ∧ fs' = fs
        end.

(** An outcome that, when it is a failure, has status 1 and, unless the
    failure is one of the [crash] kinds, the vault [fs]. *)
Definition tidy {A : Type} (crash : failure → Prop) (fs : vault) (out : outcome A) : Prop :=
  match out with
  | Exit code why fs' => code = 1%nat ∧ (¬ crash why → fs' = fs)
  | _ => True
  end.

(** A computation whose failures are all of the [crash] kinds. *)
Definition crashing {A : Type} (crash : failure → Prop) (m : M A) : Prop :=
  ∀ fs, match m fs with
        | Exit code why _ => code = 1%nat ∧ crash why
        | _ => True
        end.


(** Whether no proper, non-empty prefix of [p] is also a suffix of it: two
    occurrences of such a pattern cannot overlap. *)
Definition unbordered (p : jsstring) : bool :=
  forallb (λ k, negb (bool_decide (take k p = drop (length p - k) p)))
          (seq 1 (length p - 1)).

(** Whether the position after [head] is the start of a line, [prev] being
    the code unit before [head]. *)
Definition lineStartAfter (prev : option jschar) (head : jsstring) : bool :=
  match (match last head with Some c => Some c | None => prev end) with
  | Some c => isLineTerminator c
  | None => true
  end.

(** Whether a folder of the projects root or of the areas root has a name
    that starts with [<prefix>_]. *)
Definition prefixTaken (config : Config) (fs : vault) (prefix : jsstring) : Prop :=
  ∃ root dir,
    (root = projectsRoot config ∨ root = areasRoot config)
    ∧ dir ∈ listing fs (join [vaultPath config; root])
    ∧ startsWith dir (prefix ++ [underscore]) = true.

(** Whether the file names of every template consist of proper segments
    ([index.md], [work/backlog/.gitkeep]; no [..], no empty segment). *)
Definition plainFiles (config : Config) : Prop :=
  map_Forall (λ _ tpl,
                Forall (λ fileDef, Forall plain (split slash (tf_name fileDef)))
                       (default [] (files tpl)))
             (templates config).

(** A computation whose result, when it returns, satisfies [P]. *)
Definition yields {A : Type} (P : A → Prop) (m : M A) : Prop :=
  ∀ fs a fs', m fs = Return a fs' → P a.

(** The text [markPost] writes for a file with text [content]: the status
    tag line is cut out for [done], the status tag is rewritten otherwise. *)
Definition markPostText (statusLower content : jsstring) : jsstring :=
  if isLit statusLower "done"
  then replaceFirst statusTagLine (λ _, []) None content
  else replaceFirst statusTag (λ _, js "- status/" ++ statusLower) None content.

(** The value of a render variable, when [createEntity] gets as far as
    its variables. *)
Definition renderVariable (out : outcome (EntityTemplate * gmap jsstring jsstring))
    (key : string) : option jsstring :=
  returned out ≫= λ result, result.2 !! js key.

(** *** More configurations to run the model on *)

(** A configuration with single-file templates for work items and posts,
    to run the model on. *)
Definition workshopTemplates : gmap jsstring EntityTemplate :=
  list_to_map [
    (js "work",
     {| folderPattern := None;
        filePath := Some (js "{{folder}}/work/backlog/{{prefix}}_{{slug}}.md");
        files := None;
        template := Some (js "# {{title}}") |});
    (js "post",
     {| folderPattern := None;
        filePath := Some (js "02_areas/{{area}}/backlog/{{prefix}}_{{slug}}.md");
        files := None;
        template := Some (js "# {{title}}") |})
  ].

Definition workshopConfig : Config :=
  {| vaultPath := js "/vault";
     areasRoot := js "02_areas";
     projectsRoot := js "01_projects";
     resourcesRoot := js "03_resources";
     templates := workshopTemplates |}.

Definition demoRoots : ArchiveRoots :=
  {| inboxRoot := js "05_inbox";
     archiveAreasRoot := js "06_archive/areas";
     archiveProjectsRoot := js "06_archive/projects";
     archiveResourcesRoot := js "06_archive/resources" |}.

(** A vault where two folders of a root share a prefix: the listing is
    sorted, so [find] takes [ab_alpha] and [cd_alpha], which hold no item. *)
Definition twinVault : vault :=
  vaultOf [
    (["vault"], Dir);
    (["vault"; "01_projects"], Dir);
    (["vault"; "01_projects"; "ab_alpha"], Dir);
    (["vault"; "01_projects"; "ab_docs"], Dir);
    (["vault"; "01_projects"; "ab_docs"; "work"], Dir);
    (["vault"; "01_projects"; "ab_docs"; "work"; "active"], Dir);
    (["vault"; "01_projects"; "ab_docs"; "work"; "active"; "xy_task.md"],
     File (taskText "Active" "active"));
    (["vault"; "02_areas"], Dir);
    (["vault"; "02_areas"; "cd_alpha"], Dir);
    (["vault"; "02_areas"; "cd_health"], Dir);
    (["vault"; "02_areas"; "cd_health"; "backlog"], Dir);
    (["vault"; "02_areas"; "cd_health"; "backlog"; "abc_post.md"],
     File (taskText "Backlog" "backlog"))
  ]%string.

(** The demo vault with a directory where the finished task is to go. *)
Definition blockedVault : vault :=
  vaultOf [
    (["vault"], Dir);
    (["vault"; "01_projects"], Dir);
    (["vault"; "01_projects"; "ab_site"], Dir);
    (["vault"; "01_projects"; "ab_site"; "work"], Dir);
    (["vault"; "01_projects"; "ab_site"; "work"; "active"], Dir);
    (["vault"; "01_projects"; "ab_site"; "work"; "active"; "xy_task.md"],
     File (taskText "Active" "active"));
    (["vault"; "01_projects"; "ab_site"; "work"; "done"], Dir);
    (["vault"; "01_projects"; "ab_site"; "work"; "done"; "task.md"], Dir);
    (["vault"; "02_areas"], Dir)
  ]%string.

Example slugify_example :
  slugify asciiLower (js "  My Website -- v2! ") = js "my-website-v2".
Proof. vm_compute. reflexivity. Qed.

Example renderTemplate_example :
  renderTemplate (js "# {{title}} ({{ kind | note }}) {{x}}.")
                 {[ js "title" := js "A{{x}}" ]}
  = js "# A{{x}} (note) .".
Proof. vm_compute. reflexivity. Qed.

(** * Properties *)

(** ** Strings and the replace drivers *)

Lemma span_spec p s run after :
  span p s = (run, after) →
  s = run ++ after ∧ forallb p run = true ∧ (∀ c t, after = c :: t → p c = false).
Proof.
  revert run after. induction s as [|c s IH]; intros run after; simpl.
  - intros [= <- <-]. split_and!; [done..|]. by intros.
  - destruct (p c) eqn:Hc.
    + destruct (span p s) as [r a]. intros [= <- <-].
      destruct (IH r a eq_refl) as (-> & Hr & Ha).
      split_and!; [done| by simpl; rewrite Hc | done].
    + intros [= <- <-]. split_and!; [done..|]. by intros ? ? [= <- <-].
Qed.

Lemma span_length p s run after :
  span p s = (run, after) → length s = (length run + length after)%nat.
Proof. intros (-> & _)%span_spec. by rewrite length_app. Qed.

Lemma span_dropWhile p s : (span p s).2 = dropWhile p s.
Proof.
  induction s as [|c s IH]; simpl; [done|].
  destruct (p c); [|done]. by destruct (span p s).
Qed.

Lemma dropWhile_id p s : (∀ c, head s = Some c → p c = false) → dropWhile p s = s.
Proof. destruct s as [|c s]; simpl; [done|]. intros H. by rewrite (H c). Qed.

Lemma dropWhile_suffix p s : ∃ pre, s = pre ++ dropWhile p s.
Proof.
  induction s as [|c s [pre IH]]; simpl.
  - by exists [].
  - destruct (p c).
    + exists (c :: pre). simpl. by f_equal.
    + by exists [].
Qed.

Lemma dropWhile_head p s c : head (dropWhile p s) = Some c → p c = false.
Proof.
  induction s as [|d s IH]; simpl; [done|].
  destruct (p d) eqn:Hd; [done|]. simpl. by intros [= <-].
Qed.

Lemma replaceLoop_fuel m repl :
  progressing m →
  ∀ n n' prev s, (length s < n)%nat → (length s < n')%nat →
    replaceLoop n m repl prev s = replaceLoop n' m repl prev s.
Proof.
  intros Hm. induction n as [|n IH]; intros n' prev s Hn Hn'; [lia|].
  destruct n' as [|n']; [lia|]. simpl.
  destruct (m prev s) as [h|] eqn:Hh.
  - f_equal. pose proof (Hm _ _ _ Hh). apply IH; lia.
  - destruct s as [|c s]; [done|]. f_equal. simpl in *. apply IH; lia.
Qed.

Lemma replaceFrom_hit m repl prev s h :
  progressing m → m prev s = Some h →
  replaceFrom m repl prev s
  = repl h ++ replaceFrom m repl
               (match last (matched h) with Some c => Some c | None => prev end)
               (rest h).
Proof.
  intros Hm Hh. unfold replaceFrom at 1. simpl. rewrite Hh. f_equal.
  pose proof (Hm _ _ _ Hh). apply replaceLoop_fuel; [done|lia..].
Qed.

Lemma replaceFrom_miss m repl prev c s :
  progressing m → m prev (c :: s) = None →
  replaceFrom m repl prev (c :: s) = c :: replaceFrom m repl (Some c) s.
Proof.
  intros Hm Hh. unfold replaceFrom at 1. simpl. by rewrite Hh.
Qed.

Lemma replaceFrom_nil m repl prev :
  m prev [] = None → replaceFrom m repl prev [] = [].
Proof. intros Hh. unfold replaceFrom. simpl. by rewrite Hh. Qed.

Lemma nonAlnumRun_progressing : progressing nonAlnumRun.
Proof.
  intros prev s h. unfold nonAlnumRun.
  destruct (span _ s) as [[|c run] after] eqn:Hs; [done|].
  intros [= <-]. simpl. apply span_length in Hs. simpl in Hs. lia.
Qed.

Lemma edgeHyphens_progressing : progressing edgeHyphens.
Proof.
  intros prev s h. unfold edgeHyphens.
  destruct (span _ s) as [[|c run] after] eqn:Hs; [done|].
  apply span_length in Hs. simpl in Hs.
  destruct prev, after; intros [= <-]; simpl in *; lia.
Qed.

Lemma stripPrefix_Some p s r : stripPrefix p s = Some r ↔ s = p ++ r.
Proof.
  revert s. induction p as [|a p IH]; intros s; simpl.
  - split; [by intros [= ->] | by intros ->].
  - destruct s as [|b s]; [by split|].
    destruct (N.eqb_spec a b) as [->|Hab].
    + rewrite IH. split; [by intros -> | by intros [= ->]].
    + split; [done | intros [= ? ?]; congruence].
Qed.

Lemma stripPrefix_app p r : stripPrefix p (p ++ r) = Some r.
Proof. by apply stripPrefix_Some. Qed.

Lemma VAR_PATTERN_progressing : progressing VAR_PATTERN.
Proof.
  intros prev s h. unfold VAR_PATTERN.
  destruct (stripPrefix _ s) as [s1|] eqn:H1; [|done].
  destruct (span _ s1) as [rawKey s2] eqn:H2.
  destruct rawKey as [|c rawKey]; [done|].
  destruct (stripPrefix _ s2) as [after|] eqn:H3; [|done].
  intros [= <-]. simpl.
  apply stripPrefix_Some in H1 as ->. apply stripPrefix_Some in H3 as ->.
  apply span_length in H2. rewrite length_app, H2, !length_app. simpl. lia.
Qed.

(** ** slugify *)

Lemma isHyphen_true c : isHyphen c = true ↔ c = hyphen.
Proof. unfold isHyphen. apply N.eqb_eq. Qed.

Lemma collapseIn_span s :
  collapseIn true s = collapseIn false (dropWhile (λ c, negb (isAlnum c)) s).
Proof.
  induction s as [|c s IH]; simpl; [done|].
  destruct (isAlnum c) eqn:Hc; simpl; [by rewrite Hc | done].
Qed.

(** The first pass of [slugify] is [collapseIn false]. *)
Lemma replace_nonAlnumRun prev s :
  replaceFrom nonAlnumRun (λ _, [hyphen]) prev s = collapseIn false s.
Proof.
  remember (length s) as n eqn:Hn. revert prev s Hn.
  induction n as [n IH] using lt_wf_ind. intros prev s ->.
  destruct s as [|c s].
  - by apply replaceFrom_nil.
  - destruct (nonAlnumRun prev (c :: s)) as [h|] eqn:Hh.
    + rewrite (replaceFrom_hit _ _ _ _ h nonAlnumRun_progressing Hh).
      pose proof (nonAlnumRun_progressing _ _ _ Hh) as Hlt.
      rewrite (IH _ Hlt _ _ eq_refl).
      unfold nonAlnumRun in Hh. simpl in Hh |- *.
      destruct (isAlnum c) eqn:Hc; simpl in Hh; [done|].
      pose proof (span_dropWhile (λ c, negb (isAlnum c)) s) as Hd.
      destruct (span _ s) as [run after]. injection Hh as <-. simpl in *.
      by rewrite collapseIn_span, Hd.
    + rewrite (replaceFrom_miss _ _ _ _ _ nonAlnumRun_progressing Hh).
      rewrite (IH (length s) (Nat.lt_succ_diag_r _) _ _ eq_refl).
      unfold nonAlnumRun in Hh. simpl in Hh |- *.
      destruct (isAlnum c) eqn:Hc; simpl in Hh; [done|].
      by destruct (span _ s).
Qed.

Lemma span_all p s : forallb p s = true → span p s = (s, []).
Proof.
  induction s as [|c s IH]; simpl; [done|].
  intros [Hc Hs]%andb_prop. by rewrite Hc, IH.
Qed.

Lemma span_not_all p s run after :
  span p s = (run, after) → after ≠ [] → forallb p s = false.
Proof.
  intros (-> & Hrun & Hafter)%span_spec Hne.
  destruct after as [|c t]; [done|].
  apply not_true_is_false. rewrite forallb_app. simpl.
  rewrite (Hafter c t eq_refl). by rewrite andb_false_r.
Qed.

(** After index 0 the second pass of [slugify] is [dropTrail]. *)
Lemma replace_edgeHyphens_inner p s :
  replaceFrom edgeHyphens (λ _, []) (Some p) s = dropTrail s.
Proof.
  revert p. induction s as [|c s IH]; intros p.
  - by apply replaceFrom_nil.
  - destruct (edgeHyphens (Some p) (c :: s)) as [h|] eqn:Hh.
    + rewrite (replaceFrom_hit _ _ _ _ h edgeHyphens_progressing Hh).
      unfold edgeHyphens in Hh. simpl in Hh |- *.
      destruct (isHyphen c) eqn:Hc; simpl in Hh; [|done].
      destruct (span isHyphen s) as [run after] eqn:Hs.
      destruct after as [|d after]; [|done]. injection Hh as <-. simpl.
      apply span_spec in Hs as (-> & Hrun & _). rewrite app_nil_r, Hrun. simpl.
      by apply replaceFrom_nil.
    + rewrite (replaceFrom_miss _ _ _ _ _ edgeHyphens_progressing Hh), IH.
      unfold edgeHyphens in Hh. simpl in Hh |- *.
      destruct (isHyphen c) eqn:Hc; simpl in Hh; [|done].
      destruct (span isHyphen s) as [run after] eqn:Hs.
      destruct after as [|d after]; [done|].
      by rewrite (span_not_all _ _ _ _ Hs).
Qed.

Lemma dropTrail_not_hyphen c s : isHyphen c = false → dropTrail (c :: s) = c :: dropTrail s.
Proof. simpl. by intros ->. Qed.

(** The second pass of [slugify]. *)
Lemma replace_edgeHyphens s :
  replaceAll edgeHyphens (λ _, []) s = dropTrail (dropWhile isHyphen s).
Proof.
  unfold replaceAll. destruct s as [|c s].
  - by apply replaceFrom_nil.
  - destruct (edgeHyphens None (c :: s)) as [h|] eqn:Hh.
    + rewrite (replaceFrom_hit _ _ _ _ h edgeHyphens_progressing Hh).
      unfold edgeHyphens in Hh.
      pose proof (span_dropWhile isHyphen (c :: s)) as Hd.
      destruct (span isHyphen (c :: s)) as [[|r run] after] eqn:Hs; [done|].
      injection Hh as <-. rewrite <- Hd. cbn [matched rest snd app].
      destruct (last (r :: run)) as [l|] eqn:Hl.
      * by rewrite replace_edgeHyphens_inner.
      * by apply last_None in Hl.
    + rewrite (replaceFrom_miss _ _ _ _ _ edgeHyphens_progressing Hh).
      rewrite replace_edgeHyphens_inner.
      unfold edgeHyphens in Hh. simpl in Hh |- *.
      destruct (isHyphen c) eqn:Hc; simpl in Hh; [|by rewrite dropTrail_not_hyphen].
      by destruct (span isHyphen s).
Qed.

Lemma slugify_unfold toLowerCase x :
  slugify toLowerCase x
  = dropTrail (dropWhile isHyphen (collapseIn false (trim (toLowerCase x)))).
Proof.
  unfold slugify. rewrite replace_edgeHyphens.
  unfold replaceAll. by rewrite replace_nonAlnumRun.
Qed.

Lemma slugChar_cases c : slugChar c = true → isAlnum c = true ∨ c = hyphen.
Proof. unfold slugChar. intros [?|?%isHyphen_true]%orb_prop; auto. Qed.

(** Facts about character classes are comparisons of code units. *)
Ltac charclass :=
  unfold slugChar, isAlnum, isLower, isDigit, isHyphen, isSpace, isLineTerminator,
    inRange, hyphen, underscore, slash, pipe, lbrace, rbrace, newline in *;
  repeat match goal with
         | H : _ = false |- _ => apply not_true_iff_false in H
         | |- _ = false => apply not_true_iff_false; intros ?
         | H : negb _ = true |- _ => apply negb_true_iff in H
         end;
  repeat (rewrite ?orb_true_iff, ?andb_true_iff, ?negb_true_iff,
            ?N.leb_le, ?N.eqb_eq in * );
  try lia.

Lemma slugChar_not_space c : slugChar c = true → isSpace c = false.
Proof. intros H. charclass. Qed.

Lemma hyphen_not_alnum : isAlnum hyphen = false.
Proof. reflexivity. Qed.

Lemma collapseIn_slugChar b s : Forall (λ c, slugChar c = true) (collapseIn b s).
Proof.
  revert b. induction s as [|c s IH]; intros b; simpl; [constructor|].
  destruct (isAlnum c) eqn:Hc.
  - constructor; [|done]. unfold slugChar. by rewrite Hc.
  - destruct b; [done|]. by constructor.
Qed.

(** A run that is already open does not start with a hyphen. *)
Lemma collapseIn_open_head s : head (collapseIn true s) ≠ Some hyphen.
Proof.
  induction s as [|c s IH]; simpl; [done|].
  destruct (isAlnum c) eqn:Hc; [|done]. simpl. intros [= ->].
  by rewrite hyphen_not_alnum in Hc.
Qed.

Lemma collapseIn_single b s l1 l2 : collapseIn b s ≠ l1 ++ [hyphen; hyphen] ++ l2.
Proof.
  revert b l1. induction s as [|c s IH]; intros b l1; simpl.
  - by destruct l1.
  - destruct (isAlnum c) eqn:Hc.
    + destruct l1 as [|d l1]; simpl.
      * intros [= -> _]. by rewrite hyphen_not_alnum in Hc.
      * intros [= _ H]. by eapply IH.
    + destruct b; [by apply IH|].
      destruct l1 as [|d l1]; simpl.
      * intros [= H]. apply (collapseIn_open_head s). by rewrite H.
      * intros [= _ H]. by eapply IH.
Qed.

Lemma dropTrail_prefix s : ∃ post, s = dropTrail s ++ post.
Proof.
  induction s as [|c s [post IH]]; simpl.
  - by exists [].
  - destruct (isHyphen c && forallb isHyphen s).
    + by exists (c :: s).
    + exists post. simpl. by f_equal.
Qed.

Lemma dropTrail_nil s : dropTrail s = [] → forallb isHyphen s = true.
Proof.
  destruct s as [|c s]; simpl; [done|].
  by destruct (isHyphen c && forallb isHyphen s) eqn:H.
Qed.

Lemma dropTrail_last s : last (dropTrail s) ≠ Some hyphen.
Proof.
  induction s as [|c s IH]; simpl; [done|].
  destruct (isHyphen c && forallb isHyphen s) eqn:H; [done|].
  destruct (dropTrail s) as [|d t] eqn:Ht.
  - simpl. intros [= ->]. apply dropTrail_nil in Ht. by rewrite Ht in H.
  - done.
Qed.

Lemma dropTrail_head s c : head (dropTrail s) = Some c → head s = Some c.
Proof.
  destruct s as [|d s]; simpl; [done|].
  by destruct (isHyphen d && forallb isHyphen s).
Qed.

Lemma forallb_hyphen_last s c : forallb isHyphen s = true → last s = Some c → c = hyphen.
Proof.
  induction s as [|d [|e s] IH]; simpl; [done| |].
  - rewrite andb_true_r. by intros ?%isHyphen_true [= <-].
  - intros [_ H]%andb_prop. by apply IH.
Qed.

Lemma dropTrail_id s : last s ≠ Some hyphen → dropTrail s = s.
Proof.
  induction s as [|c s IH]; [done|]. intros Hl.
  simpl. destruct (isHyphen c && forallb isHyphen s) eqn:H.
  - exfalso. destruct (last (c :: s)) as [l|] eqn:Hlast.
    + apply Hl. f_equal. by eapply (forallb_hyphen_last (c :: s)).
    + by apply last_None in Hlast.
  - f_equal. destruct s as [|d s]; [done|]. by apply IH.
Qed.

Lemma collapseIn_id s :
  Forall (λ c, slugChar c = true) s →
  (∀ l1 l2, s ≠ l1 ++ [hyphen; hyphen] ++ l2) →
  collapseIn false s = s.
Proof.
  induction s as [|c s IH]; [done|].
  intros [Hc Hs]%Forall_cons Hsingle. simpl.
  assert (collapseIn false s = s) as IH'.
  { apply IH; [done|]. intros l1 l2 ->. by apply (Hsingle (c :: l1) l2). }
  destruct (slugChar_cases _ Hc) as [Ha| ->].
  - by rewrite Ha, IH'.
  - rewrite hyphen_not_alnum. f_equal.
    destruct s as [|d s]; [done|]. simpl.
    apply Forall_cons in Hs as [Hd _].
    destruct (slugChar_cases _ Hd) as [Ha| ->].
    + rewrite Ha. simpl in IH'. rewrite Ha in IH'. done.
    + exfalso. by apply (Hsingle [] s).
Qed.

Lemma trim_id s :
  (∀ c, head s = Some c → isSpace c = false) →
  (∀ c, last s = Some c → isSpace c = false) →
  trim s = s.
Proof.
  intros Hh Hl. unfold trim. rewrite (dropWhile_id _ s Hh).
  rewrite dropWhile_id; [by rewrite reverse_involutive|].
  intros c Hc. apply Hl. by rewrite <- head_reverse.
Qed.

Section SlugifyProperties.

Variable toLowerCase : jsstring → jsstring.

(** Lower-casing leaves a string of lower-case letters, digits and hyphens
    as it is. *)
Hypothesis toLowerCase_slug :
  ∀ s, Forall (λ c, slugChar c = true) s → toLowerCase s = s.

(** C8. [slugify] is idempotent, and its output consists of lower-case
    ASCII letters, digits and hyphens only, never has two hyphens in a row,
    and neither starts nor ends with a hyphen. *)
Theorem slugify_idempotent_and_clean (x : jsstring) :
  let y := slugify toLowerCase x in
  slugify toLowerCase y = y
  ∧ Forall (λ c, isLower c = true ∨ isDigit c = true ∨ c = hyphen) y
  ∧ (∀ l1 l2, y ≠ l1 ++ [hyphen; hyphen] ++ l2)
  ∧ head y ≠ Some hyphen
  ∧ last y ≠ Some hyphen.
Proof.
  intros y. subst y. rewrite (slugify_unfold toLowerCase x).
  set (a := collapseIn false (trim (toLowerCase x))).
  set (y := dropTrail (dropWhile isHyphen a)).
  destruct (dropWhile_suffix isHyphen a) as [pre Hpre].
  destruct (dropTrail_prefix (dropWhile isHyphen a)) as [post Hpost].
  fold y in Hpost.
  assert (Forall (λ c, slugChar c = true) y) as Hchars.
  { pose proof (collapseIn_slugChar false (trim (toLowerCase x))) as Ha.
    fold a in Ha. rewrite Hpre, Hpost in Ha.
    by apply Forall_app in Ha as [_ [? _]%Forall_app]. }
  assert (∀ l1 l2, y ≠ l1 ++ [hyphen; hyphen] ++ l2) as Hsingle.
  { intros l1 l2 Hy.
    apply (collapseIn_single false (trim (toLowerCase x)) (pre ++ l1) (l2 ++ post)).
    fold a. rewrite Hpre, Hpost, Hy. by rewrite <- !app_assoc. }
  assert (head y ≠ Some hyphen) as Hhead.
  { intros Hy. apply dropTrail_head, dropWhile_head in Hy. done. }
  assert (last y ≠ Some hyphen) as Hlast by apply dropTrail_last.
  split_and!; try done.
  - rewrite slugify_unfold, (toLowerCase_slug y Hchars).
    rewrite trim_id, (collapseIn_id y Hchars Hsingle).
    + rewrite dropWhile_id; [by apply dropTrail_id|].
      intros c Hc. apply not_true_is_false. intros ->%isHyphen_true. done.
    + intros c Hc. apply slugChar_not_space.
      destruct y as [|d y']; [done|]. injection Hc as ->.
      by apply Forall_cons in Hchars as [? _].
    + intros c Hc. apply slugChar_not_space.
      apply last_Some in Hc as [l' Hc]. rewrite Hc in Hchars.
      by apply Forall_app in Hchars as [_ [? _]%Forall_cons].
  - eapply Forall_impl; [exact Hchars|]. intros c Hc. simpl.
    destruct (slugChar_cases _ Hc) as [Ha| ->]; [|auto].
    unfold isAlnum in Ha. apply orb_prop in Ha as [?|?]; auto.
Qed.

End SlugifyProperties.

Lemma asciiLower_slug s : Forall (λ c, slugChar c = true) s → asciiLower s = s.
Proof.
  induction 1 as [|c s Hc _ IH]; [done|].
  unfold asciiLower in *. rewrite fmap_cons, IH. f_equal.
  destruct (inRange 65 90 c) eqn:Hr; [|done]. exfalso. charclass.
Qed.

Lemma slugify_idempotent_and_clean_witness :
  let y := slugify asciiLower (js "  My Website -- v2! ") in
  slugify asciiLower y = y
  ∧ Forall (λ c, isLower c = true ∨ isDigit c = true ∨ c = hyphen) y
  ∧ (∀ l1 l2, y ≠ l1 ++ [hyphen; hyphen] ++ l2)
  ∧ head y ≠ Some hyphen
  ∧ last y ≠ Some hyphen.
Proof.
  exact (slugify_idempotent_and_clean asciiLower asciiLower_slug
           (js "  My Website -- v2! ")).
Defined.

(** ** renderTemplate *)

Lemma replaceLoop_prev m repl :
  (∀ p1 p2 s, m p1 s = m p2 s) →
  ∀ n p1 p2 s, replaceLoop n m repl p1 s = replaceLoop n m repl p2 s.
Proof.
  intros Hm. induction n as [|n IH]; intros p1 p2 s; simpl; [done|].
  rewrite (Hm p1 p2 s). destruct (m p2 s) as [h|].
  - f_equal. apply IH.
  - destruct s; [done|]. done.
Qed.

Lemma span_app p run after :
  forallb p run = true → (∀ c t, after = c :: t → p c = false) →
  span p (run ++ after) = (run, after).
Proof.
  intros Hrun Hafter. induction run as [|c run IH]; simpl in *.
  - destruct after as [|c t]; [done|]. simpl. by rewrite (Hafter c t eq_refl).
  - apply andb_prop in Hrun as [-> Hrun]. by rewrite (IH Hrun).
Qed.

Lemma notin_forallb (a : jschar) s : a ∉ s → forallb (λ c, negb (c =? a)) s = true.
Proof.
  induction s as [|c s IH]; simpl; [done|].
  intros [Hc Hs]%not_elem_of_cons. rewrite (IH Hs), andb_true_r.
  apply negb_true_iff, N.eqb_neq. congruence.
Qed.

(** A well-formed token matches where it stands. *)
Lemma VAR_PATTERN_token prev rawKey post :
  rawKey ≠ [] → rbrace ∉ rawKey →
  VAR_PATTERN prev (js "{{" ++ rawKey ++ js "}}" ++ post)
  = Some (Hit (js "{{" ++ rawKey ++ js "}}") rawKey post).
Proof.
  intros Hne Hraw. unfold VAR_PATTERN. rewrite stripPrefix_app.
  rewrite (span_app _ rawKey (js "}}" ++ post)).
  - destruct rawKey; [done|]. by rewrite stripPrefix_app.
  - by apply notin_forallb.
  - by intros c t [= <- _].
Qed.

(** Literal text is skipped one code unit at a time. *)
Lemma VAR_PATTERN_literal prev c pre tail :
  literal (c :: pre) = true → VAR_PATTERN prev (c :: pre ++ tail) = None.
Proof.
  unfold VAR_PATTERN. change (js "{{") with [lbrace; lbrace].
  cbn [stripPrefix literal].
  destruct (N.eqb_spec lbrace c) as [<-|Hc]; [|done].
  destruct pre as [|d pre]; [done|]. cbn [app].
  destruct (N.eqb_spec lbrace d) as [<-|Hd]; [|done]. done.
Qed.

Lemma literal_tail c pre : literal (c :: pre) = true → literal pre = true.
Proof. destruct pre as [|d pre]; [done|]. simpl. by intros [_ ?]%andb_prop. Qed.

Section Render.

Variable vars : gmap jsstring jsstring.

Lemma renderTemplate_from prev s :
  replaceFrom VAR_PATTERN (λ h, substitute vars (group1 h)) prev s
  = renderTemplate s vars.
Proof. unfold renderTemplate, replaceAll, replaceFrom. by apply replaceLoop_prev. Qed.

Lemma renderTemplate_nil : renderTemplate [] vars = [].
Proof. reflexivity. Qed.

(** One token: the callback's result is put in its place, and rendering
    goes on behind the token. *)
Lemma renderTemplate_token rawKey post :
  rawKey ≠ [] → rbrace ∉ rawKey →
  renderTemplate (js "{{" ++ rawKey ++ js "}}" ++ post) vars
  = substitute vars rawKey ++ renderTemplate post vars.
Proof.
  intros Hne Hraw. unfold renderTemplate at 1, replaceAll.
  rewrite (replaceFrom_hit _ _ _ _ _ VAR_PATTERN_progressing
             (VAR_PATTERN_token None rawKey post Hne Hraw)).
  cbn [group1 rest]. by rewrite renderTemplate_from.
Qed.

Lemma renderTemplate_literal pre tail :
  literal pre = true →
  renderTemplate (pre ++ tail) vars = pre ++ renderTemplate tail vars.
Proof.
  induction pre as [|c pre IH]; intros Hlit; [done|].
  unfold renderTemplate at 1, replaceAll. rewrite <- app_comm_cons.
  rewrite (replaceFrom_miss _ _ _ _ _ VAR_PATTERN_progressing
             (VAR_PATTERN_literal None c pre tail Hlit)).
  rewrite renderTemplate_from, IH; [done|]. by eapply literal_tail.
Qed.

End Render.

Lemma split_no_sep sep s : sep ∉ s → split sep s = [s].
Proof.
  induction s as [|c s IH]; simpl; [done|].
  intros [Hc Hs]%not_elem_of_cons.
  destruct (N.eqb_spec c sep) as [->|_]; [done|]. by rewrite (IH Hs).
Qed.

Lemma split_at_sep sep k d : sep ∉ k → split sep (k ++ sep :: d) = k :: split sep d.
Proof.
  induction k as [|c k IH]; simpl.
  - by rewrite N.eqb_refl.
  - intros [Hc Hk]%not_elem_of_cons.
    destruct (N.eqb_spec c sep) as [->|_]; [done|]. by rewrite (IH Hk).
Qed.

(** The callback on [key] and on [key|default]. *)
Lemma substitute_key vars key :
  pipe ∉ key →
  substitute vars key = default [] (property vars (trim key)).
Proof.
  intros Hk. unfold substitute. rewrite (split_no_sep _ _ Hk). simpl.
  by destruct (property vars (trim key)).
Qed.

Lemma substitute_key_default vars key d :
  pipe ∉ key → pipe ∉ d →
  substitute vars (key ++ [pipe] ++ d) = default (trim d) (property vars (trim key)).
Proof.
  intros Hk Hd. unfold substitute. simpl app.
  rewrite (split_at_sep _ _ _ Hk), (split_no_sep _ _ Hd). simpl.
  by destruct (property vars (trim key)).
Qed.

(** An own property hides what the prototype has under the same name. *)
Lemma property_own vars key value : vars !! key = Some value → property vars key = Some value.
Proof. unfold property. by intros ->. Qed.

(** Away from the names of [Object.prototype], [vars[key]] is the lookup in
    the mapping. *)
Lemma property_plain vars key : inherited key = None → property vars key = vars !! key.
Proof. unfold property. intros ->. by destruct (vars !! key). Qed.

(** The names [Object.prototype] has a member under. *)
Lemma inherited_Some key :
  is_Some (inherited key) ↔ key ∈ objectPrototype.*1.
Proof.
  unfold inherited. rewrite fmap_is_Some. split.
  - intros [[k member] Hfind]. apply find_some in Hfind as [Hin Hk].
    apply bool_decide_eq_true in Hk. simpl in Hk. subst k.
    apply list_elem_of_fmap. exists (key, member). split; [done|].
    by apply list_elem_of_In.
  - intros ([k member] & -> & Hin)%list_elem_of_fmap.
    destruct (List.find _ objectPrototype) as [found|] eqn:Hfind; [by eexists|].
    apply list_elem_of_In in Hin.
    apply (find_none _ _ Hfind) in Hin. simpl in Hin.
    by rewrite bool_decide_eq_false in Hin.
Qed.

(** Side conditions on concrete strings are decided by evaluation. *)
Ltac evaluated := first [ reflexivity | apply (bool_decide_unpack _); vm_compute; exact I ].

(** C2, as the code has it.  Every token [{{key}}] or [{{key|default}}]
    (key and default with the blanks around them trimmed) whose key is not
    the name of a member of [Object.prototype] is replaced by the mapping's
    value for [key] whenever [key] is present, also when that value is the
    empty string; by [default] when [key] is absent; by the empty string
    when [key] is absent and there is no default.  The text before the token
    is kept and the text behind it is rendered the same way. *)
Theorem renderTemplate_replaces_each_token
    (vars : gmap jsstring jsstring) (pre key post : jsstring) :
  literal pre = true → rbrace ∉ key → pipe ∉ key →
  inherited (trim key) = None →
  (key ≠ [] →
   renderTemplate (pre ++ js "{{" ++ key ++ js "}}" ++ post) vars
   = pre ++ match vars !! trim key with
            | Some value => value
            | None => []
            end ++ renderTemplate post vars)
  ∧ (∀ def, rbrace ∉ def → pipe ∉ def →
     renderTemplate (pre ++ js "{{" ++ (key ++ [pipe] ++ def) ++ js "}}" ++ post) vars
     = pre ++ match vars !! trim key with
              | Some value => value
              | None => trim def
              end ++ renderTemplate post vars).
Proof.
  intros Hpre Hkey Hpipe Hplain. split.
  - intros Hne. rewrite renderTemplate_literal, renderTemplate_token by done.
    rewrite substitute_key, property_plain by done. by destruct (vars !! trim key).
  - intros def Hdef Hdpipe.
    rewrite renderTemplate_literal, renderTemplate_token.
    + rewrite substitute_key_default, property_plain by done.
      by destruct (vars !! trim key).
    + by destruct key.
    + rewrite !not_elem_of_app. split_and!; [done| |done].
      by intros [= ]%list_elem_of_singleton.
    + done.
Qed.

Lemma renderTemplate_replaces_each_token_witness :
  (js "title" ≠ [] →
   renderTemplate (js "# " ++ js "{{" ++ js "title" ++ js "}}" ++ js " {{x}}")
                  {[ js "title" := js "Notes" ]}
   = js "# " ++ js "Notes" ++ renderTemplate (js " {{x}}") {[ js "title" := js "Notes" ]})
  ∧ (∀ def, rbrace ∉ def → pipe ∉ def →
     renderTemplate (js "# " ++ js "{{" ++ (js "title" ++ [pipe] ++ def) ++ js "}}"
                     ++ js " {{x}}")
                    {[ js "title" := js "Notes" ]}
     = js "# " ++ js "Notes" ++ renderTemplate (js " {{x}}") {[ js "title" := js "Notes" ]}).
Proof.
  assert (literal (js "# ") = true ∧ (rbrace ∉ js "title") ∧ (pipe ∉ js "title")
          ∧ inherited (trim (js "title")) = None)
    as (Hpre & Hkey & Hpipe & Hplain) by (split_and!; evaluated).
  generalize (renderTemplate_replaces_each_token
                {[ js "title" := js "Notes" ]} (js "# ") (js "title") (js " {{x}}")
                Hpre Hkey Hpipe Hplain).
  rewrite (eq_refl : trim (js "title") = js "title"), lookup_singleton_eq.
  exact (λ H, H).
Defined.

(** C2 as stated fails: a key that is present with the empty string as its
    value renders as the empty string, not as the default. *)
Lemma renderTemplate_empty_value_is_not_defaulted :
  renderTemplate (js "Hi {{name|World}}") {[ js "name" := [] ]} = js "Hi "
  ∧ renderTemplate (js "Hi {{name|World}}") {[ js "name" := [] ]} ≠ js "Hi World".
Proof. split; [by vm_compute | by vm_compute]. Qed.

(** C3, the code at a failing input.  The mapping is empty, so the key
    [constructor] is absent from it; yet [{{constructor|fallback}}] does not
    render as the fallback: [vars[key]] finds the member every object
    inherits from [Object.prototype], which is not nullish, and its text is
    what the token becomes.  The same happens for each of the other names
    of [objectPrototype], here [toString] in the middle of a line. *)
Theorem renderTemplate_inherited_member_beats_fallback :
  let vars : gmap jsstring jsstring := ∅ in
  vars !! js "constructor" = None
  ∧ renderTemplate (js "{{constructor|fallback}}") vars
    = js "function Object() { [native code] }"
  ∧ renderTemplate (js "{{constructor|fallback}}") vars ≠ js "fallback"
  ∧ renderTemplate (js "# {{ toString | Untitled }}!") {[ js "title" := js "Notes" ]}
    = js "# function toString() { [native code] }!".
Proof. split_and!; [done|by vm_compute|by vm_compute|by vm_compute]. Qed.

(** What C3 says holds for every key that is not the name of a member of
    [Object.prototype]: the token renders as the fallback when the key is
    absent from the mapping, and as the mapping's value whenever the key is
    present; a present empty string wins over the fallback.  A present key
    wins whatever its name is. *)
Theorem renderTemplate_fallback_only_when_absent
    (vars : gmap jsstring jsstring) (pre missing fallback post : jsstring) :
  literal pre = true →
  rbrace ∉ missing → pipe ∉ missing → rbrace ∉ fallback → pipe ∉ fallback →
  let rendered :=
    renderTemplate (pre ++ js "{{" ++ (missing ++ [pipe] ++ fallback) ++ js "}}" ++ post)
                   vars in
  (vars !! trim missing = None → inherited (trim missing) = None →
   rendered = pre ++ trim fallback ++ renderTemplate post vars)
  ∧ (∀ value, vars !! trim missing = Some value →
     rendered = pre ++ value ++ renderTemplate post vars)
  ∧ (vars !! trim missing = Some [] →
     rendered = pre ++ renderTemplate post vars).
Proof.
  intros Hpre Hkey Hpipe Hdef Hdpipe rendered. subst rendered.
  rewrite renderTemplate_literal, renderTemplate_token; [|by destruct missing| |done].
  - rewrite substitute_key_default by done.
    split_and!.
    + intros Hnone Hplain. by rewrite property_plain, Hnone.
    + intros value Hval. by rewrite (property_own _ _ _ Hval).
    + intros Hval. by rewrite (property_own _ _ _ Hval).
  - rewrite !not_elem_of_app. split_and!; [done| |done].
    by intros [= ]%list_elem_of_singleton.
Qed.

Lemma renderTemplate_fallback_only_when_absent_witness :
  let vars : gmap jsstring jsstring := {[ js "kind" := [] ]} in
  let rendered :=
    renderTemplate (js "a " ++ js "{{" ++ (js "kind" ++ [pipe] ++ js "note") ++ js "}}"
                    ++ js " b") vars in
  (vars !! trim (js "kind") = None → inherited (trim (js "kind")) = None →
   rendered = js "a " ++ trim (js "note") ++ renderTemplate (js " b") vars)
  ∧ (∀ value, vars !! trim (js "kind") = Some value →
     rendered = js "a " ++ value ++ renderTemplate (js " b") vars)
  ∧ (vars !! trim (js "kind") = Some [] →
     rendered = js "a " ++ renderTemplate (js " b") vars).
Proof.
  apply (renderTemplate_fallback_only_when_absent
           {[ js "kind" := [] ]} (js "a ") (js "kind") (js "note") (js " b"));
    evaluated.
Defined.

(** The key the callback looks up: the text before the first [|], trimmed. *)
Lemma substitute_present vars rawKey value :
  vars !! trim (default [] (head (split pipe rawKey))) = Some value →
  substitute vars rawKey = value.
Proof.
  unfold substitute. rewrite list_lookup_fmap, <- head_lookup.
  destruct (head (split pipe rawKey)); simpl; [by intros ->%property_own|].
  change (trim []) with (@nil N). by intros ->%property_own.
Qed.

(** C10.  Rendering is one pass: the value of a variable is copied into the
    output as it is, whatever it contains, and the scan goes on behind the
    token; text shaped like a placeholder inside the value is not expanded. *)
Theorem renderTemplate_single_pass
    (vars : gmap jsstring jsstring) (pre rawKey post value : jsstring) :
  literal pre = true → rawKey ≠ [] → rbrace ∉ rawKey →
  vars !! trim (default [] (head (split pipe rawKey))) = Some value →
  renderTemplate (pre ++ js "{{" ++ rawKey ++ js "}}" ++ post) vars
  = pre ++ value ++ renderTemplate post vars.
Proof.
  intros Hpre Hne Hraw Hval.
  rewrite renderTemplate_literal, renderTemplate_token by done.
  by rewrite (substitute_present _ _ _ Hval).
Qed.

Lemma renderTemplate_single_pass_witness :
  renderTemplate (js "# " ++ js "{{" ++ js "title" ++ js "}}" ++ js " ({{date}})")
                 {[ js "title" := js "{{date}} {{cursor}}"; js "date" := js "2025-01-01" ]}
  = js "# " ++ js "{{date}} {{cursor}}"
    ++ renderTemplate (js " ({{date}})")
         {[ js "title" := js "{{date}} {{cursor}}"; js "date" := js "2025-01-01" ]}.
Proof.
  apply (renderTemplate_single_pass
           {[ js "title" := js "{{date}} {{cursor}}"; js "date" := js "2025-01-01" ]}
           (js "# ") (js "title") (js " ({{date}})") (js "{{date}} {{cursor}}"));
    evaluated.
Defined.

(** ** generateUniquePrefix *)

Lemma bind_Return {A B} (m : M A) (k : A → M B) fs b fs' :
  bind m k fs = Return b fs' → ∃ a fs1, m fs = Return a fs1 ∧ k a fs1 = Return b fs'.
Proof. unfold bind. destruct (m fs) as [a fs1| |]; [eauto|done..]. Qed.

Lemma existsSync_false fs p : existsSync fs p = false → stat fs p = None.
Proof.
  unfold existsSync. intros H%bool_decide_eq_false.
  destruct (stat fs p); [|done]. exfalso. eauto.
Qed.

Lemma existsSync_true fs p : existsSync fs p = true ↔ is_Some (stat fs p).
Proof. unfold existsSync. by rewrite bool_decide_eq_true. Qed.

Lemma readdirSync_Some fs p names : readdirSync fs p = Some names → stat fs p = Some Dir.
Proof. unfold readdirSync. by destruct (stat fs p) as [[]|]. Qed.

Lemma readdirSync_Dir fs p : stat fs p = Some Dir → readdirSync fs p = Some (listing fs p).
Proof. unfold listing, readdirSync. by intros ->. Qed.

Lemma listing_absent fs p : stat fs p = None → listing fs p = [].
Proof. unfold listing, readdirSync. by intros ->. Qed.

(** The guarded scan of one root: [if (existsSync(dir)) { readdirSync(dir) ... }]. *)
Lemma scan_root {A B} fs dir (f : list jsstring → A) (a : A) (k : A → M B) :
  notFile fs dir → f [] = a →
  (let* present := ask (λ fs, existsSync fs dir) in
   let* scanned :=
     if present then
       let* dirs := attempt (λ fs, readdirSync fs dir) in ret (f dirs)
     else ret a in
   k scanned) fs
  = k (f (listing fs dir)) fs.
Proof.
  intros Hdir Hf. unfold bind, ask, attempt, ret.
  destruct (existsSync fs dir) eqn:He.
  - apply existsSync_true in He as [[text|] He]; [by destruct (Hdir text)|].
    by rewrite (readdirSync_Dir _ _ He).
  - apply existsSync_false in He. by rewrite (listing_absent _ _ He), Hf.
Qed.

Lemma generateUniquePrefix_scan config rnd fs :
  notFile fs (join [vaultPath config; projectsRoot config]) →
  notFile fs (join [vaultPath config; areasRoot config]) →
  generateUniquePrefix config rnd fs
  = sampled (sample2 (scannedPrefixes config fs) rnd) fs.
Proof.
  intros Hp Ha. unfold generateUniquePrefix.
  etrans; [by apply (scan_root fs _ (addPrefixes ∅) ∅)|]. cbv beta.
  etrans; [by apply (scan_root fs _ (addPrefixes _))|]. done.
Qed.

Lemma sample2_Some existing rnd prefix :
  sample2 existing rnd = Some prefix →
  (prefix ∉ existing) ∧ (∃ i j, prefix = [letter i; letter j]).
Proof.
  remember (length rnd) as n eqn:Hn. revert rnd Hn.
  induction n as [n IH] using lt_wf_ind. intros rnd ->.
  destruct rnd as [|i [|j rnd]]; [done..|]. simpl.
  destruct (decide ([letter i; letter j] ∈ existing)) as [Hin|Hout].
  - apply (IH (length rnd)); [simpl; lia|done].
  - intros [= <-]. eauto.
Qed.

(** As long as the rounds collide the loop goes on; the first free
    combination is returned. *)
Lemma sample2_rounds existing rounds rnd :
  Forall (λ round, [letter round.1; letter round.2] ∈ existing) rounds →
  sample2 existing (draws rounds ++ rnd) = sample2 existing rnd.
Proof.
  induction 1 as [|[i j] rounds Hin _ IH]; [done|]. simpl in *.
  by rewrite decide_True.
Qed.

Lemma sample2_saturated existing rnd :
  (∀ i j, [letter i; letter j] ∈ existing) → sample2 existing rnd = None.
Proof.
  intros Hall. remember (length rnd) as n eqn:Hn. revert rnd Hn.
  induction n as [n IH] using lt_wf_ind. intros rnd ->.
  destruct rnd as [|i [|j rnd]]; [done..|]. simpl.
  rewrite decide_True by done. apply (IH (length rnd)); [simpl; lia|done].
Qed.

Lemma elem_of_addPrefixes existing dirs x :
  x ∈ addPrefixes existing dirs
  ↔ x ∈ existing ∨ ∃ dir, dir ∈ dirs ∧ includes dir underscore = true ∧ x = substring0 2 dir.
Proof.
  unfold addPrefixes. revert existing.
  induction dirs as [|d dirs IH]; intros existing; simpl.
  - split; [auto|]. intros [?|(dir & ?%elem_of_nil & _)]; done.
  - rewrite IH. destruct (includes d underscore) eqn:Hd.
    + rewrite elem_of_union, elem_of_singleton. split.
      * intros [[->|?]|(dir & ? & ? & ?)]; [right; exists d|by left|right; exists dir];
          split_and!; try done; by constructor.
      * intros [?|(dir & [->|?]%elem_of_cons & ? & ->)];
          [by left; right|by left; left|right; by exists dir].
    + split.
      * intros [?|(dir & ? & ? & ?)]; [by left|right; exists dir].
        split_and!; try done. by constructor.
      * intros [?|(dir & [->|?]%elem_of_cons & ? & ->)];
          [by left|congruence|right; by exists dir].
Qed.

Lemma includes_true s c : includes s c = true ↔ c ∈ s.
Proof.
  unfold includes. rewrite existsb_exists. split.
  - intros (x & Hx & ->%N.eqb_eq). by apply list_elem_of_In.
  - intros Hc. exists c. split; [by apply list_elem_of_In | apply N.eqb_refl].
Qed.

(** A name whose prefix has two code units starts with them. *)
Lemma prefixOf_two name a b :
  prefixOf name = Some [a; b] →
  includes name underscore = true ∧ substring0 2 name = [a; b].
Proof.
  unfold prefixOf. destruct (includes name underscore) eqn:Hi; [|done].
  destruct (span _ name) as [run after] eqn:Hs. simpl. intros [= ->].
  apply span_spec in Hs as (-> & _ & _). done.
Qed.

Lemma generateUniquePrefix_Return config rnd fs prefix fs' :
  generateUniquePrefix config rnd fs = Return prefix fs' →
  notFile fs (join [vaultPath config; projectsRoot config])
  ∧ notFile fs (join [vaultPath config; areasRoot config]).
Proof.
  unfold generateUniquePrefix, bind, ask, attempt, ret, notFile, readdirSync.
  destruct (existsSync fs (join [vaultPath config; projectsRoot config])) eqn:Hp.
  - destruct (stat fs (join [vaultPath config; projectsRoot config])) as [[?|]|]; [done| |done].
    destruct (existsSync fs (join [vaultPath config; areasRoot config])) eqn:Ha.
    + destruct (stat fs (join [vaultPath config; areasRoot config])) as [[?|]|]; done.
    + by rewrite (existsSync_false _ _ Ha).
  - rewrite (existsSync_false _ _ Hp).
    destruct (existsSync fs (join [vaultPath config; areasRoot config])) eqn:Ha.
    + destruct (stat fs (join [vaultPath config; areasRoot config])) as [[?|]|]; done.
    + by rewrite (existsSync_false _ _ Ha).
Qed.

Lemma listing_Some fs dir names : readdirSync fs dir = Some names → listing fs dir = names.
Proof. unfold listing. by intros ->. Qed.

Lemma letter_lower i : isLower (letter i) = true.
Proof. revert i. apply (bool_decide_unpack _). by vm_compute. Qed.

(** C4.  Whenever [generateUniquePrefix] returns, what it returns is two
    lower-case letters, and it is not the prefix (the part before the first
    underscore) of any name listed in the projects root or in the areas
    root at the time of the scan; the vault is left as it was. *)
Theorem generateUniquePrefix_unique
    (config : Config) (rnd : list (fin 26)) (fs fs' : vault) (prefix : jsstring) :
  generateUniquePrefix config rnd fs = Return prefix fs' →
  fs' = fs
  ∧ length prefix = 2%nat ∧ Forall (λ c, isLower c = true) prefix
  ∧ ∀ root names name,
      root = projectsRoot config ∨ root = areasRoot config →
      readdirSync fs (join [vaultPath config; root]) = Some names →
      name ∈ names →
      prefixOf name ≠ Some prefix.
Proof.
  intros Hret. destruct (generateUniquePrefix_Return _ _ _ _ _ Hret) as [Hp Ha].
  rewrite (generateUniquePrefix_scan _ _ _ Hp Ha) in Hret. unfold sampled in Hret.
  destruct (sample2 _ rnd) as [sample|] eqn:Hs; [|done]. injection Hret as -> ->.
  apply sample2_Some in Hs as (Hfree & i & j & ->).
  split_and!; [done|done|by repeat constructor; apply letter_lower|].
  intros root names name Hroot Hnames Hname Hprefix. apply Hfree.
  apply prefixOf_two in Hprefix as [Hincl Htake].
  apply listing_Some in Hnames. unfold scannedPrefixes.
  destruct Hroot as [-> | ->]; rewrite !elem_of_addPrefixes.
  - left. right. exists name. by rewrite Hnames.
  - right. exists name. by rewrite Hnames.
Qed.

Lemma generateUniquePrefix_unique_witness :
  demoVault = demoVault
  ∧ length (js "fg") = 2%nat ∧ Forall (λ c, isLower c = true) (js "fg")
  ∧ ∀ root names name,
      root = projectsRoot demoConfig ∨ root = areasRoot demoConfig →
      readdirSync demoVault (join [vaultPath demoConfig; root]) = Some names →
      name ∈ names →
      prefixOf name ≠ Some (js "fg").
Proof.
  apply (generateUniquePrefix_unique demoConfig
           [draw 0; draw 1; draw 2; draw 3; draw 5; draw 6] demoVault demoVault (js "fg")).
  rewrite generateUniquePrefix_scan by (intros text Hstat; by vm_compute in Hstat).
  assert (sample2 (scannedPrefixes demoConfig demoVault)
            [draw 0; draw 1; draw 2; draw 3; draw 5; draw 6] = Some (js "fg")) as ->
    by (vm_compute; reflexivity).
  reflexivity.
Defined.

Lemma saturated_spec existing :
  saturated existing = true → ∀ i j, [letter i; letter j] ∈ existing.
Proof.
  unfold saturated. rewrite forallb_forall. intros Hall i j.
  eapply bool_decide_eq_true_1, Hall, list_elem_of_In.
  unfold allCombinations. apply list_elem_of_bind. exists i.
  split; [|apply elem_of_enum]. apply list_elem_of_bind. exists j.
  split; [by apply list_elem_of_singleton|apply elem_of_enum].
Qed.

(** C5 as stated fails: with a folder for each of the 676 combinations no
    supply of draws makes [generateUniquePrefix] return. *)
Lemma generateUniquePrefix_spins_when_saturated :
  ¬ ∃ rnd prefix fs', generateUniquePrefix demoConfig rnd saturatedVault = Return prefix fs'.
Proof.
  intros (rnd & prefix & fs' & Hret).
  rewrite generateUniquePrefix_scan in Hret
    by (intros text Hstat; by vm_compute in Hstat).
  rewrite sample2_saturated in Hret; [done|].
  apply saturated_spec. by vm_compute.
Qed.

(** C5, as the code has it.  The loop has no bound on retries.  When the
    roots can be listed, [generateUniquePrefix] goes through the rounds that
    collide with an existing prefix and returns the first combination that
    is free; when every combination is taken it is still running after any
    number of draws. *)
Theorem generateUniquePrefix_returns_first_free
    (config : Config) (fs : vault) :
  notFile fs (join [vaultPath config; projectsRoot config]) →
  notFile fs (join [vaultPath config; areasRoot config]) →
  (∀ collisions i j rnd,
     Forall (λ round, [letter round.1; letter round.2] ∈ scannedPrefixes config fs)
            collisions →
     [letter i; letter j] ∉ scannedPrefixes config fs →
     generateUniquePrefix config (draws collisions ++ i :: j :: rnd) fs
     = Return [letter i; letter j] fs)
  ∧ ((∀ i j, [letter i; letter j] ∈ scannedPrefixes config fs) →
     ∀ rnd, generateUniquePrefix config rnd fs = Spinning fs).
Proof.
  intros Hp Ha. split.
  - intros collisions i j rnd Hcoll Hfree.
    rewrite generateUniquePrefix_scan, sample2_rounds by done.
    simpl. by rewrite decide_False.
  - intros Hall rnd.
    by rewrite generateUniquePrefix_scan, sample2_saturated.
Qed.

Lemma generateUniquePrefix_returns_first_free_witness :
  (∀ collisions i j rnd,
     Forall (λ round, [letter round.1; letter round.2]
                      ∈ scannedPrefixes demoConfig demoVault) collisions →
     [letter i; letter j] ∉ scannedPrefixes demoConfig demoVault →
     generateUniquePrefix demoConfig (draws collisions ++ i :: j :: rnd) demoVault
     = Return [letter i; letter j] demoVault)
  ∧ ((∀ i j, [letter i; letter j] ∈ scannedPrefixes demoConfig demoVault) →
     ∀ rnd, generateUniquePrefix demoConfig rnd demoVault = Spinning demoVault).
Proof.
  apply (generateUniquePrefix_returns_first_free demoConfig demoVault);
    intros text Hstat; by vm_compute in Hstat.
Defined.

(** ** createEntity: the cursor marker *)

(** C9, the code at a failing input.  [new resource "{{cursor}}{{cursor}}"]
    with the template body [# {{title}}\n{{cursor}}]: the title brings two
    markers into the rendered text, [content.replace("{{cursor}}", "")]
    deletes the first of them, and the file is written with the second. *)
Theorem createEntity_writes_a_cursor_marker :
  let out := createEntity asciiLower demoConfig (js "2025-01-01") []
               (js "resource") (js "{{cursor}}{{cursor}}") noOptions demoVault in
  exitCode out = Some 0%nat
  ∧ readFileSync (vaultAfter out) (js <$> ["vault"; "03_resources"; "cursor-cursor.md"]%string)
    = Some (js "# {{cursor}}" ++ [newline]).
Proof. split; vm_compute; reflexivity. Qed.

(** A string pattern is replaced once. *)
Lemma removeCursor_once :
  removeCursor (js "{{cursor}}{{cursor}}") = js "{{cursor}}".
Proof. vm_compute. reflexivity. Qed.

(** ** Reading back what was written *)

Lemma stat_insert (fs : vault) p e q :
  p ≠ [] → stat (<[p := e]> fs) q = if decide (p = q) then Some e else stat fs q.
Proof.
  intros Hp. unfold stat. destruct (decide (p = q)) as [<-|Hpq].
  - by rewrite decide_False, lookup_insert_eq.
  - by rewrite lookup_insert_ne.
Qed.

Lemma stat_delete (fs : vault) p q :
  p ≠ [] → stat (delete p fs) q = if decide (p = q) then None else stat fs q.
Proof.
  intros Hp. unfold stat. destruct (decide (p = q)) as [<-|Hpq].
  - by rewrite decide_False, lookup_delete_eq.
  - by rewrite lookup_delete_ne.
Qed.

Lemma writeFileSync_Some fs p text written :
  writeFileSync fs p text = Some written →
  written = <[p := File text]> fs ∧ p ≠ []
  ∧ stat fs (dirname p) = Some Dir ∧ stat fs p ≠ Some Dir.
Proof.
  unfold writeFileSync. intros Hw.
  assert (p ≠ []) as Hp.
  { intros ->. by rewrite (eq_refl : stat fs [] = Some Dir) in Hw. }
  destruct (stat fs p) as [[|]|], (stat fs (dirname p)) as [[|]|]; by simplify_eq.
Qed.

Lemma writeFileSync_read fs p text written :
  writeFileSync fs p text = Some written →
  readFileSync written p = Some text ∧ existsSync written p = true.
Proof.
  intros (-> & Hp & _)%writeFileSync_Some.
  unfold readFileSync, existsSync. rewrite stat_insert, decide_True by done.
  split; [done|]. apply bool_decide_eq_true. eauto.
Qed.

(** ** mark: the same status again *)

(** When source and target are the same path, [moveFile] writes the file
    and then unlinks what it has just written. *)
Lemma moveFile_same_path fs p content written :
  writeFileSync fs p content = Some written →
  moveFile p content p fs = Return tt (delete p fs) ∧ stat (delete p fs) p = None.
Proof.
  intros Hw. unfold moveFile. rewrite Hw.
  apply writeFileSync_Some in Hw as (-> & Hp & _).
  unfold unlinkSync. rewrite stat_insert, decide_True by done.
  rewrite delete_insert_eq. split; [done|]. by rewrite stat_delete, decide_True.
Qed.

(** C1, the code at a failing input.  [mark work --prefix ab --item xy
    --status active] on an item that is in [work/active] already, and
    [mark post --prefix cd --item abc --status backlog] on a post that is in
    [backlog] already: both end with status 0, and the file is gone. *)
Theorem mark_same_status_deletes_the_item :
  let work := markAction asciiLower demoConfig
                (js "work") (js "ab") (js "xy") (js "active") demoVault in
  let post := markAction asciiLower demoConfig
                (js "post") (js "cd") (js "abc") (js "backlog") demoVault in
  (readFileSync demoVault
     (js <$> ["vault"; "01_projects"; "ab_site"; "work"; "active"; "xy_task.md"]%string)
   = Some (taskText "Active" "active")
   ∧ exitCode work = Some 0%nat
   ∧ listing (vaultAfter work)
       (js <$> ["vault"; "01_projects"; "ab_site"; "work"; "active"]%string) = []
   ∧ Forall (λ folder,
        listing (vaultAfter work)
          ((js <$> ["vault"; "01_projects"; "ab_site"; "work"]%string) ++ [folder]) = [])
       statusFolders)
  ∧ (readFileSync demoVault
       (js <$> ["vault"; "02_areas"; "cd_health"; "backlog"; "abc_post.md"]%string)
     = Some (taskText "Backlog" "backlog")
     ∧ exitCode post = Some 0%nat
     ∧ Forall (λ folder,
          listing (vaultAfter post)
            ((js <$> ["vault"; "02_areas"; "cd_health"]%string) ++ [folder]) = [])
         statusFolders).
Proof.
  split; split_and!; try (vm_compute; reflexivity);
    repeat constructor; vm_compute; reflexivity.
Qed.

(** ** new: an existing target *)

Lemma readonly_ret {A} (a : A) : readonly (ret a).
Proof. done. Qed.

Lemma readonly_exit {A} code why : readonly (@exit A code why).
Proof. done. Qed.

Lemma readonly_ask {A} (f : vault → A) : readonly (ask f).
Proof. done. Qed.

Lemma readonly_attempt {A} (f : vault → option A) : readonly (attempt f).
Proof. intros fs. unfold attempt. by destruct (f fs). Qed.

Lemma readonly_sampled r : readonly (sampled r).
Proof. intros fs. by destruct r. Qed.

Lemma readonly_bind {A B} (m : M A) (k : A → M B) :
  readonly m → (∀ a, readonly (k a)) → readonly (bind m k).
Proof.
  intros Hm Hk fs. unfold bind. specialize (Hm fs).
  destruct (m fs) as [a fs1|code why fs1|fs1]; simpl in *; subst; [apply Hk|done..].
Qed.

(** Goals [readonly m] follow the shape of [m]. *)
Ltac readonly :=
  repeat first
    [ apply readonly_ret | apply readonly_exit | apply readonly_ask
    | apply readonly_attempt | apply readonly_sampled
    | assumption
    | apply readonly_bind; [|intros ?]
    | match goal with
      | |- readonly (if ?b then _ else _) => destruct b
      | |- readonly (match ?x with _ => _ end) => destruct x
      | |- readonly (let '(_, _) := ?x in _) => destruct x
      end ].

Lemma readonly_collectCodes n base folders existing :
  readonly (collectCodes n base folders existing).
Proof.
  revert existing. induction folders as [|folder folders IH]; intros existing; simpl;
    readonly; apply IH.
Qed.

Lemma readonly_generateUniquePrefix config rnd : readonly (generateUniquePrefix config rnd).
Proof. unfold generateUniquePrefix. readonly. Qed.

Lemma readonly_validatePrefixUnique config prefix :
  readonly (validatePrefixUnique config prefix).
Proof. unfold validatePrefixUnique. readonly. Qed.

(** Everything [createEntity] does before it looks at the target path is
    reading. *)
Lemma readonly_createEntity_vars toLowerCase config today rnd type title options :
  readonly (createEntity_vars toLowerCase config today rnd type title options).
Proof.
  unfold createEntity_vars.
  destruct (templates config !! _) as [tpl|]; [|readonly].
  readonly;
    first [ apply readonly_generateUniquePrefix | apply readonly_validatePrefixUnique
          | apply readonly_collectCodes ].
Qed.

Lemma returned_readonly {A} (m : M A) fs a :
  readonly m → returned (m fs) = Some a → m fs = Return a fs.
Proof.
  intros Hm Hr. specialize (Hm fs).
  destruct (m fs) as [a' fs1| |]; simpl in *; by simplify_eq.
Qed.

(** The single-file branch of [createEntity] stops at an existing target. *)
Lemma createEntity_write_existing config tpl vars fs :
  truthy (filePath tpl) = true →
  existsSync fs (join [vaultPath config; renderTemplate (default [] (filePath tpl)) vars])
  = true →
  createEntity_write config tpl vars fs
  = Exit 1 (FileExists (join [vaultPath config;
                              renderTemplate (default [] (filePath tpl)) vars])) fs.
Proof.
  intros Hsingle Hexists. unfold createEntity_write. rewrite Hsingle.
  unfold bind, ask. by rewrite Hexists.
Qed.

(** Type tests on a literal type are decided by evaluation. *)
Ltac literal_type :=
  repeat match goal with
         | |- context [isLit (js ?t) ?l] =>
             let b := eval vm_compute in (isLit (js t) l) in
             change (isLit (js t) l) with b
         end;
  cbn [andb orb negb].

Section NewAction.

Variable toLowerCase : jsstring → jsstring.
Variable config : Config.
Variable today : jsstring.
Variable rnd : list (fin 26).

Lemma newInParent_dispatched type actualTitle prefix opts fs :
  dispatched toLowerCase config today rnd actualTitle opts fs
    (newInParent toLowerCase config today rnd type actualTitle prefix opts fs).
Proof.
  unfold newInParent, dispatched, bind, ask, attempt, ret, exit.
  repeat match goal with
         | |- context [if ?b then _ else _] => destruct b
         | |- context [match readdirSync ?f ?p with _ => _ end] => destruct (readdirSync f p)
         | |- context [match findByPrefix ?a ?b with _ => _ end] => destruct (findByPrefix a b)
         end;
    eauto.
Qed.

Lemma newAction_dispatched type title opts fs :
  dispatched toLowerCase config today rnd (orElse title (js "Untitled")) opts fs
    (newAction toLowerCase config today rnd type title opts fs).
Proof.
  unfold newAction.
  repeat match goal with
         | |- dispatched _ _ _ _ _ _ _ ((if ?b then _ else _) _) => destruct b
         end;
    try apply newInParent_dispatched;
    try (left; eexists; reflexivity);
    try (right; left; eexists _, _; reflexivity).
  unfold dispatched, bind, ask, attempt, ret, exit.
  repeat match goal with
         | |- context [if ?b then _ else _] => destruct b
         | |- context [match readdirSync ?f ?p with _ => _ end] => destruct (readdirSync f p)
         | |- context [match findByPrefix ?a ?b with _ => _ end] => destruct (findByPrefix a b)
         end;
    eauto.
Qed.

Lemma createEntity_vars_resource title opts tpl :
  templates config !! js "resource" = Some tpl →
  truthy (o_prefix opts) = false →
  ∃ vars, ∀ fs,
    createEntity_vars toLowerCase config today rnd (js "resource") title opts fs
    = Return (tpl, vars) fs.
Proof.
  intros Htpl Hprefix. eexists. intros fs.
  unfold createEntity_vars. rewrite Hprefix. literal_type. rewrite Htpl.
  unfold bind, ret. reflexivity.
Qed.

End NewAction.

(** A run of the single-file branch that ends well has written the target. *)
Lemma createEntity_write_single_done config tpl vars fs :
  truthy (filePath tpl) = true →
  exitCode (createEntity_write config tpl vars fs) = Some 0%nat →
  let target := join [vaultPath config; renderTemplate (default [] (filePath tpl)) vars] in
  let after := vaultAfter (createEntity_write config tpl vars fs) in
  existsSync fs target = false
  ∧ existsSync after target = true
  ∧ ∃ body, template tpl = Some body
            ∧ readFileSync after target = Some (removeCursor (renderTemplate body vars)).
Proof.
  intros Hsingle. unfold createEntity_write. rewrite Hsingle.
  unfold bind, ask, perform, attempt, exit.
  destruct (existsSync fs _) eqn:Hpresent; [done|].
  destruct (ensureDir fs _) as [fs1|]; [|done].
  destruct (template tpl) as [body|]; [|done].
  destruct (writeFileSync fs1 _ _) as [fs2|] eqn:Hw; [|done].
  intros _. simpl. apply writeFileSync_read in Hw as [? ?]. eauto.
Qed.

(** C7.  [new] refuses an existing target of a single-file template.
    (1) Every invocation stops with status 1 on the vault as it was, or goes
    on with [createEntity] or with [newResourceFile] on the vault as it was.
    (2) When [createEntity] has resolved a single-file template and the
    rendered path exists, it ends with status 1, "file already exists", and
    the vault is the one it was given.  (3) The same holds for the file that
    [newResourceFile] adds to an existing resource folder.  (4) So when
    [new resource <title>] has succeeded, the same invocation on the vault it
    left fails with status 1, leaves that vault as it is, and the file
    written by the first run still has its content. *)
Theorem new_refuses_existing_target
    (toLowerCase : jsstring → jsstring) (config : Config) (today : jsstring)
    (rnd : list (fin 26)) :
  (∀ type title opts fs,
     dispatched toLowerCase config today rnd (orElse title (js "Untitled")) opts fs
       (newAction toLowerCase config today rnd type title opts fs))
  ∧ (∀ type title options fs tpl vars,
       returned (createEntity_vars toLowerCase config today rnd type title options fs)
       = Some (tpl, vars) →
       truthy (filePath tpl) = true →
       let target := join [vaultPath config;
                           renderTemplate (default [] (filePath tpl)) vars] in
       existsSync fs target = true →
       createEntity toLowerCase config today rnd type title options fs
       = Exit 1 (FileExists target) fs)
  ∧ (∀ actualTitle prefix resourceDir opts fs,
       let target := join [vaultPath config; resourcesRoot config; resourceDir;
                           slugify toLowerCase actualTitle ++ js ".md"] in
       existsSync fs target = true →
       newResourceFile toLowerCase config today actualTitle prefix resourceDir opts fs
       = Exit 1 (FileExists target) fs)
  ∧ (∀ title opts fs tpl,
       templates config !! js "resource" = Some tpl →
       truthy (filePath tpl) = true →
       truthy (o_prefix opts) = false →
       let first := newAction toLowerCase config today rnd (js "resource") title opts fs in
       exitCode first = Some 0%nat →
       ∃ target text,
         readFileSync (vaultAfter first) target = Some text
         ∧ newAction toLowerCase config today rnd (js "resource") title opts (vaultAfter first)
           = Exit 1 (FileExists target) (vaultAfter first)).
Proof.
  split_and!.
  - intros. apply newAction_dispatched.
  - intros type title options fs tpl vars Hvars Hsingle target Hexists.
    apply returned_readonly in Hvars; [|apply readonly_createEntity_vars].
    unfold createEntity, bind. rewrite Hvars.
    by apply createEntity_write_existing.
  - intros actualTitle prefix resourceDir opts fs target Hexists.
    unfold newResourceFile, bind, ask. fold target. by rewrite Hexists.
  - intros title opts fs tpl Htpl Hsingle Hprefix first Hdone.
    destruct (createEntity_vars_resource toLowerCase config today rnd
                (orElse title (js "Untitled")) opts tpl Htpl Hprefix) as [vars Hvars].
    assert (∀ fs, newAction toLowerCase config today rnd (js "resource") title opts fs
                  = createEntity_write config tpl vars fs) as Hnew.
    { intros fs'. unfold newAction. rewrite Hprefix. literal_type.
      unfold createEntity, bind. by rewrite Hvars. }
    subst first. rewrite Hnew in Hdone |- *.
    destruct (createEntity_write_single_done config tpl vars fs Hsingle Hdone)
      as (_ & Hexists & body & _ & Hread).
    eexists _, _. split; [exact Hread|].
    rewrite Hnew. by apply createEntity_write_existing.
Qed.

Lemma new_refuses_existing_target_witness :
  let first := newAction asciiLower demoConfig (js "2025-01-01") []
                 (js "resource") (Some (js "Reading List")) noOptions demoVault in
  ∃ target text,
    readFileSync (vaultAfter first) target = Some text
    ∧ newAction asciiLower demoConfig (js "2025-01-01") []
        (js "resource") (Some (js "Reading List")) noOptions (vaultAfter first)
      = Exit 1 (FileExists target) (vaultAfter first).
Proof.
  destruct (new_refuses_existing_target asciiLower demoConfig (js "2025-01-01") [])
    as (_ & _ & _ & Htwice).
  eapply (Htwice (Some (js "Reading List")) noOptions demoVault);
    vm_compute; reflexivity.
Defined.

(** ** mark: the status tag line *)

Lemma stripPrefix_app_None p h tail :
  stripPrefix p h = None → (∀ c t, tail = c :: t → c ∉ p) →
  stripPrefix p (h ++ tail) = None.
Proof.
  revert h. induction p as [|a p IH]; intros h; simpl; [done|].
  intros Hh Htail. destruct h as [|b h]; simpl.
  - destruct tail as [|c t]; [done|].
    destruct (N.eqb_spec a c) as [->|_]; [|done].
    exfalso. apply (Htail c t eq_refl). by left.
  - destruct (N.eqb_spec a b) as [->|_]; [|done].
    apply IH; [done|]. intros c t Hc Hin. apply (Htail c t Hc). by right.
Qed.

Lemma occurs_false_here pat s : occurs pat s = false → stripPrefix pat s = None.
Proof. destruct s; simpl; by destruct (stripPrefix pat _). Qed.

Lemma occurs_false_tail pat c s : occurs pat (c :: s) = false → occurs pat s = false.
Proof. simpl. by destruct (stripPrefix pat (c :: s)). Qed.

Lemma occurs_false_suffix pat l s : occurs pat (l ++ s) = false → occurs pat s = false.
Proof. induction l as [|c l IH]; [done|]. intros H%occurs_false_tail. by apply IH. Qed.

Lemma span_stop p h tail r c a :
  span p h = (r, c :: a) → span p (h ++ tail) = (r, c :: a ++ tail).
Proof.
  revert r. induction h as [|d h IH]; intros r; simpl; [done|].
  destruct (p d).
  - destruct (span p h) as [r' a'] eqn:Hs. intros [= <- ->].
    by rewrite (IH r' eq_refl).
  - by intros [= <- <- <-].
Qed.

Lemma span_nil_all p h r : span p h = (r, []) → forallb p h = true.
Proof. intros (-> & Hr & _)%span_spec. by rewrite app_nil_r. Qed.

(** No tag can start in text that has none, when a line break follows. *)
Lemma statusTagAt_before_break h tail :
  stripPrefix (js "- status/") h = None →
  statusTagAt (h ++ newline :: tail) = None.
Proof.
  intros Hh. unfold statusTagAt. rewrite stripPrefix_app_None; [done..|].
  intros c t [= <- _]. apply (bool_decide_unpack _). by vm_compute.
Qed.

Lemma statusTagLine_miss prev c h tail :
  occurs (js "- status/") (c :: h) = false →
  blankAfterBreak (c :: h) = false →
  statusTagLine prev (c :: h ++ newline :: tail) = None.
Proof.
  intros Hocc Hblank. unfold statusTagLine. cbn [stripPrefix].
  destruct (N.eqb_spec newline c) as [<-|_]; [|done].
  simpl in Hblank. apply orb_false_iff in Hblank as [Hblank _].
  apply occurs_false_tail in Hocc.
  destruct (span isSpace h) as [r a] eqn:Hs.
  destruct a as [|d a].
  - apply span_nil_all in Hs. congruence.
  - rewrite (span_stop _ _ _ _ _ _ Hs).
    apply span_spec in Hs as (-> & _ & _).
    apply occurs_false_suffix, occurs_false_here in Hocc.
    change (d :: a ++ newline :: tail) with ((d :: a) ++ newline :: tail).
    by rewrite statusTagAt_before_break.
Qed.

Lemma statusTagLine_hit prev indent old tail :
  forallb isSpace indent = true → old ≠ [] → newline ∉ old → lineEnd tail = true →
  ∃ h, statusTagLine prev (newline :: indent ++ js "- status/" ++ old ++ tail) = Some h
       ∧ rest h = tail.
Proof.
  intros Hindent Hold Hnl Htail. unfold statusTagLine. cbn [stripPrefix].
  rewrite N.eqb_refl.
  rewrite (span_app isSpace indent (js "- status/" ++ old ++ tail) Hindent)
    by (by intros c t [= <- _]).
  unfold statusTagAt. rewrite stripPrefix_app.
  rewrite (span_app _ old tail).
  - destruct old; [done|]. eauto.
  - by apply notin_forallb.
  - intros c t ->. simpl in Htail. by rewrite Htail.
Qed.

(** The tag line is cut out: the line break before it, the blanks in front
    of the tag, the tag up to the end of its line. *)
Lemma statusTagLine_removed prev head indent old tail :
  occurs (js "- status/") head = false → blankAfterBreak head = false →
  forallb isSpace indent = true → old ≠ [] → newline ∉ old → lineEnd tail = true →
  replaceFirst statusTagLine (λ _, []) prev
    (head ++ newline :: indent ++ js "- status/" ++ old ++ tail)
  = head ++ tail.
Proof.
  intros Hocc Hblank Hindent Hold Hnl Htail. revert prev Hocc Hblank.
  induction head as [|c head IH]; intros prev Hocc Hblank.
  - destruct (statusTagLine_hit prev indent old tail) as (h & Hh & Hrest); [done..|].
    rewrite app_nil_l.
    destruct (newline :: indent ++ js "- status/" ++ old ++ tail) eqn:E; [done|].
    simpl. by rewrite Hh, Hrest.
  - rewrite <- app_comm_cons. cbn [replaceFirst].
    rewrite statusTagLine_miss by done. simpl. f_equal.
    apply IH; [by eapply occurs_false_tail|].
    simpl in Hblank. by apply orb_false_iff in Hblank as [_ ?].
Qed.

(** ** Paths and the file tree *)

Lemma plain_pushSegment acc seg : plain seg → joinAt acc [seg] = acc ++ [seg].
Proof.
  intros (Hne & Hdot & Hdots & Hslash). unfold joinAt. simpl.
  rewrite (split_no_sep _ _ Hslash). simpl. unfold pushSegment.
  rewrite decide_False by (intros [?|?]; done). by rewrite decide_False.
Qed.

Lemma joinAt_app base xs ys : joinAt base (xs ++ ys) = joinAt (joinAt base xs) ys.
Proof. unfold joinAt. by rewrite bind_app, foldl_app. Qed.

Lemma joinAt_plain base segs : Forall plain segs → joinAt base segs = base ++ segs.
Proof.
  intros Hsegs. revert base. induction Hsegs as [|seg segs Hseg _ IH]; intros base.
  - by rewrite app_nil_r.
  - change (seg :: segs) with ([seg] ++ segs).
    rewrite joinAt_app, plain_pushSegment, IH by done. by rewrite <- app_assoc.
Qed.

Lemma plain_literal (seg : jsstring) :
  bool_decide (plain seg) = true → plain seg.
Proof. apply bool_decide_eq_true_1. Qed.

Lemma statusFolders_plain folder : folder ∈ statusFolders → plain folder.
Proof.
  unfold statusFolders. rewrite !elem_of_cons, elem_of_nil.
  intros [->|[->|[->|[->|[]]]]]; by apply plain_literal.
Qed.

Lemma removelast_snoc {A} (l : list A) x : removelast (l ++ [x]) = l.
Proof. apply removelast_last. Qed.

Lemma last_removelast {A} (l : list A) x : last l = Some x → l = removelast l ++ [x].
Proof.
  intros [l' ->]%last_Some. by rewrite removelast_snoc.
Qed.

(** The order of a listing is a total order on names. *)
#[global] Instance nameLe_total : Total nameLe.
Proof.
  unfold Total, nameLe. intros a. induction a as [|c a IH]; intros [|d b]; simpl; auto.
  rewrite (N.eqb_sym (codePointRank d)).
  destruct (N.eqb_spec (codePointRank c) (codePointRank d)); [apply IH|].
  destruct (N.ltb_spec (codePointRank c) (codePointRank d)); [by left|].
  right. apply N.ltb_lt. lia.
Qed.

#[global] Instance nameLe_trans : Transitive nameLe.
Proof.
  unfold Transitive, nameLe. intros a. induction a as [|c a IH]; [done|].
  intros [|d b] [|e z]; simpl; try done.
  destruct (N.eqb_spec (codePointRank c) (codePointRank d)) as [->|Hcd].
  - destruct (N.eqb_spec (codePointRank d) (codePointRank e)); [apply IH|done].
  - intros Hlt%N.ltb_lt.
    destruct (N.eqb_spec (codePointRank d) (codePointRank e)) as [<-|Hde].
    + intros _. rewrite (proj2 (N.eqb_neq _ _)) by done. by apply N.ltb_lt.
    + intros Hlt'%N.ltb_lt. rewrite (proj2 (N.eqb_neq _ _)) by lia. apply N.ltb_lt. lia.
Qed.

Lemma elem_of_sortNames name names : name ∈ sortNames names ↔ name ∈ names.
Proof. unfold sortNames. by rewrite merge_sort_Permutation. Qed.

(** A listing comes sorted: each name before the names behind it. *)
Lemma readdirSync_sorted fs dir names :
  readdirSync fs dir = Some names → StronglySorted nameLe names.
Proof.
  unfold readdirSync. destruct (stat fs dir) as [[text|]|]; [done| |done].
  intros [= <-]. apply (StronglySorted_merge_sort nameLe).
Qed.

(** What a listing lists. *)
Lemma elem_of_listing fs dir name :
  name ∈ listing fs dir ↔ stat fs dir = Some Dir ∧ is_Some (fs !! (dir ++ [name])).
Proof.
  unfold listing, readdirSync.
  destruct (stat fs dir) as [[text|]|]; simpl;
    [split; [by intros ?%elem_of_nil|by intros [? _]]| |
     split; [by intros ?%elem_of_nil|by intros [? _]]].
  rewrite elem_of_sortNames, list_elem_of_omap. split.
  - intros ([k e] & Hin%elem_of_map_to_list & Hk). simpl in Hk.
    destruct (decide (removelast k = dir)) as [<-|]; [|done].
    apply last_removelast in Hk. rewrite <- Hk. eauto.
  - intros [_ [e He]]. exists (dir ++ [name], e). split.
    + by apply elem_of_map_to_list.
    + simpl. rewrite removelast_snoc, decide_True by done. by rewrite last_snoc.
Qed.

Lemma wfVault_lookup fs p e :
  wfVault fs → fs !! p = Some e → Forall plain p ∧ stat fs (removelast p) = Some Dir.
Proof. intros Hwf Hp. exact (Hwf p e Hp). Qed.

Lemma listing_plain fs dir name : wfVault fs → name ∈ listing fs dir → plain name.
Proof.
  intros Hwf [_ [e He]]%elem_of_listing.
  apply (wfVault_lookup _ _ _ Hwf) in He as [Hplain _].
  by apply Forall_app in Hplain as [_ [? _]%Forall_cons].
Qed.

Lemma stat_snoc fs p seg : stat fs (p ++ [seg]) = fs !! (p ++ [seg]).
Proof. unfold stat. rewrite decide_False; [done|]. by destruct p. Qed.

(** In a file tree everything above an entry is a directory. *)
Lemma wfVault_ancestors fs p :
  wfVault fs → is_Some (stat fs p) →
  ∀ k, (0 < k < length p)%nat → fs !! take k p = Some Dir.
Proof.
  intros Hwf. induction p as [|seg p IH] using rev_ind; intros Hp k Hk.
  - simpl in Hk. lia.
  - rewrite length_app in Hk. simpl in Hk.
    rewrite stat_snoc in Hp. destruct Hp as [e He].
    apply (wfVault_lookup _ _ _ Hwf) in He as [_ Hparent].
    rewrite removelast_snoc in Hparent.
    rewrite take_app_le by lia.
    destruct (decide (k = length p)) as [->|Hne].
    + rewrite firstn_all. unfold stat in Hparent.
      destruct (decide (p = [])) as [->|]; [simpl in Hk; lia|done].
    + apply IH; [by rewrite Hparent|lia].
Qed.

Lemma mkdirFrom_existing fs base done todo :
  (∀ k, (0 < k ≤ length done)%nat → fs !! (base ++ take k done) = Some Dir) →
  mkdirFrom fs base (done ++ todo) = mkdirFrom fs (base ++ done) todo.
Proof.
  revert base. induction done as [|seg done IH]; intros base Hdirs.
  - by rewrite app_nil_r.
  - pose proof (Hdirs 1%nat ltac:(simpl; lia)) as H1. simpl in H1.
    rewrite take_0 in H1. simpl. rewrite H1, IH.
    + by rewrite <- app_assoc.
    + intros k Hk. rewrite <- app_assoc. apply (Hdirs (S k)). simpl. lia.
Qed.

(** [ensureDir] of a folder directly below an existing directory of a file
    tree: the folder is there already, or it is created. *)
Lemma ensureDir_child fs parent seg :
  wfVault fs → stat fs parent = Some Dir → notFile fs (parent ++ [seg]) →
  ∃ fs', ensureDir fs (parent ++ [seg]) = Some fs'
         ∧ stat fs' (parent ++ [seg]) = Some Dir
         ∧ ∀ q, q ≠ parent ++ [seg] → stat fs' q = stat fs q.
Proof.
  intros Hwf Hparent Hchild. unfold ensureDir.
  destruct (existsSync fs (parent ++ [seg])) eqn:He.
  - exists fs. split_and!; [done| |done].
    apply existsSync_true in He as [[text|] He]; [by destruct (Hchild text)|done].
  - apply existsSync_false in He.
    exists (<[parent ++ [seg] := Dir]> fs).
    assert (parent ++ [seg] ≠ []) as Hne by (by destruct parent).
    split_and!.
    + unfold mkdirSync. rewrite mkdirFrom_existing.
      * simpl. rewrite stat_snoc in He. by rewrite He.
      * intros k Hk. simpl.
        destruct (decide (k = length parent)) as [->|Hne'].
        -- rewrite firstn_all. unfold stat in Hparent.
           destruct (decide (parent = [])) as [->|]; [simpl in Hk; lia|done].
        -- apply (wfVault_ancestors fs parent Hwf); [by rewrite Hparent|lia].
    + by rewrite stat_insert, decide_True.
    + intros q Hq. by rewrite stat_insert, decide_False.
Qed.

(** ** mark work: finding the item *)

Lemma findByPrefix_Some code l name :
  findByPrefix code l = Some name →
  name ∈ l ∧ startsWith name (code ++ [underscore]) = true.
Proof.
  unfold findByPrefix. intros [Hin Hf]%find_some. by rewrite list_elem_of_In.
Qed.

Lemma findByPrefix_unique code l name :
  name ∈ l → startsWith name (code ++ [underscore]) = true →
  (∀ other, other ∈ l → startsWith other (code ++ [underscore]) = true → other = name) →
  findByPrefix code l = Some name.
Proof.
  intros Hin Hname Honly.
  destruct (findByPrefix code l) as [found|] eqn:Hfound.
  - apply findByPrefix_Some in Hfound as [? ?]. f_equal. by apply Honly.
  - unfold findByPrefix in Hfound.
    apply list_elem_of_In in Hin.
    pose proof (find_none _ _ Hfound _ Hin) as Hno. simpl in Hno.
    exfalso. eapply eq_true_false_abs; [exact Hname|exact Hno].
Qed.

Lemma findItem_found fs workPath code folders folder name :
  wfVault fs →
  (∀ f, f ∈ folders → plain f ∧ notFile fs (workPath ++ [f])) →
  folder ∈ folders →
  name ∈ listing fs (workPath ++ [folder]) →
  startsWith name (code ++ [underscore]) = true →
  (∀ f n, f ∈ folders → n ∈ listing fs (workPath ++ [f]) →
          startsWith n (code ++ [underscore]) = true → f = folder ∧ n = name) →
  findItem workPath code folders fs
  = Return (Some (workPath ++ [folder; name], name)) fs.
Proof.
  intros Hwf. induction folders as [|f folders IH]; intros Hfolders Hin Hname Hstarts Honly.
  - by apply elem_of_nil in Hin.
  - destruct (Hfolders f) as [Hplain Hnf]; [by left|].
    simpl. unfold bind at 1, ask. rewrite plain_pushSegment by done.
    assert (f ≠ folder → findItem workPath code folders fs
                         = Return (Some (workPath ++ [folder; name], name)) fs) as Hnext.
    { intros Hne. apply IH; try done.
      - intros f' Hf'. apply Hfolders. by right.
      - apply elem_of_cons in Hin as [->|?]; done.
      - intros f' n Hf'. apply Honly. by right. }
    destruct (existsSync fs (workPath ++ [f])) eqn:He.
    + apply existsSync_true in He as [[text|] He]; [by destruct (Hnf text)|].
      unfold bind, attempt. rewrite (readdirSync_Dir _ _ He).
      destruct (findByPrefix code (listing fs (workPath ++ [f]))) as [found|] eqn:Hfound.
      * apply findByPrefix_Some in Hfound as [Hfin Hfstarts].
        destruct (Honly f found) as [-> ->]; [by left|done..|].
        unfold ret. rewrite plain_pushSegment by (by eapply listing_plain).
        by rewrite <- app_assoc.
      * apply Hnext. intros ->.
        rewrite (findByPrefix_unique code _ name) in Hfound; [done..|].
        intros other Hother Hostarts. by apply (Honly folder other); [left|..].
    + apply Hnext. intros ->. apply existsSync_false in He.
      rewrite (listing_absent _ _ He) in Hname. by apply elem_of_nil in Hname.
Qed.

Lemma onlyItem_spec fs workPath code folder name :
  onlyItem fs workPath code folder name →
  ∀ f n, f ∈ statusFolders → n ∈ listing fs (workPath ++ [f]) →
         startsWith n (code ++ [underscore]) = true → f = folder ∧ n = name.
Proof.
  intros (_ & _ & _ & Hall) f n Hf Hn.
  rewrite Forall_forall in Hall. specialize (Hall f Hf).
  rewrite Forall_forall in Hall. by apply Hall.
Qed.

Section FindWork.

Variable config : Config.
Variable fs : vault.
Hypothesis fs_tree : wfVault fs.

Lemma findWork_found root folderPrefix code dir folder name :
  findByPrefix folderPrefix (listing fs (join [vaultPath config; root])) = Some dir →
  Forall (λ f, notFile fs (join [vaultPath config; root; dir; js "work"] ++ [f]))
         statusFolders →
  onlyItem fs (join [vaultPath config; root; dir; js "work"]) code folder name →
  findWork config root folderPrefix code fs
  = Return (Some (join [vaultPath config; root; dir; js "work"] ++ [folder; name],
                  [root; dir], name)) fs.
Proof.
  intros Hdir Hfolders Honly.
  set (workPath := join [vaultPath config; root; dir; js "work"]) in *.
  pose proof Honly as (Hfolder & Hname & Hstarts & _).
  unfold findWork, bind, ask, attempt.
  pose proof Hdir as [[Hroot _]%elem_of_listing _]%findByPrefix_Some.
  assert (existsSync fs (join [vaultPath config; root]) = true) as ->
    by (apply existsSync_true; by rewrite Hroot).
  rewrite (readdirSync_Dir _ _ Hroot), Hdir. fold workPath.
  assert (stat fs workPath = Some Dir) as Hwork.
  { apply elem_of_listing in Hname as [Hstatus _].
    rewrite stat_snoc in Hstatus.
    apply (wfVault_lookup _ _ _ fs_tree) in Hstatus as [_ Hparent].
    by rewrite removelast_snoc in Hparent. }
  assert (existsSync fs workPath = true) as ->
    by (apply existsSync_true; by rewrite Hwork).
  rewrite (findItem_found fs workPath code statusFolders folder name); try done.
  - intros f Hf. split; [by apply statusFolders_plain|].
    rewrite Forall_forall in Hfolders. by apply Hfolders.
  - by apply onlyItem_spec.
Qed.

Lemma findWork_no_parent root folderPrefix code :
  notFile fs (join [vaultPath config; root]) →
  findByPrefix folderPrefix (listing fs (join [vaultPath config; root])) = None →
  findWork config root folderPrefix code fs = Return None fs.
Proof.
  intros Hroot Hnone. unfold findWork, bind, ask, attempt, ret.
  destruct (existsSync fs _) eqn:He; [|done].
  apply existsSync_true in He as [[text|] He]; [by destruct (Hroot text)|].
  by rewrite (readdirSync_Dir _ _ He), Hnone.
Qed.

End FindWork.

(** ** mark work --status done *)

(** The search of [markWork], projects first and then areas, finds the one
    item of the parent container. *)
Lemma markWork_search {B} config fs folderPrefix code root dir folder name
    (k : option (path * list jsstring * jsstring) → M B) :
  wfVault fs →
  notFile fs (join [vaultPath config; projectsRoot config]) →
  parentContainer config fs folderPrefix = Some (root, dir) →
  Forall (λ f, notFile fs (join [vaultPath config; root; dir; js "work"] ++ [f]))
         statusFolders →
  onlyItem fs (join [vaultPath config; root; dir; js "work"]) code folder name →
  (let* inProjects := findWork config (projectsRoot config) folderPrefix code in
   let* source :=
     match inProjects with
     | Some _ => ret inProjects
     | None => findWork config (areasRoot config) folderPrefix code
     end in
   k source) fs
  = k (Some (join [vaultPath config; root; dir; js "work"] ++ [folder; name],
             [root; dir], name)) fs.
Proof.
  intros Hwf Hprojects Hparent Hfolders Honly. unfold parentContainer in Hparent.
  destruct (findByPrefix folderPrefix (listing fs (join [_; projectsRoot config])))
    as [d|] eqn:Hp.
  - injection Hparent as <- <-. unfold bind.
    by rewrite (findWork_found config fs Hwf _ _ _ _ _ _ Hp Hfolders Honly).
  - destruct (findByPrefix folderPrefix (listing fs (join [_; areasRoot config])))
      as [d|] eqn:Ha; [|done].
    injection Hparent as <- <-. unfold bind.
    rewrite (findWork_no_parent config fs _ _ _ Hprojects Hp).
    by rewrite (findWork_found config fs Hwf _ _ _ _ _ _ Ha Hfolders Honly).
Qed.

Lemma replaceStr_prefix pat s : replaceStr pat [] (pat ++ s) = s.
Proof. destruct (pat ++ s) eqn:E; simpl; rewrite <- E, stripPrefix_app; done. Qed.

(** Up to the move itself: [markWork] finds the one item, makes sure the
    target folder is there, reads the file and rewrites its text. *)
Lemma markWork_moves
    (toLowerCase : jsstring → jsstring) (config : Config) (fs : vault)
    (folderPrefix item status root dir folder name content : jsstring) :
  let statusLower := toLowerCase status in
  let workPath := join [vaultPath config; root; dir; js "work"] in
  let source := workPath ++ [folder; name] in
  let targetFileName :=
    if isLit statusLower "done" then replaceStr (item ++ [underscore]) [] name else name in
  let target := workPath ++ [statusLower; targetFileName] in
  statusLower ∈ statusFolders →
  wfVault fs →
  notFile fs (join [vaultPath config; projectsRoot config]) →
  parentContainer config fs folderPrefix = Some (root, dir) →
  Forall (λ f, notFile fs (workPath ++ [f])) statusFolders →
  onlyItem fs workPath item folder name →
  plain targetFileName →
  readFileSync fs source = Some content →
  ∃ fs1,
    stat fs1 (workPath ++ [statusLower]) = Some Dir
    ∧ (∀ q, q ≠ workPath ++ [statusLower] → stat fs1 q = stat fs q)
    ∧ (is_Some (stat fs (workPath ++ [statusLower])) → fs1 = fs)
    ∧ markWork toLowerCase config folderPrefix item status fs
      = moveFile target (markWorkText statusLower content) source fs1.
Proof.
  intros statusLower workPath source targetFileName target Hstatus Hwf Hprojects
    Hparent Hfolders Honly Hplain Hcontent.
  pose proof Honly as (Hfolder & Hlisted & Hstarts & _).
  assert (stat fs workPath = Some Dir) as Hwork.
  { apply elem_of_listing in Hlisted as [Hstatusdir _].
    rewrite stat_snoc in Hstatusdir.
    apply (wfVault_lookup _ _ _ Hwf) in Hstatusdir as [_ Hup].
    by rewrite removelast_snoc in Hup. }
  assert (notFile fs (workPath ++ [statusLower])) as Hdir
    by (rewrite Forall_forall in Hfolders; by apply Hfolders).
  destruct (ensureDir_child fs workPath statusLower Hwf Hwork Hdir)
    as (fs1 & Hensure & Hdirthere & Hframe).
  assert (source ≠ workPath ++ [statusLower]) as Hsd.
  { unfold source. intros H%(f_equal length). rewrite !length_app in H. simpl in H. lia. }
  assert (removelast target = workPath ++ [statusLower]) as Hup.
  { unfold target. change [statusLower; targetFileName]
      with ([statusLower] ++ [targetFileName]).
    rewrite app_assoc. apply removelast_snoc. }
  exists fs1. split_and!; [done..| |].
  { intros Hthere. unfold ensureDir in Hensure.
    apply existsSync_true in Hthere. rewrite Hthere in Hensure. by simplify_eq. }
  unfold markWork. fold statusLower.
  assert (statusLower ∈ validStatuses) as Hvalid by done.
  rewrite (bool_decide_eq_true_2 _ Hvalid). cbn [negb].
  etrans; [by apply (markWork_search config fs folderPrefix item root dir folder name)|].
  cbv beta iota. fold workPath source targetFileName.
  assert (join ([vaultPath config] ++ [root; dir] ++ [js "work"; statusLower; targetFileName])
          = target) as ->.
  { change ([vaultPath config] ++ [root; dir] ++ [js "work"; statusLower; targetFileName])
      with ([vaultPath config; root; dir; js "work"] ++ [statusLower; targetFileName]).
    unfold join. rewrite joinAt_app. fold (join [vaultPath config; root; dir; js "work"]).
    fold workPath. apply joinAt_plain.
    apply Forall_cons_2; [by apply statusFolders_plain|].
    apply Forall_cons_2; [done|]. apply Forall_nil_2. }
  unfold dirname. rewrite Hup.
  unfold bind, perform, attempt. rewrite Hensure.
  assert (readFileSync fs1 source = Some content) as ->
    by (unfold readFileSync in *; by rewrite (Hframe source Hsd)).
  done.
Qed.

(** The move between two different paths. *)
Lemma moveFile_distinct fs target text source content :
  source ≠ target → source ≠ [] → target ≠ [] →
  stat fs (dirname target) = Some Dir → stat fs target ≠ Some Dir →
  stat fs source = Some (File content) →
  moveFile target text source fs = Return tt (delete source (<[target := File text]> fs)).
Proof.
  intros Hst Hs Ht Hparent Htarget Hsource.
  unfold moveFile, writeFileSync, unlinkSync. rewrite Hparent.
  assert (stat (<[target := File text]> fs) source = Some (File content)) as Hsrc
    by (by rewrite stat_insert, decide_False).
  destruct (stat fs target) as [[?|]|]; try done; by rewrite Hsrc.
Qed.

(** C6, as the code has it.  In a vault that is a file tree, where the
    projects root and the status folders are not regular files, let the
    parent container for the prefix (the first match in the sorted listing
    of the projects root, then of the areas root) hold exactly one entry
    [<item>_<rest>] in the status folders of its work folder: a file, with
    [<rest>] a plain name, and [work/done/<rest>] not a directory.  Then
    [mark work --status done] ends well, and afterwards that file is gone
    from where it was; [work/done/<rest>] holds its text with the status
    field set to [Done] and the tag line cut out (the line break before it,
    the blanks in front, [- status/<old>] up to the end of the line);
    everything else in the vault is as before, but for the folder
    [work/done] being there. *)
Theorem markWork_done_relocates
    (toLowerCase : jsstring → jsstring) (config : Config) (fs : vault)
    (folderPrefix item status root dir folder name remainder content : jsstring) :
  let workPath := join [vaultPath config; root; dir; js "work"] in
  let source := workPath ++ [folder; name] in
  let target := workPath ++ [js "done"; remainder] in
  toLowerCase status = js "done" →
  wfVault fs →
  notFile fs (join [vaultPath config; projectsRoot config]) →
  parentContainer config fs folderPrefix = Some (root, dir) →
  Forall (λ f, notFile fs (workPath ++ [f])) statusFolders →
  onlyItem fs workPath item folder name →
  name = item ++ [underscore] ++ remainder → plain remainder →
  readFileSync fs source = Some content →
  stat fs target ≠ Some Dir →
  ∃ fs',
    markWork toLowerCase config folderPrefix item status fs = Return tt fs'
    ∧ stat fs' source = None
    ∧ readFileSync fs' target
      = Some (replaceFirst statusTagLine (λ _, []) None
                (replaceFirst statusField (λ _, js "status: Done") None content))
    ∧ (∀ head indent old tail,
         replaceFirst statusField (λ _, js "status: Done") None content
         = head ++ newline :: indent ++ js "- status/" ++ old ++ tail →
         occurs (js "- status/") head = false → blankAfterBreak head = false →
         forallb isSpace indent = true → old ≠ [] → newline ∉ old →
         lineEnd tail = true →
         readFileSync fs' target = Some (head ++ tail))
    ∧ (∀ q, q ≠ source → q ≠ target → q ≠ workPath ++ [js "done"] →
            stat fs' q = stat fs q).
Proof.
  intros workPath source target Hstatus Hwf Hprojects Hparent Hfolders Honly
    Hname Hrest Hcontent Htarget.
  assert (replaceStr (item ++ [underscore]) [] name = remainder) as Hstrip
    by (rewrite Hname, (app_assoc item); apply replaceStr_prefix).
  destruct (markWork_moves toLowerCase config fs folderPrefix item status
              root dir folder name content) as (fs1 & Hdonedir & Hframe & _ & Hrun);
    try done; rewrite ?Hstatus.
  { apply (bool_decide_unpack _). by vm_compute. }
  { change (isLit (js "done") "done") with true. cbv iota. by rewrite Hstrip. }
  rewrite Hstatus in Hdonedir, Hframe, Hrun.
  change (isLit (js "done") "done") with true in Hrun. cbv iota in Hrun.
  rewrite Hstrip in Hrun. fold workPath source target in Hdonedir, Hframe, Hrun.
  set (text := replaceFirst statusTagLine (λ _, []) None
                 (replaceFirst statusField (λ _, js "status: Done") None content)).
  change (markWorkText (js "done") content) with text in Hrun.
  assert (source ≠ workPath ++ [js "done"]) as Hsd.
  { unfold source. intros H%(f_equal length). rewrite !length_app in H. simpl in H. lia. }
  assert (target ≠ workPath ++ [js "done"]) as Htd.
  { unfold target. intros H%(f_equal length). rewrite !length_app in H. simpl in H. lia. }
  assert (source ≠ target) as Hst.
  { unfold source, target. intros H%app_inv_head. injection H as _ H.
    rewrite Hname in H. apply (f_equal length) in H.
    rewrite !length_app in H. simpl in H. lia. }
  assert (removelast target = workPath ++ [js "done"]) as Hup.
  { unfold target. change [js "done"; remainder] with ([js "done"] ++ [remainder]).
    rewrite app_assoc. apply removelast_snoc. }
  assert (source ≠ []) as Hsne by (unfold source; by destruct workPath).
  assert (target ≠ []) as Htne by (unfold target; by destruct workPath).
  rewrite (moveFile_distinct fs1 target text source content) in Hrun; try done.
  - exists (delete source (<[target := File text]> fs1)).
    assert (readFileSync (delete source (<[target := File text]> fs1)) target = Some text)
      as Hread.
    { unfold readFileSync. rewrite stat_delete, decide_False by done.
      by rewrite stat_insert, decide_True. }
    split_and!; [done| | done | |].
    + by rewrite stat_delete, decide_True.
    + intros head indent old tail Hshape ? ? ? ? ? ?. rewrite Hread. f_equal.
      unfold text. rewrite Hshape. by apply statusTagLine_removed.
    + intros q Hq1 Hq2 Hq3.
      rewrite stat_delete, decide_False by done.
      rewrite stat_insert, decide_False by done. by apply Hframe.
  - unfold dirname. by rewrite Hup.
  - by rewrite (Hframe target Htd).
  - rewrite (Hframe source Hsd). unfold readFileSync in Hcontent.
    destruct (stat fs source) as [[?|]|]; by simplify_eq.
Qed.

Lemma markWork_done_relocates_witness :
  let workPath := join [vaultPath demoConfig; js "01_projects"; js "ab_site"; js "work"] in
  let source := workPath ++ [js "active"; js "xy_task.md"] in
  let target := workPath ++ [js "done"; js "task.md"] in
  ∃ fs',
    markWork asciiLower demoConfig (js "ab") (js "xy") (js "done") demoVault = Return tt fs'
    ∧ stat fs' source = None
    ∧ readFileSync fs' target
      = Some (replaceFirst statusTagLine (λ _, []) None
                (replaceFirst statusField (λ _, js "status: Done") None
                   (taskText "Active" "active")))
    ∧ (∀ head indent old tail,
         replaceFirst statusField (λ _, js "status: Done") None (taskText "Active" "active")
         = head ++ newline :: indent ++ js "- status/" ++ old ++ tail →
         occurs (js "- status/") head = false → blankAfterBreak head = false →
         forallb isSpace indent = true → old ≠ [] → newline ∉ old →
         lineEnd tail = true →
         readFileSync fs' target = Some (head ++ tail))
    ∧ (∀ q, q ≠ source → q ≠ target → q ≠ workPath ++ [js "done"] →
            stat fs' q = stat demoVault q).
Proof.
  apply (markWork_done_relocates asciiLower demoConfig demoVault
           (js "ab") (js "xy") (js "done") (js "01_projects") (js "ab_site")
           (js "active") (js "xy_task.md") (js "task.md") (taskText "Active" "active")).
  - reflexivity.
  - apply (bool_decide_unpack _). by vm_compute.
  - intros text Hstat. by vm_compute in Hstat.
  - vm_compute. reflexivity.
  - repeat (apply Forall_cons_2; [intros text Hstat; by vm_compute in Hstat|]).
    apply Forall_nil_2.
  - apply (bool_decide_unpack _). by vm_compute.
  - reflexivity.
  - apply (bool_decide_unpack _). by vm_compute.
  - vm_compute. reflexivity.
  - by vm_compute.
Defined.

(** C6 as stated fails.  In [blockedVault] the parent container [ab_site]
    holds exactly one entry starting with [xy_] across its status folders,
    the file [work/active/xy_task.md]; but [work/done/task.md] is a
    directory.  The write to it throws, the handler around the move reports
    the error and the command exits with code 1: nothing is relocated, the
    file is where it was. *)
Lemma markWork_done_blocked_by_directory :
  let workPath := join [vaultPath demoConfig; js "01_projects"; js "ab_site"; js "work"] in
  let source := workPath ++ [js "active"; js "xy_task.md"] in
  let target := workPath ++ [js "done"; js "task.md"] in
  let run := markWork asciiLower demoConfig (js "ab") (js "xy") (js "done") blockedVault in
  wfVault blockedVault
  ∧ parentContainer demoConfig blockedVault (js "ab") = Some (js "01_projects", js "ab_site")
  ∧ onlyItem blockedVault workPath (js "xy") (js "active") (js "xy_task.md")
  ∧ readFileSync blockedVault source = Some (taskText "Active" "active")
  ∧ stat blockedVault target = Some Dir
  ∧ exitCode run = Some 1%nat
  ∧ failureOf run = Some MoveError
  ∧ readFileSync (vaultAfter run) source = Some (taskText "Active" "active")
  ∧ readFileSync (vaultAfter run) target = None.
Proof.
  split_and!;
    [apply (bool_decide_unpack _); by vm_compute
    |vm_compute; reflexivity
    |apply (bool_decide_unpack _); by vm_compute
    |vm_compute; reflexivity..].
Qed.

(** The first match of [find] is the first in the sorted listing.  In
    [twinVault] the item lies in [ab_docs], but [ab_alpha] comes first and
    has no work folder, and no area starts with [ab_]: [mark work] does not
    find the item, and [mark post] looks in [cd_alpha] alone. *)
Lemma mark_takes_the_first_sorted_match :
  listing twinVault (js <$> ["vault"; "01_projects"]%string) = [js "ab_alpha"; js "ab_docs"]
  ∧ parentContainer demoConfig twinVault (js "ab") = Some (js "01_projects", js "ab_alpha")
  ∧ failureOf (markWork asciiLower demoConfig (js "ab") (js "xy") (js "done") twinVault)
    = Some ItemNotFound
  ∧ listing twinVault (js <$> ["vault"; "02_areas"]%string) = [js "cd_alpha"; js "cd_health"]
  ∧ failureOf (markPost asciiLower demoConfig (js "cd") (js "abc") (js "done") twinVault)
    = Some ItemNotFound.
Proof. split_and!; vm_compute; reflexivity. Qed.

(** The text the first conjunct speaks of, for the item of the example
    vault: the field is rewritten and the tag line is gone. *)
Example markWork_done_text :
  replaceFirst statusTagLine (λ _, []) None
    (replaceFirst statusField (λ _, js "status: Done") None (taskText "Active" "active"))
  = js "---" ++ [newline] ++ js "status: Done" ++ [newline]
    ++ js "tags:" ++ [newline] ++ js "  - work" ++ [newline]
    ++ js "---" ++ [newline] ++ js "# Task".
Proof. vm_compute. reflexivity. Qed.

(** The defect behind C1, in general: whenever the only item of the parent
    container already lies in the folder of the requested status (other than
    [done]), [markWork] ends well and no entry with the item's code is left
    in any of the four status folders. *)
Lemma markWork_same_status_deletes
    (toLowerCase : jsstring → jsstring) (config : Config) (fs : vault)
    (folderPrefix item status root dir folder name content : jsstring) :
  let workPath := join [vaultPath config; root; dir; js "work"] in
  let source := workPath ++ [folder; name] in
  toLowerCase status = folder → folder ≠ js "done" →
  wfVault fs →
  notFile fs (join [vaultPath config; projectsRoot config]) →
  parentContainer config fs folderPrefix = Some (root, dir) →
  Forall (λ f, notFile fs (workPath ++ [f])) statusFolders →
  onlyItem fs workPath item folder name →
  readFileSync fs source = Some content →
  ∃ fs',
    markWork toLowerCase config folderPrefix item status fs = Return tt fs'
    ∧ stat fs' source = None
    ∧ ∀ f n, f ∈ statusFolders → n ∈ listing fs' (workPath ++ [f]) →
             startsWith n (item ++ [underscore]) = false.
Proof.
  intros workPath source Hstatus Hnotdone Hwf Hprojects Hparent Hfolders Honly Hcontent.
  pose proof Honly as (Hfolder & Hlisted & Hstarts & _).
  assert (isLit folder "done" = false) as Hlit by (by apply bool_decide_eq_false_2).
  destruct (markWork_moves toLowerCase config fs folderPrefix item status
              root dir folder name content) as (fs1 & _ & _ & Hsame & Hrun);
    try done; rewrite ?Hstatus, ?Hlit; try done.
  { by eapply listing_plain. }
  rewrite Hstatus in Hrun, Hsame. rewrite Hlit in Hrun.
  fold workPath source in Hrun, Hsame.
  apply elem_of_listing in Hlisted as Hthere. destruct Hthere as [Hdir _].
  rewrite Hsame in Hrun by (by rewrite Hdir). clear Hsame fs1.
  assert (source ≠ []) as Hsne by (unfold source; by destruct workPath).
  assert (removelast source = workPath ++ [folder]) as Hup.
  { unfold source. change [folder; name] with ([folder] ++ [name]).
    rewrite app_assoc. apply removelast_snoc. }
  destruct (moveFile_same_path fs source (markWorkText folder content)
              (<[source := File (markWorkText folder content)]> fs)) as [Hmove Hgone].
  { unfold writeFileSync, dirname. rewrite Hup, Hdir.
    unfold readFileSync in Hcontent. by destruct (stat fs source) as [[?|]|]. }
  exists (delete source fs). split_and!; [by rewrite Hrun|done|].
  intros f n Hf Hn. apply elem_of_listing in Hn as [Hfdir [e He]].
  destruct (startsWith n (item ++ [underscore])) eqn:Hn; [exfalso|done].
  assert (workPath ++ [f] ≠ source) as Hfs.
  { unfold source. intros H%(f_equal length). rewrite !length_app in H. simpl in H. lia. }
  rewrite stat_delete, decide_False in Hfdir by done.
  destruct (decide (source = (workPath ++ [f]) ++ [n])) as [Heq|Hne].
  - rewrite <- Heq, lookup_delete_eq in He. done.
  - rewrite lookup_delete_ne in He by done.
    destruct (onlyItem_spec _ _ _ _ _ Honly f n) as [-> ->]; try done.
    + apply elem_of_listing. eauto.
    + apply Hne. unfold source. by rewrite <- app_assoc.
Qed.

(** * Further properties *)

(** ** Failures that leave the vault as it was *)

Lemma reader_ret {A} (a : A) : reader (ret a).
Proof. done. Qed.

Lemma reader_exit {A} why : reader (@exit A 1 why).
Proof. done. Qed.

Lemma reader_ask {A} (f : vault → A) : reader (ask f).
Proof. done. Qed.

Lemma reader_attempt {A} (f : vault → option A) : reader (attempt f).
Proof. intros fs. unfold attempt. by destruct (f fs). Qed.

Lemma reader_sampled r : reader (sampled r).
Proof. intros fs. by destruct r. Qed.

Lemma reader_bind {A B} (m : M A) (k : A → M B) :
  reader m → (∀ a, reader (k a)) → reader (bind m k).
Proof.
  intros Hm Hk fs. unfold bind. specialize (Hm fs).
  destruct (m fs) as [a fs1|code why fs1|fs1]; [subst; apply Hk|done..].
Qed.

Ltac reader :=
  repeat first
    [ apply reader_ret | apply reader_exit | apply reader_ask
    | apply reader_attempt | apply reader_sampled
    | assumption
    | apply reader_bind; [|intros ?]
    | match goal with
      | |- reader (if ?b then _ else _) => destruct b
      | |- reader (match ?x with _ => _ end) => destruct x
      | |- reader (let '(_, _) := ?x in _) => destruct x
      end ].

Lemma reader_collectCodes n base folders existing :
  reader (collectCodes n base folders existing).
Proof.
  revert existing. induction folders as [|folder folders IH]; intros existing; simpl;
    reader; apply IH.
Qed.

Lemma reader_generateUniquePrefix config rnd : reader (generateUniquePrefix config rnd).
Proof. unfold generateUniquePrefix. reader. Qed.

Lemma reader_validatePrefixUnique config prefix :
  reader (validatePrefixUnique config prefix).
Proof. unfold validatePrefixUnique. reader. Qed.

Lemma reader_createEntity_vars toLowerCase config today rnd type title options :
  reader (createEntity_vars toLowerCase config today rnd type title options).
Proof.
  unfold createEntity_vars.
  destruct (templates config !! _) as [tpl|]; [|reader].
  reader;
    first [ apply reader_generateUniquePrefix | apply reader_validatePrefixUnique
          | apply reader_collectCodes ].
Qed.

Lemma reader_findItem base code folders : reader (findItem base code folders).
Proof. induction folders as [|folder folders IH]; simpl; reader. Qed.

Lemma reader_findWork config root folderPrefix itemPrefix :
  reader (findWork config root folderPrefix itemPrefix).
Proof. unfold findWork. reader; apply reader_findItem. Qed.

Lemma tidy_exit {A} crash fs why : tidy crash fs (@exit A 1 why fs).
Proof. done. Qed.

Lemma tidy_reader {A B} crash (m : M A) (k : A → M B) fs :
  reader m → (∀ a, tidy crash fs (k a fs)) → tidy crash fs (bind m k fs).
Proof.
  intros Hm Hk. unfold bind. specialize (Hm fs).
  destruct (m fs) as [a fs1|code why fs1|fs1]; [subst; apply Hk| |done].
  destruct Hm as [-> ->]. done.
Qed.

Lemma tidy_crashing {A} (crash : failure → Prop) (m : M A) fs fs1 :
  crashing crash m → tidy crash fs (m fs1).
Proof.
  intros Hm. specialize (Hm fs1). unfold tidy.
  destruct (m fs1) as [| code why fs2 |]; [done| |done].
  destruct Hm as [-> Hwhy]. split; [done|]. by intros [].
Qed.

Lemma crashing_ret {A} crash (a : A) : crashing crash (ret a).
Proof. done. Qed.

Lemma crashing_perform (crash : failure → Prop) f : crash Uncaught → crashing crash (perform f).
Proof. intros Hc fs. unfold perform. by destruct (f fs). Qed.

Lemma crashing_attempt {A} (crash : failure → Prop) (f : vault → option A) :
  crash Uncaught → crashing crash (attempt f).
Proof. intros Hc fs. unfold attempt. by destruct (f fs). Qed.

Lemma crashing_bind {A B} crash (m : M A) (k : A → M B) :
  crashing crash m → (∀ a, crashing crash (k a)) → crashing crash (bind m k).
Proof.
  intros Hm Hk fs. unfold bind. specialize (Hm fs).
  destruct (m fs) as [a fs1|code why fs1|fs1]; [apply Hk|done..].
Qed.

Lemma crashing_writeFiles crash folderPath vars fileDefs :
  crash Uncaught → crashing crash (writeFiles folderPath vars fileDefs).
Proof.
  intros Hc. induction fileDefs as [|fileDef fileDefs IH]; simpl.
  - apply crashing_ret.
  - repeat (apply crashing_bind; [by apply crashing_perform|intros _]). done.
Qed.

Lemma crashing_moveFile (crash : failure → Prop) target content source :
  crash MoveError → crashing crash (moveFile target content source).
Proof.
  intros Hc fs. unfold moveFile.
  destruct (writeFileSync fs target content) as [written|]; [|done].
  by destruct (unlinkSync written source).
Qed.

Lemma tidy_createEntity_write config tpl vars fs :
  tidy (λ why, why = Uncaught) fs (createEntity_write config tpl vars fs).
Proof.
  unfold createEntity_write. destruct (truthy (filePath tpl)).
  - apply tidy_reader; [apply reader_ask|]. intros [|]; [apply tidy_exit|].
    apply tidy_crashing.
    apply crashing_bind; [by apply crashing_perform|intros _].
    apply crashing_bind; [by apply crashing_attempt|intros body].
    by apply crashing_perform.
  - unfold bind at 1, attempt.
    destruct (folderPattern tpl) as [pattern|]; [|done].
    apply tidy_reader; [apply reader_ask|]. intros [|]; [apply tidy_exit|].
    apply tidy_crashing.
    apply crashing_bind; [by apply crashing_perform|intros _].
    apply crashing_bind; [by apply crashing_attempt|intros fileDefs].
    by apply crashing_writeFiles.
Qed.

Lemma tidy_createEntity toLowerCase config today rnd type title options fs :
  tidy (λ why, why = Uncaught) fs
    (createEntity toLowerCase config today rnd type title options fs).
Proof.
  unfold createEntity. apply tidy_reader; [apply reader_createEntity_vars|].
  intros [tpl vars]. apply tidy_createEntity_write.
Qed.

Lemma tidy_newResourceFile toLowerCase config today actualTitle prefix resourceDir opts fs :
  tidy (λ why, why = Uncaught) fs
    (newResourceFile toLowerCase config today actualTitle prefix resourceDir opts fs).
Proof.
  unfold newResourceFile.
  apply tidy_reader; [apply reader_ask|]. intros [|]; [apply tidy_exit|].
  apply tidy_crashing.
  apply crashing_bind; [by apply crashing_perform|intros _].
  apply crashing_bind; [by apply crashing_attempt|intros body].
  by apply crashing_perform.
Qed.

(** X1.  Every failure that [new] detects leaves the vault as it was: when
    an invocation ends in a failure, the status is 1, and unless the failure
    is an exception nobody caught, no entry of the vault has changed. *)
Theorem new_failure_leaves_vault
    (toLowerCase : jsstring → jsstring) (config : Config) (today : jsstring)
    (rnd : list (fin 26)) (type : jsstring) (title : option jsstring) (opts : Options)
    (fs fs' : vault) (code : nat) (why : failure) :
  newAction toLowerCase config today rnd type title opts fs = Exit code why fs' →
  code = 1%nat ∧ (why ≠ Uncaught → fs' = fs).
Proof.
  intros Hout.
  destruct (newAction_dispatched toLowerCase config today rnd type title opts fs)
    as [[why' H]|[(type' & opts' & H)|(prefix & resourceDir & H)]];
    rewrite H in Hout.
  - by injection Hout as <- <- <-.
  - pose proof (tidy_createEntity toLowerCase config today rnd type'
                  (orElse title (js "Untitled")) opts' fs) as Htidy.
    by rewrite Hout in Htidy.
  - pose proof (tidy_newResourceFile toLowerCase config today
                  (orElse title (js "Untitled")) prefix resourceDir opts fs) as Htidy.
    by rewrite Hout in Htidy.
Qed.

Lemma new_failure_leaves_vault_witness :
  1%nat = 1%nat ∧ (PrefixRequired ≠ Uncaught → demoVault = demoVault).
Proof.
  apply (new_failure_leaves_vault asciiLower demoConfig (js "2025-01-01") []
           (js "work") (Some (js "Fix the build")) noOptions
           demoVault demoVault 1 PrefixRequired).
  reflexivity.
Defined.

Lemma tidy_markWork toLowerCase config folderPrefix itemPrefix status fs :
  tidy (λ why, why = Uncaught ∨ why = MoveError) fs
    (markWork toLowerCase config folderPrefix itemPrefix status fs).
Proof.
  unfold markWork. destruct (negb _); [apply tidy_exit|].
  apply tidy_reader; [apply reader_findWork|]. intros inProjects.
  apply tidy_reader; [destruct inProjects; [apply reader_ret|apply reader_findWork]|].
  intros [[[sourcePath sourceFolder] fileName]|]; [|apply tidy_exit].
  apply tidy_crashing.
  apply crashing_bind; [apply crashing_perform; by left|intros _].
  apply crashing_bind; [apply crashing_attempt; by left|intros content].
  apply crashing_moveFile. by right.
Qed.

Lemma tidy_markPost toLowerCase config areaPrefix postPrefix status fs :
  tidy (λ why, why = Uncaught ∨ why = MoveError) fs
    (markPost toLowerCase config areaPrefix postPrefix status fs).
Proof.
  unfold markPost. destruct (negb _); [apply tidy_exit|].
  apply tidy_reader; [apply reader_ask|]. intros hasAreas.
  apply tidy_reader.
  { destruct hasAreas; [|apply reader_ret].
    apply reader_bind; [apply reader_attempt|]. intros areaDirs.
    destruct (findByPrefix areaPrefix areaDirs); [|apply reader_ret].
    apply reader_bind; [apply reader_findItem|]. intros found. apply reader_ret. }
  intros [[[sourcePath sourceFolder] fileName]|]; [|apply tidy_exit].
  apply tidy_crashing.
  apply crashing_bind; [apply crashing_perform; by left|intros _].
  apply crashing_bind; [apply crashing_attempt; by left|intros content].
  apply crashing_moveFile. by right.
Qed.

(** X2.  Every failure that [mark] detects leaves the vault as it was: a
    type other than work and post, a prefix or item code of the wrong
    length, a status that is not one of the four, an item that is not found.
    Only an exception or a failed move can end with a changed vault; in all
    cases the status is 1. *)
Theorem mark_failure_leaves_vault
    (toLowerCase : jsstring → jsstring) (config : Config)
    (type prefix item status : jsstring) (fs fs' : vault) (code : nat) (why : failure) :
  markAction toLowerCase config type prefix item status fs = Exit code why fs' →
  code = 1%nat ∧ (why ≠ Uncaught → why ≠ MoveError → fs' = fs).
Proof.
  intros Hout.
  assert (tidy (λ why, why = Uncaught ∨ why = MoveError) fs
            (markAction toLowerCase config type prefix item status fs)) as Htidy.
  { unfold markAction.
    repeat match goal with
           | |- tidy _ _ ((if ?b then _ else _) _) => destruct b
           end;
      first [ apply tidy_exit | apply tidy_markWork | apply tidy_markPost ]. }
  rewrite Hout in Htidy. destruct Htidy as [-> Hclean]. split; [done|].
  intros H1 H2. apply Hclean. by intros [?|?].
Qed.

Lemma mark_failure_leaves_vault_witness :
  1%nat = 1%nat ∧ (InvalidStatus ≠ Uncaught → InvalidStatus ≠ MoveError → demoVault = demoVault).
Proof.
  apply (mark_failure_leaves_vault asciiLower demoConfig
           (js "work") (js "ab") (js "xy") (js "finished")
           demoVault demoVault 1 InvalidStatus).
  reflexivity.
Defined.

(** ** mark: the status field and the status tag *)

Lemma stripPrefix_straddle p h s :
  unbordered p = true → h ≠ [] → stripPrefix p h = None →
  stripPrefix p (h ++ p ++ s) = None.
Proof.
  intros Hp Hh Hnone.
  destruct (stripPrefix p (h ++ p ++ s)) as [r|] eqn:E; [|done]. exfalso.
  apply stripPrefix_Some in E.
  destruct (le_lt_dec (length p) (length h)) as [Hle|Hlt].
  - apply (f_equal (take (length p))) in E.
    rewrite take_app_le, take_app_length in E by done.
    assert (stripPrefix p h = Some (drop (length p) h)) as Hsome
      by (apply stripPrefix_Some; rewrite <- E at 1; by rewrite take_drop).
    congruence.
  - assert (h = take (length h) p) as Hhead.
    { apply (f_equal (take (length h))) in E.
      rewrite take_app_length, take_app_le in E by lia. done. }
    assert (p ++ s = drop (length h) p ++ r) as Htail.
    { apply (f_equal (drop (length h))) in E.
      rewrite drop_app_length, drop_app_le in E by lia. done. }
    apply (f_equal (take (length p - length h))) in Htail.
    rewrite take_app_le in Htail by lia.
    rewrite take_app_le in Htail by (rewrite length_drop; lia).
    rewrite (take_ge (drop _ _)) in Htail by (rewrite length_drop; lia).
    unfold unbordered in Hp. rewrite forallb_forall in Hp.
    specialize (Hp (length p - length h)%nat).
    rewrite negb_true_iff, bool_decide_eq_false in Hp. apply Hp.
    + apply in_seq. destruct h; [done|]. simpl in *. lia.
    + rewrite Htail. f_equal. lia.
Qed.

Lemma statusField_miss prev c h tail :
  occurs (js "status: ") (c :: h) = false →
  statusField prev (c :: h ++ js "status: " ++ tail) = None.
Proof.
  intros Hocc.
  assert (stripPrefix (js "status: ") (c :: h ++ js "status: " ++ tail) = None) as Hmiss.
  { change (c :: h ++ js "status: " ++ tail) with ((c :: h) ++ js "status: " ++ tail).
    apply stripPrefix_straddle; [by vm_compute | done |].
    by apply occurs_false_here. }
  unfold statusField. rewrite Hmiss.
  destruct prev as [d|]; [by destruct (isLineTerminator d)|done].
Qed.

(** The first [status: ] field at the start of a line is replaced, up to
    the end of its line. *)
Lemma statusField_rewritten prev head old tail repl :
  occurs (js "status: ") head = false → lineStartAfter prev head = true →
  old ≠ [] → forallb (λ c, negb (isLineTerminator c)) old = true →
  (∀ c t, tail = c :: t → isLineTerminator c = true) →
  replaceFirst statusField (λ _, repl) prev (head ++ js "status: " ++ old ++ tail)
  = head ++ repl ++ tail.
Proof.
  intros Hocc Hstart Hold Holdline Htail. revert prev Hocc Hstart.
  induction head as [|c head IH]; intros prev Hocc Hstart.
  - rewrite !app_nil_l.
    assert (statusField prev (js "status: " ++ old ++ tail)
            = Some (Hit (js "status: " ++ old) [] tail)) as Hhit.
    { unfold statusField, lineStartAfter in *. simpl last in Hstart.
      destruct prev as [d|].
      - rewrite Hstart, stripPrefix_app, (span_app _ old tail); [by destruct old|done|].
        intros d' t Ht. by rewrite (Htail d' t Ht).
      - rewrite stripPrefix_app, (span_app _ old tail); [by destruct old|done|].
        intros d' t Ht. by rewrite (Htail d' t Ht). }
    destruct (js "status: " ++ old ++ tail) eqn:E; [done|].
    simpl. by rewrite Hhit.
  - rewrite <- app_comm_cons. cbn [replaceFirst].
    rewrite statusField_miss by done. simpl. f_equal. apply IH; [by eapply occurs_false_tail|].
    unfold lineStartAfter in *. rewrite last_cons in Hstart. by destruct (last head).
Qed.

Lemma lazyUntilTag_first mid old tail :
  occurs (js "- status/") mid = false → old ≠ [] → newline ∉ old → lineEnd tail = true →
  lazyUntilTag (mid ++ js "- status/" ++ old ++ tail) = Some (mid, old, tail).
Proof.
  intros Hocc Hold Hnl Htail. induction mid as [|c mid IH].
  - rewrite app_nil_l.
    assert (statusTagAt (js "- status/" ++ old ++ tail) = Some (old, tail)) as Hhit.
    { unfold statusTagAt. rewrite stripPrefix_app, (span_app _ old tail).
      - by destruct old.
      - by apply notin_forallb.
      - intros d t ->. simpl in Htail. by rewrite Htail. }
    destruct (js "- status/" ++ old ++ tail) eqn:E; [done|].
    simpl. by rewrite Hhit.
  - rewrite <- app_comm_cons. cbn [lazyUntilTag].
    assert (statusTagAt (c :: mid ++ js "- status/" ++ old ++ tail) = None) as ->.
    { unfold statusTagAt.
      change (c :: mid ++ js "- status/" ++ old ++ tail)
        with ((c :: mid) ++ js "- status/" ++ old ++ tail).
      rewrite stripPrefix_straddle; [done| by vm_compute | done |].
      by apply occurs_false_here. }
    by rewrite IH by (by eapply occurs_false_tail).
Qed.

(** The first status tag after the first [tags:] line is replaced, up to the
    end of its line; what stands between the two is kept. *)
Lemma tagsBlock_rewritten prev head mid old tail statusLower :
  occurs (js "tags:" ++ [newline]) head = false →
  occurs (js "- status/") mid = false → old ≠ [] → newline ∉ old → lineEnd tail = true →
  replaceFirst tagsBlock
    (λ h, js "tags:" ++ [newline] ++ group1 h ++ js "- status/" ++ statusLower) prev
    (head ++ js "tags:" ++ [newline] ++ mid ++ js "- status/" ++ old ++ tail)
  = head ++ js "tags:" ++ [newline] ++ mid ++ js "- status/" ++ statusLower ++ tail.
Proof.
  intros Hocc Hmid Hold Hnl Htail. revert prev Hocc.
  set (tags := js "tags:" ++ [newline]).
  set (after := mid ++ js "- status/" ++ old ++ tail).
  assert (∀ x : jsstring, js "tags:" ++ [newline] ++ x = tags ++ x) as Htags by done.
  rewrite !Htags.
  induction head as [|c head IH]; intros prev Hocc.
  - rewrite !app_nil_l.
    assert (tagsBlock prev (tags ++ after)
            = Some (Hit (js "tags:" ++ [newline] ++ mid ++ js "- status/" ++ old) mid tail))
      as Hhit.
    { unfold tagsBlock. fold tags. rewrite stripPrefix_app.
      unfold after. by rewrite lazyUntilTag_first. }
    destruct (tags ++ after) eqn:E; [done|].
    simpl. rewrite Hhit. simpl. by rewrite <- !app_assoc.
  - rewrite <- !app_comm_cons. cbn [replaceFirst].
    assert (tagsBlock prev (c :: head ++ tags ++ after) = None) as ->.
    { unfold tagsBlock. fold tags.
      change (c :: head ++ tags ++ after) with ((c :: head) ++ tags ++ after).
      rewrite stripPrefix_straddle; [done| by vm_compute | done |].
      by apply occurs_false_here. }
    f_equal. apply IH. by eapply occurs_false_tail.
Qed.

(** ** mark work: another status *)



(** X4.  The text [markWork] writes for a status other than [done].  Let
    the first [status: ] field of the file head a line, and let a [tags:]
    line follow it, and a status tag follow that line.  Then the value of
    the field, up to the end of its line, becomes the capitalised status,
    the value of the first status tag after the [tags:] line, up to the end
    of its line, becomes the status in lower case, and every other code
    unit of the file is kept. *)
Theorem markWork_text_rewritten
    (statusLower newStatus head oldStatus between tagsBefore oldTag tail : jsstring) :
  statusMap !! statusLower = Some newStatus → statusLower ≠ js "done" →
  lineStartAfter None head = true → occurs (js "status: ") head = false →
  oldStatus ≠ [] → forallb (λ c, negb (isLineTerminator c)) oldStatus = true →
  occurs (js "tags:" ++ [newline])
         (head ++ js "status: " ++ newStatus ++ newline :: between) = false →
  occurs (js "- status/") tagsBefore = false →
  oldTag ≠ [] → newline ∉ oldTag → lineEnd tail = true →
  markWorkText statusLower
    (head ++ js "status: " ++ oldStatus ++ newline :: between
     ++ js "tags:" ++ [newline] ++ tagsBefore ++ js "- status/" ++ oldTag ++ tail)
  = head ++ js "status: " ++ newStatus ++ newline :: between
    ++ js "tags:" ++ [newline] ++ tagsBefore ++ js "- status/" ++ statusLower ++ tail.
Proof.
  intros Hnew Hnotdone Hstart Hfield Hold Holdline Htags Htag HoldTag Hnl Htail.
  unfold markWorkText. rewrite Hnew. cbn [default].
  assert (isLit statusLower "done" = false) as -> by (by apply bool_decide_eq_false_2).
  rewrite (statusField_rewritten None head oldStatus _ (js "status: " ++ newStatus));
    [|done..|by intros c t [= <- _]].
  set (before := head ++ js "status: " ++ newStatus ++ newline :: between) in *.
  assert (head ++ (js "status: " ++ newStatus) ++ newline :: between
            ++ js "tags:" ++ [newline] ++ tagsBefore ++ js "- status/" ++ oldTag ++ tail
          = before ++ js "tags:" ++ [newline] ++ tagsBefore ++ js "- status/" ++ oldTag ++ tail)
    as ->.
  { unfold before. by rewrite <- !app_assoc. }
  rewrite tagsBlock_rewritten by done.
  unfold before. by rewrite <- !app_assoc.
Qed.

Lemma markWork_text_rewritten_witness :
  markWorkText (js "review") (taskText "Active" "active") = taskText "Review" "review".
Proof.
  apply (markWork_text_rewritten (js "review") (js "Review")
           (js "---" ++ [newline]) (js "Active") [] (js "  - work" ++ [newline] ++ js "  ")
           (js "active") ([newline] ++ js "---" ++ [newline] ++ js "# Task")).
  - reflexivity.
  - apply (bool_decide_unpack _). by vm_compute.
  - reflexivity.
  - reflexivity.
  - done.
  - reflexivity.
  - reflexivity.
  - reflexivity.
  - done.
  - apply (bool_decide_unpack _). by vm_compute.
  - reflexivity.
Defined.

(** ** Prefixes: generated and given *)

Lemma validatePrefixUnique_scan config prefix fs :
  notFile fs (join [vaultPath config; projectsRoot config]) →
  notFile fs (join [vaultPath config; areasRoot config]) →
  validatePrefixUnique config prefix fs
  = Return
      (negb (existsb (λ dir, startsWith dir (prefix ++ [underscore]))
                     (listing fs (join [vaultPath config; projectsRoot config]))
             || existsb (λ dir, startsWith dir (prefix ++ [underscore]))
                        (listing fs (join [vaultPath config; areasRoot config]))))
      fs.
Proof.
  intros Hp Ha. unfold validatePrefixUnique.
  etrans; [by apply (scan_root fs _ (existsb _) false)|]. cbv beta.
  destruct (existsb _ (listing fs (join [vaultPath config; projectsRoot config]))); [done|].
  etrans; [by apply (scan_root fs _ (existsb _) false)|]. done.
Qed.

Lemma validatePrefixUnique_taken config prefix fs :
  notFile fs (join [vaultPath config; projectsRoot config]) →
  notFile fs (join [vaultPath config; areasRoot config]) →
  ∃ unique, validatePrefixUnique config prefix fs = Return unique fs
            ∧ (unique = false ↔ prefixTaken config fs prefix).
Proof.
  intros Hp Ha. eexists. split; [by apply validatePrefixUnique_scan|].
  rewrite negb_false_iff, orb_true_iff, !existsb_exists. unfold prefixTaken. split.
  - intros [(dir & Hin & Hdir)|(dir & Hin & Hdir)]; apply list_elem_of_In in Hin; eauto 8.
  - intros (root & dir & [-> | ->] & Hin & Hdir); apply list_elem_of_In in Hin; eauto.
Qed.

Lemma startsWith_code dir code :
  length code = 2%nat → startsWith dir (code ++ [underscore]) = true →
  includes dir underscore = true ∧ substring0 2 dir = code.
Proof.
  intros Hlen [r Hr%stripPrefix_Some]%bool_decide_eq_true_1. subst dir. split.
  - apply includes_true. rewrite !elem_of_app. left. right. by left.
  - unfold substring0. rewrite <- app_assoc. by rewrite take_app_length'.
Qed.

(** X5.  A prefix that [generateUniquePrefix] returns is one that
    [validatePrefixUnique] accepts, on the same vault. *)
Theorem generateUniquePrefix_validates
    (config : Config) (rnd : list (fin 26)) (fs fs' : vault) (prefix : jsstring) :
  generateUniquePrefix config rnd fs = Return prefix fs' →
  validatePrefixUnique config prefix fs' = Return true fs'.
Proof.
  intros Hret. destruct (generateUniquePrefix_Return _ _ _ _ _ Hret) as [Hp Ha].
  rewrite (generateUniquePrefix_scan _ _ _ Hp Ha) in Hret. unfold sampled in Hret.
  destruct (sample2 _ rnd) as [sample|] eqn:Hs; [|done]. injection Hret as -> ->.
  apply sample2_Some in Hs as (Hfree & i & j & ->).
  destruct (validatePrefixUnique_taken config [letter i; letter j] fs' Hp Ha)
    as ([|] & Hrun & Htaken); [done|]. exfalso.
  destruct Htaken as [(root & dir & Hroot & Hin & Hdir) _]; [done|].
  apply startsWith_code in Hdir as [Hincl Htake]; [|done].
  apply Hfree. unfold scannedPrefixes.
  destruct Hroot as [-> | ->]; rewrite !elem_of_addPrefixes.
  - left. right. by exists dir.
  - right. by exists dir.
Qed.

Lemma generateUniquePrefix_validates_witness :
  validatePrefixUnique demoConfig (js "fg") demoVault = Return true demoVault.
Proof.
  apply (generateUniquePrefix_validates demoConfig
           [draw 0; draw 1; draw 2; draw 3; draw 5; draw 6] demoVault demoVault (js "fg")).
  rewrite generateUniquePrefix_scan by (intros text Hstat; by vm_compute in Hstat).
  assert (sample2 (scannedPrefixes demoConfig demoVault)
            [draw 0; draw 1; draw 2; draw 3; draw 5; draw 6] = Some (js "fg")) as ->
    by (vm_compute; reflexivity).
  reflexivity.
Defined.

Lemma crashing_exit {A} (crash : failure → Prop) why : crash why → crashing crash (@exit A 1 why).
Proof. intros Hwhy fs. by split. Qed.

Lemma crashing_ask {A} (crash : failure → Prop) (f : vault → A) : crashing crash (ask f).
Proof. by intros fs. Qed.

Lemma crashing_createEntity_write config tpl vars :
  crashing (λ why, why ≠ PrefixTaken) (createEntity_write config tpl vars).
Proof.
  unfold createEntity_write. destruct (truthy (filePath tpl)).
  - apply crashing_bind; [apply crashing_ask|]. intros [|]; [by apply crashing_exit|].
    apply crashing_bind; [by apply crashing_perform|]. intros _.
    apply crashing_bind; [by apply crashing_attempt|]. intros body.
    by apply crashing_perform.
  - apply crashing_bind; [by apply crashing_attempt|]. intros pattern.
    apply crashing_bind; [apply crashing_ask|]. intros [|]; [by apply crashing_exit|].
    apply crashing_bind; [by apply crashing_perform|]. intros _.
    apply crashing_bind; [by apply crashing_attempt|]. intros fileDefs.
    by apply crashing_writeFiles.
Qed.

(** X6.  [createEntity] for a project or an area with a prefix given: the
    run ends with "prefix already exists", status 1 and the vault as it
    was, when a folder of the projects root or of the areas root starts
    with [<prefix>_]; and it never ends that way when none does. *)
Theorem createEntity_rejects_taken_prefix
    (toLowerCase : jsstring → jsstring) (config : Config) (today : jsstring)
    (rnd : list (fin 26)) (type title prefix : jsstring) (options : Options)
    (tpl : EntityTemplate) (fs : vault) :
  type = js "project" ∨ type = js "area" →
  templates config !! type = Some tpl →
  o_prefix options = Some prefix → prefix ≠ [] →
  notFile fs (join [vaultPath config; projectsRoot config]) →
  notFile fs (join [vaultPath config; areasRoot config]) →
  (prefixTaken config fs prefix →
   createEntity toLowerCase config today rnd type title options fs = Exit 1 PrefixTaken fs)
  ∧ (¬ prefixTaken config fs prefix →
     ∀ code fs',
       createEntity toLowerCase config today rnd type title options fs
       ≠ Exit code PrefixTaken fs').
Proof.
  intros Htype Htpl Hprefix Hne Hp Ha.
  assert (truthy (Some prefix) = true) as Htruthy by (by destruct prefix).
  destruct (validatePrefixUnique_taken config prefix fs Hp Ha) as (unique & Hrun & Htaken).
  assert (createEntity toLowerCase config today rnd type title options fs
          = if unique
            then (let* (tpl, vars) :=
                    createEntity_vars toLowerCase config today rnd type title options in
                  createEntity_write config tpl vars) fs
            else Exit 1 PrefixTaken fs) as Hcreate.
  { destruct unique; [done|].
    unfold createEntity, createEntity_vars.
    destruct Htype as [-> | ->]; literal_type; rewrite Htpl, Hprefix, Htruthy;
      cbn [andb negb]; unfold bind, ret; cbv beta iota; rewrite Htruthy;
      cbn [andb default]; unfold id; by rewrite Hrun. }
  split.
  - intros Hyes. apply Htaken in Hyes. by rewrite Hcreate, Hyes.
  - intros Hno code fs' Hout. destruct unique; [|by apply Hno, Htaken]. clear Hcreate.
    unfold createEntity in Hout.
    pose proof (crashing_createEntity_write config) as Hwrite.
    unfold bind in Hout.
    destruct (createEntity_vars _ _ _ _ _ _ _ fs) as [[tpl' vars] fs1|code' why fs1|fs1] eqn:Hvars;
      [| |done].
    + specialize (Hwrite tpl' vars fs1). rewrite Hout in Hwrite. by destruct Hwrite.
    + injection Hout as -> -> ->. revert Hvars.
      unfold createEntity_vars.
      destruct Htype as [-> | ->]; literal_type; rewrite Htpl, Hprefix, Htruthy;
        cbn [andb negb]; unfold bind, ret; cbv beta iota; rewrite Htruthy;
        cbn [andb default]; unfold id; by rewrite Hrun.
Qed.

Lemma createEntity_rejects_taken_prefix_witness :
  createEntity asciiLower demoConfig (js "2025-01-01") [] (js "project") (js "Site")
    (withPrefix noOptions (js "ab")) demoVault
  = Exit 1 PrefixTaken demoVault.
Proof.
  destruct (createEntity_rejects_taken_prefix asciiLower demoConfig (js "2025-01-01") []
              (js "project") (js "Site") (js "ab") (withPrefix noOptions (js "ab"))
              (default {| folderPattern := None; filePath := None; files := None;
                          template := None |}
                       (templates demoConfig !! js "project"))
              demoVault) as [Htaken _].
  - by left.
  - vm_compute. reflexivity.
  - reflexivity.
  - done.
  - intros text Hstat. by vm_compute in Hstat.
  - intros text Hstat. by vm_compute in Hstat.
  - apply Htaken. exists (js "01_projects"), (js "ab_site").
    split_and!; [by left| |reflexivity].
    apply (bool_decide_unpack _). by vm_compute.
Defined.

(** ** slugify: what is kept *)

Lemma filter_nil_iff {A} (f : A → bool) l :
  List.filter f l = [] ↔ Forall (λ c, f c = false) l.
Proof.
  induction l as [|c l IH]; simpl.
  - split; [by constructor|done].
  - destruct (f c) eqn:Hc.
    + split; [done|]. intros [? _]%Forall_cons. congruence.
    + rewrite IH. split; [by constructor|by intros [_ ?]%Forall_cons].
Qed.

Lemma filter_reverse {A} (f : A → bool) l :
  List.filter f (reverse l) = reverse (List.filter f l).
Proof.
  induction l as [|c l IH]; simpl; [done|].
  rewrite reverse_cons, List.filter_app, IH. simpl.
  destruct (f c); [by rewrite reverse_cons | by rewrite app_nil_r].
Qed.

Lemma filter_dropWhile (f p : jschar → bool) s :
  (∀ c, p c = true → f c = false) →
  List.filter f (dropWhile p s) = List.filter f s.
Proof.
  intros Hp. induction s as [|c s IH]; simpl; [done|].
  destruct (p c) eqn:Hc; [|done]. by rewrite (Hp c Hc).
Qed.

Lemma isSpace_not_alnum c : isSpace c = true → isAlnum c = false.
Proof.
  intros Hs. destruct (isAlnum c) eqn:Ha; [|done].
  assert (slugChar c = true) as Hslug by (unfold slugChar; by rewrite Ha).
  apply slugChar_not_space in Hslug. congruence.
Qed.

Lemma isHyphen_not_alnum c : isHyphen c = true → isAlnum c = false.
Proof. intros ->%isHyphen_true. apply hyphen_not_alnum. Qed.

Lemma filter_trim s : List.filter isAlnum (trim s) = List.filter isAlnum s.
Proof.
  unfold trim. rewrite filter_reverse, filter_dropWhile by apply isSpace_not_alnum.
  rewrite filter_reverse, filter_dropWhile by apply isSpace_not_alnum.
  apply reverse_involutive.
Qed.

Lemma filter_collapseIn inRun s :
  List.filter isAlnum (collapseIn inRun s) = List.filter isAlnum s.
Proof.
  revert inRun. induction s as [|c s IH]; intros inRun; simpl; [done|].
  destruct (isAlnum c) eqn:Hc; simpl.
  - by rewrite Hc, IH.
  - destruct inRun; simpl; by rewrite ?hyphen_not_alnum, IH.
Qed.

Lemma filter_dropTrail s : List.filter isAlnum (dropTrail s) = List.filter isAlnum s.
Proof.
  induction s as [|c s IH]; simpl; [done|].
  destruct (isHyphen c && forallb isHyphen s) eqn:Hrun; simpl.
  - apply andb_prop in Hrun as [Hc Hs]. rewrite (isHyphen_not_alnum c Hc).
    symmetry. apply filter_nil_iff, Forall_forall. intros d Hd.
    apply isHyphen_not_alnum. rewrite forallb_forall in Hs.
    by apply Hs, list_elem_of_In.
  - by rewrite IH.
Qed.

(** X7.  [slugify] keeps the lower-case letters and the digits of the
    lower-cased title, all of them and in their order; so the slug is empty
    exactly when the lower-cased title has no such code unit. *)
Theorem slugify_keeps_letters_and_digits
    (toLowerCase : jsstring → jsstring) (x : jsstring) :
  List.filter isAlnum (slugify toLowerCase x) = List.filter isAlnum (toLowerCase x)
  ∧ (slugify toLowerCase x = [] ↔ Forall (λ c, isAlnum c = false) (toLowerCase x)).
Proof.
  assert (List.filter isAlnum (slugify toLowerCase x)
          = List.filter isAlnum (toLowerCase x)) as Hkept.
  { rewrite slugify_unfold, filter_dropTrail.
    rewrite filter_dropWhile by apply isHyphen_not_alnum.
    by rewrite filter_collapseIn, filter_trim. }
  split; [done|]. rewrite <- filter_nil_iff, <- Hkept. split; [by intros ->|].
  rewrite slugify_unfold.
  set (a := collapseIn false (trim (toLowerCase x))).
  destruct (dropTrail (dropWhile isHyphen a)) as [|c y] eqn:Hy; [done|].
  intros [Hc _]%filter_nil_iff%Forall_cons. exfalso.
  assert (slugChar c = true) as Hslug.
  { pose proof (collapseIn_slugChar false (trim (toLowerCase x))) as Ha. fold a in Ha.
    destruct (dropWhile_suffix isHyphen a) as [pre Hpre].
    destruct (dropTrail_prefix (dropWhile isHyphen a)) as [post Hpost].
    rewrite Hpre, Hpost, Hy in Ha.
    by apply Forall_app in Ha as [_ [[? _]%Forall_cons _]%Forall_app]. }
  apply slugChar_cases in Hslug as [Hslug| ->]; [congruence|].
  assert (head (dropTrail (dropWhile isHyphen a)) = Some hyphen) as Hhead by (by rewrite Hy).
  by apply dropTrail_head, dropWhile_head in Hhead.
Qed.

(** ** renderTemplate: text without a complete token *)

Lemma VAR_PATTERN_Some prev s h :
  VAR_PATTERN prev s = Some h →
  ∃ rawKey after, s = js "{{" ++ rawKey ++ js "}}" ++ after.
Proof.
  unfold VAR_PATTERN.
  destruct (stripPrefix (js "{{") s) as [s1|] eqn:Hopen; [|done].
  apply stripPrefix_Some in Hopen as ->.
  destruct (span _ s1) as [rawKey s2] eqn:Hspan.
  apply span_spec in Hspan as (-> & _ & _).
  destruct rawKey as [|c rawKey]; [done|].
  destruct (stripPrefix (js "}}") s2) as [after|] eqn:Hclose; [|done].
  apply stripPrefix_Some in Hclose as ->. eauto.
Qed.

Lemma occurs_app pat pre post : occurs pat (pre ++ pat ++ post) = true.
Proof.
  induction pre as [|c pre IH].
  - rewrite app_nil_l. destruct (pat ++ post) eqn:E; simpl; rewrite <- E, stripPrefix_app; done.
  - rewrite <- app_comm_cons. simpl. by destruct (stripPrefix pat _).
Qed.

(** X8.  A template in which [{{] does not occur, or in which [}}] does
    not occur, is rendered as it stands, whatever the variables are. *)
Theorem renderTemplate_without_token (tmpl : jsstring) (vars : gmap jsstring jsstring) :
  occurs (js "{{") tmpl = false ∨ occurs (js "}}") tmpl = false →
  renderTemplate tmpl vars = tmpl.
Proof.
  induction tmpl as [|c tmpl IH]; intros Hnone; [done|].
  assert (VAR_PATTERN None (c :: tmpl) = None) as Hmiss.
  { destruct (VAR_PATTERN None (c :: tmpl)) as [h|] eqn:Hhit; [|done]. exfalso.
    apply VAR_PATTERN_Some in Hhit as (rawKey & after & Hshape). rewrite Hshape in Hnone.
    destruct Hnone as [Hopen|Hclose].
    - pose proof (occurs_app (js "{{") [] (rawKey ++ js "}}" ++ after)) as Hyes.
      rewrite app_nil_l in Hyes. congruence.
    - pose proof (occurs_app (js "}}") (js "{{" ++ rawKey) after) as Hyes.
      rewrite <- app_assoc in Hyes. congruence. }
  unfold renderTemplate at 1, replaceAll.
  rewrite (replaceFrom_miss _ _ _ _ _ VAR_PATTERN_progressing Hmiss).
  rewrite renderTemplate_from, IH; [done|].
  destruct Hnone as [?|?]; [left|right]; by eapply occurs_false_tail.
Qed.

Lemma renderTemplate_without_token_witness :
  renderTemplate (js "Total: {{amount} of {x}") ∅ = js "Total: {{amount} of {x}".
Proof.
  apply (renderTemplate_without_token (js "Total: {{amount} of {x}") ∅).
  right. reflexivity.
Defined.

(** ** ensureDir *)

(** The walk of [mkdirSync] with [recursive]: when it ends well, every
    entry is still there, every prefix walked is a directory, and what is
    new is one of these; it throws at a regular file on the way. *)
Lemma mkdirFrom_spec (fs : vault) base todo :
  match mkdirFrom fs base todo with
  | Some fs' =>
      fs ⊆ fs'
      ∧ (∀ k, (0 < k ≤ length todo)%nat → fs' !! (base ++ take k todo) = Some Dir)
      ∧ (∀ q, fs !! q = None → is_Some (fs' !! q) →
              ∃ k, (0 < k ≤ length todo)%nat ∧ q = base ++ take k todo)
  | None =>
      ∃ k text, (0 < k ≤ length todo)%nat ∧ fs !! (base ++ take k todo) = Some (File text)
  end.
Proof.
  revert fs base. induction todo as [|seg todo IH]; intros fs base; simpl.
  { split_and!; [done|intros k; lia|]. intros q Hq [e He]. congruence. }
  assert (∀ k, base ++ seg :: take k todo = (base ++ [seg]) ++ take k todo) as Hstep
    by (intros k; by rewrite <- app_assoc).
  destruct (fs !! (base ++ [seg])) as [[text|]|] eqn:Hseg.
  - exists 1%nat, text. split; [lia|]. done.
  - specialize (IH fs (base ++ [seg])).
    destruct (mkdirFrom fs (base ++ [seg]) todo) as [fs'|].
    + destruct IH as (Hsub & Hdirs & Hnew). split_and!; [done| |].
      * intros [|[|k]] Hk; [lia| |].
        -- change (take 1 (seg :: todo)) with [seg]. by eapply lookup_weaken.
        -- simpl. rewrite Hstep. apply Hdirs. lia.
      * intros q Hq Hthere. destruct (Hnew q Hq Hthere) as (k & Hk & ->).
        exists (S k). split; [lia|]. simpl. by rewrite Hstep.
    + destruct IH as (k & text & Hk & Hfile).
      exists (S k), text. split; [lia|]. simpl. by rewrite Hstep.
  - specialize (IH (<[base ++ [seg] := Dir]> fs) (base ++ [seg])).
    assert (fs ⊆ <[base ++ [seg] := Dir]> fs) as Hins by (by apply insert_subseteq).
    destruct (mkdirFrom (<[base ++ [seg] := Dir]> fs) (base ++ [seg]) todo) as [fs'|].
    + destruct IH as (Hsub & Hdirs & Hnew). split_and!; [by etrans| |].
      * intros [|[|k]] Hk; [lia| |].
        -- change (take 1 (seg :: todo)) with [seg]. eapply lookup_weaken; [|done]. by rewrite lookup_insert_eq.
        -- simpl. rewrite Hstep. apply Hdirs. lia.
      * intros q Hq Hthere. destruct (decide (q = base ++ [seg])) as [->|Hne].
        -- exists 1%nat. split; [lia|]. done.
        -- destruct (Hnew q) as (k & Hk & ->); [by rewrite lookup_insert_ne|done|].
           exists (S k). split; [lia|]. simpl. by rewrite Hstep.
    + destruct IH as (k & text & Hk & Hfile).
      exists (S k), text. split; [lia|]. simpl. rewrite Hstep.
      rewrite lookup_insert_ne in Hfile; [done|].
      intros Heq%(f_equal length). rewrite !length_app, length_take in Heq. simpl in Heq. lia.
Qed.

Lemma ensureDir_Some (fs : vault) p fs' :
  ensureDir fs p = Some fs' →
  fs ⊆ fs'
  ∧ is_Some (stat fs' p)
  ∧ (stat fs p = None → stat fs' p = Some Dir)
  ∧ (∀ q, fs !! q = None → is_Some (fs' !! q) → fs' !! q = Some Dir ∧ q `prefix_of` p).
Proof.
  unfold ensureDir. destruct (existsSync fs p) eqn:Hthere.
  - intros [= <-]. apply existsSync_true in Hthere. split_and!; [done|done| |].
    + intros Hnone. rewrite Hnone in Hthere. by destruct Hthere.
    + intros q Hq [e He]. congruence.
  - apply existsSync_false in Hthere. unfold mkdirSync. intros Hmk.
    pose proof (mkdirFrom_spec fs [] p) as Hspec. rewrite Hmk in Hspec.
    destruct Hspec as (Hsub & Hdirs & Hnew).
    assert (p ≠ []) as Hp by (intros ->; done).
    assert (stat fs' p = Some Dir) as Hdir.
    { unfold stat. rewrite decide_False by done.
      specialize (Hdirs (length p)). rewrite take_ge in Hdirs by done. apply Hdirs.
      destruct p; [done|simpl; lia]. }
    split_and!; [done|by rewrite Hdir|done|].
    intros q Hq Hq'. destruct (Hnew q Hq Hq') as (k & Hk & ->). simpl. split.
    + by apply Hdirs.
    + exists (drop k p). by rewrite take_drop.
Qed.

(** X9.  [ensureDir] only ever adds directories on the way to its path.
    When it returns, every entry of the vault is still there unchanged, the
    path exists (as a directory, if it was not there before), and every new
    entry is a directory at a prefix of the path.  It throws exactly when
    the path is not there and a regular file lies on the way to it. *)
Theorem ensureDir_only_adds_directories (fs : vault) (p : path) :
  (∀ fs', ensureDir fs p = Some fs' →
     fs ⊆ fs'
     ∧ is_Some (stat fs' p)
     ∧ (stat fs p = None → stat fs' p = Some Dir)
     ∧ (∀ q, fs !! q = None → is_Some (fs' !! q) → fs' !! q = Some Dir ∧ q `prefix_of` p))
  ∧ (ensureDir fs p = None
     ↔ stat fs p = None ∧ ∃ k text, stat fs (take k p) = Some (File text)).
Proof.
  split; [intros fs'; apply ensureDir_Some|].
  unfold ensureDir, mkdirSync. pose proof (mkdirFrom_spec fs [] p) as Hspec.
  destruct (existsSync fs p) eqn:Hthere.
  - split; [done|]. intros [Hnone _]. apply existsSync_true in Hthere.
    rewrite Hnone in Hthere. by destruct Hthere.
  - apply existsSync_false in Hthere.
    destruct (mkdirFrom fs [] p) as [fs'|].
    + split; [done|]. intros (_ & k & text & Hfile). exfalso.
      destruct Hspec as (Hsub & Hdirs & _). unfold stat in Hfile.
      destruct (decide (take k p = [])) as [|Hne]; [done|].
      destruct (le_lt_dec k (length p)) as [Hle|Hgt].
      * pose proof (lookup_weaken _ _ _ _ Hfile Hsub) as Hfile'.
        assert (0 < k ≤ length p)%nat as Hk
          by (split; [|done]; destruct k; [by rewrite take_0 in Hne|lia]).
        specialize (Hdirs k Hk). simpl in Hdirs. congruence.
      * rewrite take_ge in Hfile, Hne by lia. unfold stat in Hthere.
        rewrite decide_False in Hthere by done. congruence.
    + split; [|done]. intros _. split; [done|].
      destruct Hspec as (k & text & Hk & Hfile). exists k, text.
      unfold stat. rewrite decide_False; [done|].
      intros Hnil%(f_equal length). rewrite length_take in Hnil. simpl in Hnil. lia.
Qed.

(** ** new: nothing is overwritten *)

Lemma foldl_pushSegment_plain base segs :
  Forall plain segs → foldl pushSegment base segs = base ++ segs.
Proof.
  intros Hsegs. revert base. induction Hsegs as [|seg segs Hseg _ IH]; intros base; simpl.
  - by rewrite app_nil_r.
  - destruct Hseg as (Hne & Hdot & Hdots & _). unfold pushSegment at 2.
    rewrite decide_False by (intros [?|?]; done). rewrite decide_False by done.
    by rewrite IH, <- app_assoc.
Qed.

Lemma joinAt_name base name :
  Forall plain (split slash name) → joinAt base [name] = base ++ split slash name.
Proof.
  intros Hname. unfold joinAt. simpl. rewrite app_nil_r.
  by apply foldl_pushSegment_plain.
Qed.

(** In a file tree nothing lies below a path that is not there. *)
Lemma wfVault_below_absent fs dir segs :
  wfVault fs → stat fs dir = None → fs !! (dir ++ segs) = None.
Proof.
  intros Hwf Hdir.
  assert (dir ≠ []) as Hne by (by intros ->).
  assert (fs !! dir = None) as Hnone by (unfold stat in Hdir; by rewrite decide_False in Hdir).
  destruct segs as [|seg segs]; [by rewrite app_nil_r|].
  destruct (fs !! (dir ++ seg :: segs)) as [e|] eqn:Hthere; [|done]. exfalso.
  assert (is_Some (stat fs (dir ++ seg :: segs))) as Hsome.
  { unfold stat. rewrite decide_False by (by destruct dir). by rewrite Hthere. }
  pose proof (wfVault_ancestors fs _ Hwf Hsome (length dir)) as Hup.
  rewrite take_app_length in Hup. rewrite Hup in Hnone; [done|].
  rewrite length_app. simpl. destruct dir; [done|simpl; lia].
Qed.

Lemma writeFiles_keeps (fs0 : vault) folderPath vars fileDefs fs :
  fs0 ⊆ fs →
  Forall (λ fileDef, fs0 !! joinAt folderPath [tf_name fileDef] = None) fileDefs →
  fs0 ⊆ vaultAfter (writeFiles folderPath vars fileDefs fs).
Proof.
  intros Hsub Hfree. revert fs Hsub.
  induction Hfree as [|fileDef fileDefs Hfile _ IH]; intros fs Hsub; simpl; [done|].
  unfold bind, perform.
  destruct (ensureDir fs _) as [fs1|] eqn:Hensure; [|done].
  apply ensureDir_Some in Hensure as (Hsub1 & _).
  destruct (writeFileSync fs1 _ _) as [fs2|] eqn:Hwrite; [|by etrans].
  apply writeFileSync_Some in Hwrite as (-> & _).
  apply IH. apply insert_subseteq_r; [done|by etrans].
Qed.

Lemma createEntity_write_keeps config tpl vars fs :
  wfVault fs →
  Forall (λ fileDef, Forall plain (split slash (tf_name fileDef))) (default [] (files tpl)) →
  fs ⊆ vaultAfter (createEntity_write config tpl vars fs).
Proof.
  intros Hwf Hnames. unfold createEntity_write.
  destruct (truthy (filePath tpl)).
  - unfold bind, ask, perform, attempt, exit.
    destruct (existsSync fs _) eqn:Hthere; [done|]. apply existsSync_false in Hthere.
    destruct (ensureDir fs _) as [fs1|] eqn:Hensure; [|done].
    apply ensureDir_Some in Hensure as (Hsub1 & _).
    destruct (template tpl) as [body|]; [|done].
    destruct (writeFileSync fs1 _ _) as [fs2|] eqn:Hwrite; [|done].
    apply writeFileSync_Some in Hwrite as (-> & _). simpl.
    apply insert_subseteq_r; [|done].
    rewrite <- (app_nil_r (join _)). by apply wfVault_below_absent.
  - unfold bind, ask, perform, attempt, exit.
    destruct (folderPattern tpl) as [pattern|]; [|done].
    destruct (existsSync fs _) eqn:Hthere; [done|]. apply existsSync_false in Hthere.
    destruct (ensureDir fs _) as [fs1|] eqn:Hensure; [|done].
    apply ensureDir_Some in Hensure as (Hsub1 & _).
    destruct (files tpl) as [fileDefs|]; [|done]. simpl in Hnames.
    apply writeFiles_keeps; [done|].
    eapply Forall_impl; [exact Hnames|]. intros fileDef Hname. simpl.
    rewrite joinAt_name by done. by apply wfVault_below_absent.
Qed.

Lemma newResourceFile_keeps toLowerCase config today actualTitle prefix resourceDir opts fs :
  fs ⊆ vaultAfter (newResourceFile toLowerCase config today actualTitle prefix resourceDir
                     opts fs).
Proof.
  unfold newResourceFile, bind, ask, perform, attempt, exit.
  destruct (existsSync fs _) eqn:Hthere; [done|]. apply existsSync_false in Hthere.
  destruct (ensureDir fs _) as [fs1|] eqn:Hensure; [|done].
  apply ensureDir_Some in Hensure as (Hsub1 & _).
  destruct (templates config !! js "resource" ≫= template) as [body|]; [|done].
  destruct (writeFileSync fs1 _ _) as [fs2|] eqn:Hwrite; [|done].
  apply writeFileSync_Some in Hwrite as (-> & Hne & _). simpl.
  apply insert_subseteq_r; [|done].
  unfold stat in Hthere. by rewrite decide_False in Hthere.
Qed.

Lemma yields_ret {A} (P : A → Prop) a : P a → yields P (ret a).
Proof. intros Ha fs a' fs' [= <- _]. done. Qed.

Lemma yields_exit {A} (P : A → Prop) code why : yields P (@exit A code why).
Proof. by intros fs a fs'. Qed.

Lemma yields_bind {A B} (P : B → Prop) (m : M A) (k : A → M B) :
  (∀ a, yields P (k a)) → yields P (bind m k).
Proof.
  intros Hk fs b fs'. unfold bind.
  destruct (m fs) as [a fs1| |]; [|done..]. apply Hk.
Qed.

(** The template [createEntity] works with is one of the configuration. *)
Lemma createEntity_vars_template toLowerCase config today rnd type title options :
  yields (λ result, ∃ name, templates config !! name = Some result.1)
    (createEntity_vars toLowerCase config today rnd type title options).
Proof.
  unfold createEntity_vars.
  destruct (templates config !! _) as [tpl|] eqn:Htpl; [|apply yields_exit].
  repeat (apply yields_bind; intros ?).
  match goal with |- yields _ (let '(_, _) := ?x in _) => destruct x end.
  apply yields_ret. simpl. eauto.
Qed.

Lemma createEntity_keeps toLowerCase config today rnd type title options fs :
  wfVault fs → plainFiles config →
  fs ⊆ vaultAfter (createEntity toLowerCase config today rnd type title options fs).
Proof.
  intros Hwf Hplain. unfold createEntity, bind.
  pose proof (reader_createEntity_vars toLowerCase config today rnd type title options fs)
    as Hread.
  pose proof (createEntity_vars_template toLowerCase config today rnd type title options fs)
    as Htpl.
  destruct (createEntity_vars _ _ _ _ _ _ _ fs) as [[tpl vars] fs1|code why fs1|fs1];
    simpl in *; [|by destruct Hread as [_ ->]|by subst].
  subst fs1. destruct (Htpl _ _ eq_refl) as [name Hname].
  apply createEntity_write_keeps; [done|]. exact (Hplain name tpl Hname).
Qed.

(** X10.  [new] never removes or overwrites anything.  On a vault that is a
    file tree, with templates whose file names consist of proper segments,
    every entry of the vault is still there, with the same content, when the
    command is over, however it ends. *)
Theorem new_keeps_every_entry
    (toLowerCase : jsstring → jsstring) (config : Config) (today : jsstring)
    (rnd : list (fin 26)) (type : jsstring) (title : option jsstring) (opts : Options)
    (fs : vault) :
  wfVault fs → plainFiles config →
  ∀ p e, fs !! p = Some e →
         vaultAfter (newAction toLowerCase config today rnd type title opts fs) !! p = Some e.
Proof.
  intros Hwf Hplain.
  assert (fs ⊆ vaultAfter (newAction toLowerCase config today rnd type title opts fs))
    as Hsub.
  { destruct (newAction_dispatched toLowerCase config today rnd type title opts fs)
      as [[why ->]|[(type' & opts' & ->)|(prefix & resourceDir & ->)]].
    - done.
    - by apply createEntity_keeps.
    - apply newResourceFile_keeps. }
  intros p e Hp. by eapply lookup_weaken.
Qed.

Lemma new_keeps_every_entry_witness :
  vaultAfter (newAction asciiLower demoConfig (js "2025-01-01") [draw 5; draw 6]
                (js "project") (Some (js "Garden")) noOptions demoVault)
    !! (js <$> ["vault"; "02_areas"; "cd_health"; "backlog"; "abc_post.md"]%string)
  = Some (File (taskText "Backlog" "backlog")).
Proof.
  apply (new_keeps_every_entry asciiLower demoConfig (js "2025-01-01") [draw 5; draw 6]
           (js "project") (Some (js "Garden")) noOptions demoVault).
  - apply (bool_decide_unpack _). by vm_compute.
  - apply (bool_decide_unpack _). by vm_compute.
  - vm_compute. reflexivity.
Defined.

(** ** mark post *)




Lemma occurs_false_prefix pat a b : occurs pat (a ++ b) = false → occurs pat a = false.
Proof.
  induction a as [|c a IH]; simpl.
  - destruct pat; [by destruct b|done].
  - destruct (stripPrefix pat (c :: a)) as [r|] eqn:Hhere.
    + apply stripPrefix_Some in Hhere. change (c :: a ++ b) with ((c :: a) ++ b).
      rewrite Hhere, <- app_assoc, stripPrefix_app. done.
    + destruct (stripPrefix pat (c :: a ++ b)); [done|]. apply IH.
Qed.

(** The first status tag is replaced, up to the end of its line. *)
Lemma statusTag_rewritten prev head old tail repl :
  occurs (js "- status/") head = false → old ≠ [] → newline ∉ old → lineEnd tail = true →
  replaceFirst statusTag (λ _, repl) prev (head ++ js "- status/" ++ old ++ tail)
  = head ++ repl ++ tail.
Proof.
  intros Hocc Hold Hnl Htail. revert prev Hocc.
  induction head as [|c head IH]; intros prev Hocc.
  - rewrite !app_nil_l.
    assert (statusTagAt (js "- status/" ++ old ++ tail) = Some (old, tail)) as Hhit.
    { unfold statusTagAt. rewrite stripPrefix_app, (span_app _ old tail).
      - by destruct old.
      - by apply notin_forallb.
      - intros d t ->. simpl in Htail. by rewrite Htail. }
    destruct (js "- status/" ++ old ++ tail) eqn:E; [done|].
    simpl. unfold statusTag. by rewrite Hhit.
  - rewrite <- app_comm_cons. cbn [replaceFirst].
    assert (statusTag prev (c :: head ++ js "- status/" ++ old ++ tail) = None) as ->.
    { unfold statusTag, statusTagAt.
      change (c :: head ++ js "- status/" ++ old ++ tail)
        with ((c :: head) ++ js "- status/" ++ old ++ tail).
      rewrite stripPrefix_straddle; [done| by vm_compute | done |].
      by apply occurs_false_here. }
    simpl. f_equal. apply IH. by eapply occurs_false_tail.
Qed.

(** X12.  The text [markPost] writes.  Let [- status/<old>], up to the end
    of its line, be the first status tag of the file.  For a status other
    than [done] the value of the tag becomes the status in lower case; for
    [done], when only blanks stand between the tag and the line break
    before it, the whole tag line is cut out, line break included.  Every
    other code unit of the file is kept; the [status:] field is not
    touched. *)
Theorem markPost_text_rewritten (statusLower head old tail : jsstring) :
  occurs (js "- status/") head = false → old ≠ [] → newline ∉ old → lineEnd tail = true →
  (statusLower ≠ js "done" →
   markPostText statusLower (head ++ js "- status/" ++ old ++ tail)
   = head ++ js "- status/" ++ statusLower ++ tail)
  ∧ (statusLower = js "done" →
     ∀ before indent,
       head = before ++ newline :: indent →
       blankAfterBreak before = false → forallb isSpace indent = true →
       markPostText statusLower (head ++ js "- status/" ++ old ++ tail) = before ++ tail).
Proof.
  intros Hocc Hold Hnl Htail. unfold markPostText. split.
  - intros Hnotdone.
    assert (isLit statusLower "done" = false) as -> by (by apply bool_decide_eq_false_2).
    rewrite (statusTag_rewritten None head old tail (js "- status/" ++ statusLower));
      [|done..]. by rewrite <- app_assoc.
  - intros -> before indent -> Hblank Hindent.
    change (isLit (js "done") "done") with true. cbv iota.
    rewrite <- app_assoc, <- app_comm_cons.
    apply statusTagLine_removed; try done. by eapply occurs_false_prefix.
Qed.

Lemma markPost_text_rewritten_witness :
  markPostText (js "review") (taskText "Backlog" "backlog") = taskText "Backlog" "review".
Proof.
  destruct (markPost_text_rewritten (js "review")
              (js "---" ++ [newline] ++ js "status: Backlog" ++ [newline]
               ++ js "tags:" ++ [newline] ++ js "  - work" ++ [newline] ++ js "  ")
              (js "backlog") ([newline] ++ js "---" ++ [newline] ++ js "# Task"))
    as [Hrewritten _].
  - reflexivity.
  - done.
  - apply (bool_decide_unpack _). by vm_compute.
  - reflexivity.
  - apply Hrewritten. apply (bool_decide_unpack _). by vm_compute.
Defined.

(** ** new: the codes of work items and posts *)

Lemma elem_of_addCodes n existing files x :
  x ∈ addCodes n existing files
  ↔ x ∈ existing ∨ ∃ file, file ∈ files ∧ codeOf n file = Some x.
Proof.
  unfold addCodes. revert existing.
  induction files as [|f files IH]; intros existing; simpl.
  - split; [auto|]. intros [?|(file & ?%elem_of_nil & _)]; done.
  - rewrite IH. destruct (codeOf n f) as [code|] eqn:Hf.
    + rewrite elem_of_union, elem_of_singleton. split.
      * intros [[->|?]|(file & ? & ?)]; [right; exists f|by left|right; exists file];
          split; try done; by constructor.
      * intros [?|(file & [->|?]%elem_of_cons & Hfile)];
          [by left; right|left; left; congruence|right; by exists file].
    + split.
      * intros [?|(file & ? & ?)]; [by left|right; exists file].
        split; [by constructor|done].
      * intros [?|(file & [->|?]%elem_of_cons & Hfile)];
          [by left|congruence|right; by exists file].
Qed.

Lemma codeOf_startsWith n code name :
  length code = n → forallb isLower code = true →
  startsWith name (code ++ [underscore]) = true → codeOf n name = Some code.
Proof.
  intros Hlen Hlower [r Hr%stripPrefix_Some]%bool_decide_eq_true_1. subst name.
  unfold codeOf. rewrite <- app_assoc, take_app_length' by done.
  rewrite Hlen, Nat.eqb_refl, Hlower. simpl.
  rewrite bool_decide_eq_true_2; [done|].
  by rewrite lookup_app_r, Hlen, Nat.sub_diag by lia.
Qed.

(** The codes collected from the status folders below [base] include the
    code of every name listed there. *)
Lemma collectCodes_Return n base folders existing fs codes fs' :
  collectCodes n base folders existing fs = Return codes fs' →
  (∀ x, x ∈ existing → x ∈ codes)
  ∧ ∀ f name code, f ∈ folders → name ∈ listing fs (joinAt base [f]) →
                   codeOf n name = Some code → code ∈ codes.
Proof.
  revert existing. induction folders as [|f folders IH]; intros existing; simpl.
  - intros [= <- _]. split; [done|]. intros f name code Hf. by apply elem_of_nil in Hf.
  - unfold bind at 1, ask. destruct (existsSync fs (joinAt base [f])) eqn:Hthere.
    + unfold bind at 1, attempt.
      destruct (readdirSync fs (joinAt base [f])) as [files|] eqn:Hfiles; [|done].
      intros Hrest. destruct (IH _ Hrest) as [Hkept Hcodes]. split.
      * intros x Hx. apply Hkept, elem_of_addCodes. by left.
      * intros f' name code [->|Hf']%elem_of_cons Hname Hcode; [|by eapply Hcodes].
        apply Hkept, elem_of_addCodes. right. exists name.
        by rewrite (listing_Some _ _ _ Hfiles) in Hname.
    + intros Hrest. destruct (IH _ Hrest) as [Hkept Hcodes]. split; [done|].
      intros f' name code [->|Hf']%elem_of_cons Hname Hcode; [|by eapply Hcodes].
      apply existsSync_false in Hthere.
      rewrite (listing_absent _ _ Hthere) in Hname. by apply elem_of_nil in Hname.
Qed.

Lemma sample3_Some existing rnd prefix :
  sample3 existing rnd = Some prefix →
  (prefix ∉ existing) ∧ (∃ i j k, prefix = [letter i; letter j; letter k]).
Proof.
  remember (length rnd) as n eqn:Hn. revert rnd Hn.
  induction n as [n IH] using lt_wf_ind. intros rnd ->.
  destruct rnd as [|i [|j [|k rnd]]]; [done..|]. simpl.
  destruct (decide ([letter i; letter j; letter k] ∈ existing)) as [Hin|Hout].
  - apply (IH (length rnd)); [simpl; lia|done].
  - intros [= <-]. eauto.
Qed.

(** A code that was sampled against the codes collected below [base], or
    against none when [base] is not there, is the code of no name in the
    status folders of [base]. *)
Lemma sampled_code_fresh (n : nat) (base : path) (fs : vault) (code : jsstring)
    (scan : outcome (gset jsstring)) (codes : gset jsstring) :
  wfVault fs →
  scan = (if existsSync fs base then collectCodes n base statusFolders ∅ else ret ∅) fs →
  returned scan = Some codes →
  code ∉ codes → length code = n → forallb isLower code = true →
  ∀ statusFolder name,
    statusFolder ∈ statusFolders → name ∈ listing fs (base ++ [statusFolder]) →
    startsWith name (code ++ [underscore]) = false.
Proof.
  intros Hwf -> Hcodes Hfresh Hlen Hlower statusFolder name Hfolder Hname.
  destruct (startsWith name (code ++ [underscore])) eqn:Hstarts; [|done]. exfalso.
  apply (codeOf_startsWith n) in Hstarts; [|done..].
  destruct (existsSync fs base) eqn:Hbase.
  - destruct (collectCodes n base statusFolders ∅ fs) as [codes' fs'| |] eqn:Hscan; [|done..].
    injection Hcodes as ->.
    apply collectCodes_Return in Hscan as [_ Hall]. apply Hfresh.
    apply (Hall statusFolder name code Hfolder); [|done].
    by rewrite plain_pushSegment by (by apply statusFolders_plain).
  - apply existsSync_false in Hbase.
    apply elem_of_listing in Hname as [Hdir _]. rewrite stat_snoc in Hdir.
    by rewrite (wfVault_below_absent fs base [statusFolder] Hwf Hbase) in Hdir.
Qed.

(** X13.  The code [createEntity] gives a new work item: two lower-case
    letters, and no name listed in a status folder of the parent's work
    folder starts with [<code>_]. *)
Theorem new_work_code_is_fresh
    (toLowerCase : jsstring → jsstring) (config : Config) (today : jsstring)
    (rnd : list (fin 26)) (title folder code : jsstring) (options : Options) (fs : vault) :
  wfVault fs → o_folder options = Some folder →
  renderVariable
    (createEntity_vars toLowerCase config today rnd (js "work") title options fs) "prefix"
  = Some code →
  length code = 2%nat ∧ Forall (λ c, isLower c = true) code
  ∧ ∀ statusFolder name,
      statusFolder ∈ statusFolders →
      name ∈ listing fs (join [vaultPath config; folder] ++ [js "work"; statusFolder]) →
      startsWith name (code ++ [underscore]) = false.
Proof.
  intros Hwf Hfolder. unfold renderVariable, createEntity_vars. literal_type.
  destruct (templates config !! js "work") as [tpl|]; [|done].
  unfold bind at 1 2 3 4. unfold ret at 1 2. unfold bind at 1 2, attempt. rewrite Hfolder.
  rewrite plain_pushSegment by (by apply plain_literal).
  set (workPath := join [vaultPath config; folder] ++ [js "work"]).
  unfold ask. cbv beta iota.
  destruct ((if existsSync fs workPath then collectCodes 2 workPath statusFolders ∅ else ret ∅)
              fs) as [codes fs1| |] eqn:Hscan; [|done..].
  unfold sampled. destruct (sample2 codes rnd) as [sample|] eqn:Hsample; [|done].
  unfold bind, ret. simpl. intros Hcode.
  assert (sample = code) as -> by (vm_compute in Hcode; congruence).
  apply sample2_Some in Hsample as (Hfree & i & j & ->).
  split_and!; [done|by repeat constructor; apply letter_lower|].
  intros statusFolder name Hin Hname.
  refine (sampled_code_fresh 2 workPath fs [letter i; letter j] _ codes Hwf (eq_sym Hscan)
            _ Hfree eq_refl _ statusFolder name Hin _).
  - done.
  - simpl. by rewrite !letter_lower.
  - unfold workPath. by rewrite <- app_assoc.
Qed.

Lemma new_work_code_is_fresh_witness :
  length (js "ab") = 2%nat ∧ Forall (λ c, isLower c = true) (js "ab")
  ∧ ∀ statusFolder name,
      statusFolder ∈ statusFolders →
      name ∈ listing demoVault
               (join [vaultPath workshopConfig; js "01_projects/ab_site"]
                ++ [js "work"; statusFolder]) →
      startsWith name (js "ab" ++ [underscore]) = false.
Proof.
  apply (new_work_code_is_fresh asciiLower workshopConfig (js "2025-01-01")
           [draw 23; draw 24; draw 0; draw 1] (js "Fix the build")
           (js "01_projects/ab_site") (js "ab")
           (withFolder noOptions (js "01_projects/ab_site")) demoVault).
  - apply (bool_decide_unpack _). by vm_compute.
  - reflexivity.
  - vm_compute. reflexivity.
Defined.

Lemma reader_Return {A} (m : M A) fs a fs' : reader m → m fs = Return a fs' → fs' = fs.
Proof. intros Hm Hrun. specialize (Hm fs). by rewrite Hrun in Hm. Qed.

(** X14.  The code [createEntity] gives a new post: three lower-case
    letters, and no name listed in a status folder of the resolved area
    starts with [<code>_]. *)
Theorem new_post_code_is_fresh
    (toLowerCase : jsstring → jsstring) (config : Config) (today : jsstring)
    (rnd : list (fin 26)) (title area code : jsstring) (options : Options) (fs : vault) :
  wfVault fs →
  renderVariable
    (createEntity_vars toLowerCase config today rnd (js "post") title options fs) "area"
  = Some area →
  renderVariable
    (createEntity_vars toLowerCase config today rnd (js "post") title options fs) "prefix"
  = Some code →
  length code = 3%nat ∧ Forall (λ c, isLower c = true) code
  ∧ ∀ statusFolder name,
      statusFolder ∈ statusFolders →
      name ∈ listing fs (join [vaultPath config; areasRoot config; area] ++ [statusFolder]) →
      startsWith name (code ++ [underscore]) = false.
Proof.
  intros Hwf. unfold renderVariable.
  destruct (createEntity_vars _ _ _ _ _ _ _ fs) as [[tpl vars] fs'| |] eqn:Hrun; [|done..].
  simpl. revert Hrun. unfold createEntity_vars. literal_type.
  destruct (templates config !! js "post") as [tpl0|]; [|done].
  intros Hrun.
  apply bind_Return in Hrun as (prefix & fs1 & [= <- <-] & Hrun).
  apply bind_Return in Hrun as ([] & fs1 & [= <-] & Hrun).
  apply bind_Return in Hrun as (workItemPrefix & fs1 & [= <- <-] & Hrun).
  apply bind_Return in Hrun as ([postPrefix resolvedArea] & fs1 & Hpost & [= <- <- <-]).
  intros Harea Hcode.
  assert (resolvedArea = area) as -> by (vm_compute in Harea; congruence).
  assert (postPrefix = code) as -> by (vm_compute in Hcode; congruence).
  clear Harea Hcode.
  apply bind_Return in Hpost as (hasAreas & fs2 & [= <- <-] & Hpost).
  apply bind_Return in Hpost as (resolved & fs2 & Hresolved & Hpost).
  apply reader_Return in Hresolved as ->; [|reader].
  apply bind_Return in Hpost as (hasArea & fs2 & [= <- <-] & Hpost).
  apply bind_Return in Hpost as (codes & fs2 & Hscan & Hpost).
  pose proof Hscan as ->%reader_Return; [|reader; apply reader_collectCodes].
  apply bind_Return in Hpost as (sample & fs2 & Hsample & [= <- <- <-]).
  unfold sampled in Hsample.
  destruct (sample3 codes rnd) as [sample'|] eqn:Hdraws; [|done].
  injection Hsample as -> <-.
  apply sample3_Some in Hdraws as (Hfree & i & j & k & ->).
  split_and!; [done|by repeat constructor; apply letter_lower|].
  intros statusFolder name Hin Hname.
  refine (sampled_code_fresh 3 _ fs [letter i; letter j; letter k] _ codes Hwf
            (eq_sym Hscan) _ Hfree eq_refl _ statusFolder name Hin Hname).
  - done.
  - simpl. by rewrite !letter_lower.
Qed.

Lemma new_post_code_is_fresh_witness :
  length (js "xyz") = 3%nat ∧ Forall (λ c, isLower c = true) (js "xyz")
  ∧ ∀ statusFolder name,
      statusFolder ∈ statusFolders →
      name ∈ listing demoVault
               (join [vaultPath workshopConfig; areasRoot workshopConfig; js "cd_health"]
                ++ [statusFolder]) →
      startsWith name (js "xyz" ++ [underscore]) = false.
Proof.
  apply (new_post_code_is_fresh asciiLower workshopConfig (js "2025-01-01")
           [draw 0; draw 1; draw 2; draw 23; draw 24; draw 25] (js "On sleep")
           (js "cd_health") (js "xyz")
           {| o_prefix := None; o_area := Some (js "cd"); o_dependencies := None;
              o_type := None; o_content := None; o_solo := false; o_atRoot := false;
              o_folder := None |}
           demoVault).
  - apply (bool_decide_unpack _). by vm_compute.
  - vm_compute. reflexivity.
  - vm_compute. reflexivity.
Defined.

(** ** archive *)

Lemma lookup_moved (fs : vault) src dst q e :
  ¬ src `prefix_of` dst →
  moved fs src dst !! q = Some e
  ↔ ∃ p, fs !! p = Some e ∧ ¬ dst `prefix_of` p ∧ relocate src dst p = q.
Proof.
  intros Hapart. unfold moved.
  set (kept := filter (λ kv : path * entry, ¬ dst `prefix_of` kv.1) fs).
  rewrite <- elem_of_list_to_map.
  - rewrite list_elem_of_fmap. split.
    + intros ([p e'] & [= -> ->] & Hin). apply elem_of_map_to_list in Hin.
      apply map_lookup_filter_Some in Hin as [Hp Hnot]. eauto.
    + intros (p & Hp & Hnot & <-). exists (p, e). split; [done|].
      apply elem_of_map_to_list, map_lookup_filter_Some. done.
  - rewrite <- list_fmap_compose.
    change (fst ∘ (λ kv : path * entry, (relocate src dst kv.1, kv.2)))
      with (relocate src dst ∘ (fst : path * entry → path)).
    rewrite list_fmap_compose. apply NoDup_fmap_2_strong; [|apply NoDup_fst_map_to_list].
    intros p1 p2 Hp1 Hp2.
    assert (∀ p, p ∈ (map_to_list kept).*1 → ¬ dst `prefix_of` p) as Hkept.
    { intros p ([p' e'] & -> & Hin)%list_elem_of_fmap.
      apply elem_of_map_to_list, map_lookup_filter_Some in Hin as [_ ?]. done. }
    apply Hkept in Hp1, Hp2. unfold relocate.
    destruct (decide (src `prefix_of` p1)) as [[x1 ->]|H1],
             (decide (src `prefix_of` p2)) as [[x2 ->]|H2];
      rewrite ?drop_app_length; intros Heq.
    + by apply app_inv_head in Heq as ->.
    + subst p2. destruct Hp2. by exists x1.
    + subst p1. destruct Hp1. by exists x2.
    + done.
Qed.

Lemma moved_target (fs : vault) src dst rel :
  ¬ src `prefix_of` dst → ¬ dst `prefix_of` src →
  moved fs src dst !! (dst ++ rel) = fs !! (src ++ rel).
Proof.
  intros Hsd Hds. apply option_eq. intros e. rewrite lookup_moved by done. split.
  - intros (p & Hp & Hnot & Hrel). unfold relocate in Hrel.
    destruct (decide (src `prefix_of` p)) as [[x ->]|_].
    + rewrite drop_app_length in Hrel. by apply app_inv_head in Hrel as ->.
    + subst p. destruct Hnot. by exists rel.
  - intros Hp. exists (src ++ rel). split_and!; [done| |].
    + intros Hunder.
      destruct (prefix_weak_total dst src (src ++ rel)) as [?|?];
        [done|by exists rel|done..].
    + unfold relocate. rewrite decide_True by (by exists rel).
      by rewrite drop_app_length.
Qed.

Lemma moved_source (fs : vault) src dst rel :
  ¬ src `prefix_of` dst → ¬ dst `prefix_of` src →
  moved fs src dst !! (src ++ rel) = None.
Proof.
  intros Hsd Hds. apply eq_None_not_Some. intros [e He].
  apply lookup_moved in He as (p & Hp & Hnot & Hrel); [|done]. unfold relocate in Hrel.
  destruct (decide (src `prefix_of` p)) as [[x ->]|Hout].
  - rewrite drop_app_length in Hrel.
    destruct (prefix_weak_total dst src (src ++ rel)) as [?|?];
      [by exists x|by exists rel|done..].
  - subst p. destruct Hout. by exists rel.
Qed.

Lemma moved_elsewhere (fs : vault) src dst q :
  ¬ src `prefix_of` dst → ¬ src `prefix_of` q → ¬ dst `prefix_of` q →
  moved fs src dst !! q = fs !! q.
Proof.
  intros Hsd Hsq Hdq. apply option_eq. intros e. rewrite lookup_moved by done. split.
  - intros (p & Hp & Hnot & Hrel). unfold relocate in Hrel.
    destruct (decide (src `prefix_of` p)) as [[x ->]|_].
    + rewrite drop_app_length in Hrel. subst q. destruct Hdq. by exists x.
    + by subst p.
  - intros Hq. exists q. split_and!; [done..|].
    unfold relocate. by rewrite decide_False.
Qed.

Lemma tidy_archiveAction config roots type name fs :
  tidy (λ why, why = Uncaught) fs (archiveAction config roots type name fs).
Proof.
  unfold archiveAction. destruct (negb _); [apply tidy_exit|].
  unfold archiveEntity.
  apply tidy_reader; [apply reader_attempt|]. intros root.
  apply tidy_reader; [apply reader_attempt|]. intros archiveRoot.
  apply tidy_reader; [apply reader_ask|]. intros [|]; [|apply tidy_exit].
  apply tidy_crashing.
  apply crashing_bind; [by apply crashing_perform|]. intros _. by apply crashing_perform.
Qed.

(** X15.  Every failure that [archive] detects itself (a type other than
    project, area and resource; a folder that is not there) ends with
    status 1 and leaves the vault as it was; only an exception can end with
    a changed vault. *)
Theorem archive_failure_leaves_vault
    (config : Config) (roots : ArchiveRoots) (type name : jsstring)
    (fs fs' : vault) (code : nat) (why : failure) :
  archiveAction config roots type name fs = Exit code why fs' →
  code = 1%nat ∧ (why ≠ Uncaught → fs' = fs).
Proof.
  intros Hout. pose proof (tidy_archiveAction config roots type name fs) as Htidy.
  by rewrite Hout in Htidy.
Qed.

Lemma archive_failure_leaves_vault_witness :
  1%nat = 1%nat ∧ (ItemNotFound ≠ Uncaught → demoVault = demoVault).
Proof.
  apply (archive_failure_leaves_vault demoConfig demoRoots (js "area") (js "zz_nothing")
           demoVault demoVault 1 ItemNotFound).
  reflexivity.
Defined.

Lemma ensureDir_None (fs : vault) p :
  ensureDir fs p = None → ∃ k text, stat fs (take k p) = Some (File text).
Proof.
  unfold ensureDir, mkdirSync. destruct (existsSync fs p); [done|].
  pose proof (mkdirFrom_spec fs [] p) as Hspec. intros Hfail. rewrite Hfail in Hspec.
  destruct Hspec as (k & text & Hk & Hfile). exists k, text.
  unfold stat. rewrite decide_False; [done|].
  intros Hnil%(f_equal length). rewrite length_take in Hnil. simpl in Hnil. lia.
Qed.

Lemma join_child config root name :
  plain name → join [vaultPath config; root; name] = join [vaultPath config; root] ++ [name].
Proof.
  intros Hname. change [vaultPath config; root; name] with ([vaultPath config; root] ++ [name]).
  unfold join. rewrite joinAt_app. by apply plain_pushSegment.
Qed.

(** X16.  [archive] moves a folder with everything in it.  In a vault that
    is a file tree, let [<root>/<name>] be there, let nothing be at
    [<archive root>/<name>], let the archive root not lie inside the folder,
    and let no regular file stand on the way to the archive root.  Then the
    command ends well; whatever was at a path at or below [<root>/<name>]
    is at the same relative path below [<archive root>/<name>]; nothing is
    left at or below [<root>/<name>]; and every other path is as before, or
    is a directory that was created on the way to the archive root. *)
Theorem archive_relocates
    (config : Config) (roots : ArchiveRoots) (type name root archiveRoot : jsstring)
    (fs : vault) :
  let source := join [vaultPath config; root] ++ [name] in
  let target := join [vaultPath config; archiveRoot] ++ [name] in
  rootMap config type = Some root → archiveMap roots type = Some archiveRoot →
  plain name → wfVault fs →
  is_Some (fs !! source) → fs !! target = None →
  ¬ source `prefix_of` target →
  (∀ k, notFile fs (take k (dirname target))) →
  ∃ fs',
    archiveAction config roots type name fs = Return tt fs'
    ∧ (∀ rel, fs' !! (target ++ rel) = fs !! (source ++ rel))
    ∧ (∀ rel, fs' !! (source ++ rel) = None)
    ∧ (∀ q, ¬ source `prefix_of` q → ¬ target `prefix_of` q →
            fs' !! q = fs !! q
            ∨ (fs !! q = None ∧ fs' !! q = Some Dir ∧ q `prefix_of` dirname target)).
Proof.
  intros source target Hroot Harchive Hname Hwf [e Hsource] Htarget Hst Hway.
  assert (∀ dir : path, dir ++ [name] ≠ []) as Hsnoc by (by intros []).
  assert (source ≠ []) as Hsne by apply Hsnoc.
  assert (target ≠ []) as Htne by apply Hsnoc.
  assert (dirname target = join [vaultPath config; archiveRoot]) as Hup
    by apply removelast_snoc.
  assert (type ∈ [js "project"; js "area"; js "resource"]) as Hvalid.
  { unfold rootMap, isLit in Hroot. rewrite !elem_of_cons.
    repeat case_bool_decide; auto. done. }
  assert (¬ target `prefix_of` source) as Hts.
  { intros Hunder. pose proof (prefix_length _ _ Hunder) as Hlen.
    destruct Hunder as [rel Hrel].
    destruct rel as [|seg rel]; [rewrite app_nil_r in Hrel; congruence|].
    assert (is_Some (stat fs source)) as Hthere.
    { unfold stat. rewrite decide_False by done. by rewrite Hsource. }
    pose proof (wfVault_ancestors fs source Hwf Hthere (length target)) as Habove.
    rewrite Hrel, take_app_length in Habove. rewrite Habove in Htarget; [done|].
    rewrite length_app. simpl. destruct target; [done|simpl; lia]. }
  destruct (ensureDir fs (dirname target)) as [fs1|] eqn:Hensure.
  2:{ apply ensureDir_None in Hensure as (k & text & Hfile). by destruct (Hway k text). }
  pose proof Hensure as (Hsub & Hthere & Hmade & Hnew)%ensureDir_Some.
  assert (stat fs1 (dirname target) = Some Dir) as Hdir.
  { destruct (stat fs (dirname target)) as [[text|]|] eqn:Hwas.
    - destruct (Hway (length (dirname target)) text). by rewrite take_ge.
    - unfold stat in *. destruct (decide (dirname target = [])); [done|].
      by eapply lookup_weaken.
    - by apply Hmade. }
  assert (∀ rel, fs1 !! (source ++ rel) = fs !! (source ++ rel)) as Hinside.
  { intros rel. destruct (fs !! (source ++ rel)) as [e'|] eqn:Hwas.
    - by eapply lookup_weaken.
    - destruct (fs1 !! (source ++ rel)) as [e'|] eqn:Hnow; [|done]. exfalso.
      destruct (Hnew (source ++ rel) Hwas) as [_ Hon]; [by rewrite Hnow|].
      apply Hst. etrans; [by exists rel|]. etrans; [exact Hon|].
      rewrite Hup. by exists [name]. }
  assert (fs1 !! target = None) as Hfree.
  { destruct (fs1 !! target) as [e'|] eqn:Hnow; [|done]. exfalso.
    destruct (Hnew target Htarget) as [_ Hon]; [by rewrite Hnow|].
    apply prefix_length in Hon. rewrite Hup in Hon. unfold target in Hon.
    rewrite length_app in Hon. simpl in Hon. lia. }
  assert (renameSync fs1 source target = Some (moved fs1 source target)) as Hrename.
  { unfold renameSync.
    rewrite <- (app_nil_r source), Hinside, app_nil_r, Hsource, Hdir, Hfree.
    rewrite decide_False by congruence.
    rewrite decide_False by (intros [?|?]; done). by destruct e. }
  exists (moved fs1 source target). split_and!.
  - unfold archiveAction. rewrite bool_decide_eq_true_2 by done. cbn [negb].
    unfold archiveEntity, bind, attempt, ask, perform. rewrite Hroot, Harchive.
    rewrite !join_child by done. fold source target.
    assert (existsSync fs source = true) as ->.
    { apply existsSync_true. unfold stat. rewrite decide_False by done. by rewrite Hsource. }
    cbn [negb]. by rewrite Hensure, Hrename.
  - intros rel. by rewrite moved_target, Hinside.
  - intros rel. by apply moved_source.
  - intros q Hsq Htq. rewrite moved_elsewhere by done.
    destruct (fs !! q) as [e'|] eqn:Hwas.
    + left. by eapply lookup_weaken.
    + destruct (fs1 !! q) as [e'|] eqn:Hnow; [|by left]. right.
      destruct (Hnew q Hwas) as [Hisdir Hon]; [by rewrite Hnow|].
      split_and!; [done|congruence|done].
Qed.

Lemma archive_relocates_witness :
  let source := join [vaultPath demoConfig; js "01_projects"] ++ [js "ab_site"] in
  let target := join [vaultPath demoConfig; js "06_archive/projects"] ++ [js "ab_site"] in
  ∃ fs',
    archiveAction demoConfig demoRoots (js "project") (js "ab_site") demoVault = Return tt fs'
    ∧ (∀ rel, fs' !! (target ++ rel) = demoVault !! (source ++ rel))
    ∧ (∀ rel, fs' !! (source ++ rel) = None)
    ∧ (∀ q, ¬ source `prefix_of` q → ¬ target `prefix_of` q →
            fs' !! q = demoVault !! q
            ∨ (demoVault !! q = None ∧ fs' !! q = Some Dir
               ∧ q `prefix_of` dirname target)).
Proof.
  apply (archive_relocates demoConfig demoRoots (js "project") (js "ab_site")
           (js "01_projects") (js "06_archive/projects") demoVault).
  - reflexivity.
  - reflexivity.
  - apply (bool_decide_unpack _). by vm_compute.
  - apply (bool_decide_unpack _). by vm_compute.
  - apply (bool_decide_unpack _). by vm_compute.
  - vm_compute. reflexivity.
  - apply (bool_decide_unpack _). by vm_compute.
  - intros [|[|[|[|k]]]] text Hstat; by vm_compute in Hstat.
Defined.

(** ** init *)

Lemma createDirs_step {B} vaultPath dir (k : M B) fs :
  (let* present := ask (λ fs, existsSync fs (join [vaultPath; dir])) in
   let* _ := if present then ret tt else perform (λ fs, mkdirSync fs (join [vaultPath; dir])) in
   k) fs
  = (let* _ := perform (λ fs, ensureDir fs (join [vaultPath; dir])) in k) fs.
Proof. unfold bind, ask, perform, ret, ensureDir. by destruct (existsSync fs _). Qed.

Lemma stat_weaken (fs fs' : vault) p : fs ⊆ fs' → is_Some (stat fs p) → is_Some (stat fs' p).
Proof.
  unfold stat. intros Hsub. destruct (decide (p = [])); [done|].
  intros [e He]. exists e. by eapply lookup_weaken.
Qed.

(** The loop over the directories only adds directories; when it is over,
    each of them is there. *)
Lemma createDirs_Return vaultPath dirs fs fs' :
  createDirs vaultPath dirs fs = Return tt fs' →
  fs ⊆ fs'
  ∧ Forall (λ dir, is_Some (stat fs' (join [vaultPath; dir]))) dirs
  ∧ (∀ q, fs !! q = None → is_Some (fs' !! q) → fs' !! q = Some Dir).
Proof.
  revert fs. induction dirs as [|dir dirs IH]; intros fs; simpl.
  - intros [= <-]. split_and!; [done|done|]. intros q Hq [e He]. congruence.
  - rewrite createDirs_step. unfold bind at 1, perform.
    destruct (ensureDir fs _) as [fs1|] eqn:Hensure; [|done].
    apply ensureDir_Some in Hensure as (Hsub1 & Hthere & _ & Hnew1).
    intros (Hsub & Hdirs & Hnew)%IH. split_and!.
    + by etrans.
    + apply Forall_cons_2; [by eapply stat_weaken|done].
    + intros q Hq Hq'. destruct (fs1 !! q) as [e|] eqn:Hmid.
      * destruct (Hnew1 q Hq) as [Hdir _]; [by rewrite Hmid|].
        by eapply lookup_weaken.
      * by apply Hnew.
Qed.

Lemma createDirs_noop vaultPath dirs fs :
  Forall (λ dir, is_Some (stat fs (join [vaultPath; dir]))) dirs →
  createDirs vaultPath dirs fs = Return tt fs.
Proof.
  induction 1 as [|dir dirs Hdir _ IH]; simpl; [done|].
  unfold bind at 1, ask. apply existsSync_true in Hdir. rewrite Hdir.
  unfold bind at 1, ret. done.
Qed.



Lemma beforeFirst_none pat s : occurs pat s = false → beforeFirst pat s = s.
Proof.
  induction s as [|c s IH]; simpl.
  - by destruct (stripPrefix pat []).
  - destruct (stripPrefix pat (c :: s)); [done|]. intros Hs. by rewrite IH.
Qed.

(** Whether [p] starts [a ++ x] is settled inside [a], when [a] is long
    enough. *)
Lemma stripPrefix_long p a x y :
  (length p ≤ length a)%nat → stripPrefix p (a ++ x) = None → stripPrefix p (a ++ y) = None.
Proof.
  revert a. induction p as [|b p IH]; intros a Hlen; simpl; [done|].
  destruct a as [|c a]; simpl in *; [lia|].
  destruct (b =? c); [|done]. apply IH. lia.
Qed.

(** The text before the first occurrence stays the text before the first
    occurrence, whatever follows the occurrence. *)
Lemma beforeFirst_again pat s y :
  occurs pat s = true →
  beforeFirst pat (beforeFirst pat s ++ pat ++ y) = beforeFirst pat s.
Proof.
  induction s as [|c s IH]; simpl.
  - destruct (stripPrefix pat []) as [r|] eqn:Hnil; [|done]. intros _.
    apply stripPrefix_Some in Hnil. symmetry in Hnil.
    apply app_eq_nil in Hnil as [-> _]. by destruct y.
  - destruct (stripPrefix pat (c :: s)) as [r|] eqn:Hhere.
    + intros _. rewrite app_nil_l.
      destruct (pat ++ y) eqn:E; simpl; rewrite <- E, stripPrefix_app; done.
    + intros Hs. specialize (IH Hs). rewrite <- app_comm_cons. cbn [beforeFirst].
      assert (stripPrefix pat (c :: beforeFirst pat s ++ pat ++ y) = None) as ->.
      { assert (∃ rest, s = beforeFirst pat s ++ pat ++ rest) as [rest Hrest].
        { clear -Hs. induction s as [|d s IHs]; simpl in *.
          - destruct (stripPrefix pat []) as [r|] eqn:Hnil; [|done].
            apply stripPrefix_Some in Hnil. by exists r.
          - destruct (stripPrefix pat (d :: s)) as [r|] eqn:Hhere.
            + apply stripPrefix_Some in Hhere. by exists r.
            + destruct (IHs Hs) as [rest Hrest]. exists rest. simpl. by f_equal. }
        rewrite Hrest in Hhere.
        change (c :: beforeFirst pat s ++ pat ++ y)
          with ((c :: beforeFirst pat s) ++ pat ++ y).
        change (c :: beforeFirst pat s ++ pat ++ rest)
          with ((c :: beforeFirst pat s) ++ pat ++ rest) in Hhere.
        rewrite app_assoc. rewrite app_assoc in Hhere.
        eapply stripPrefix_long; [|exact Hhere]. rewrite length_app. lia. }
      by rewrite IH.
Qed.

Lemma generateAgentsMd_marker : ∃ rest, generateAgentsMd = obsdMarker ++ rest.
Proof.
  destruct (stripPrefix obsdMarker generateAgentsMd) as [rest|] eqn:Hstarts.
  - exists rest. by apply stripPrefix_Some.
  - by vm_compute in Hstarts.
Qed.

(** What the text of [AGENTS.md] keeps of an older text. *)
Lemma beforeFirst_kept existing :
  let kept := if occurs obsdMarker existing
              then beforeFirst obsdMarker existing else existing ++ [newline] in
  beforeFirst obsdMarker (kept ++ generateAgentsMd) = kept
  ∧ beforeFirst obsdMarker existing `prefix_of` kept.
Proof.
  destruct generateAgentsMd_marker as [rest ->]. cbv zeta.
  destruct (occurs obsdMarker existing) eqn:Hocc.
  - split; [by apply beforeFirst_again|done].
  - rewrite (beforeFirst_none _ _ Hocc). split; [|by exists [newline]].
    rewrite <- app_assoc. induction existing as [|c existing IH].
    + rewrite !app_nil_l.
      change ([newline] ++ obsdMarker ++ rest) with (newline :: obsdMarker ++ rest).
      cbn [beforeFirst].
      assert (stripPrefix obsdMarker (newline :: obsdMarker ++ rest) = None) as ->
        by reflexivity.
      by f_equal.
    + rewrite <- app_comm_cons. cbn [beforeFirst].
      change (c :: existing ++ [newline] ++ obsdMarker ++ rest)
        with ((c :: existing) ++ newline :: obsdMarker ++ rest).
      rewrite stripPrefix_app_None.
      * apply occurs_false_tail in Hocc.
        change ((c :: existing) ++ [newline]) with (c :: existing ++ [newline]).
        f_equal. exact (IH Hocc).
      * by apply occurs_false_here.
      * intros d t [= <- _]. apply (bool_decide_unpack _). by vm_compute.
Qed.

Lemma beforeFirst_here pat rest : beforeFirst pat (pat ++ rest) = [].
Proof. destruct (pat ++ rest) eqn:E; simpl; rewrite <- E, stripPrefix_app; done. Qed.

(** A run of [initVault] that ends well: the directories, then the text of
    [AGENTS.md] with what it keeps of an older text in front. *)
Lemma initVault_Return config roots fs fs' :
  let agentsMdPath := join [vaultPath config; js "AGENTS.md"] in
  initVault config roots fs = Return tt fs' →
  ∃ fs1 kept,
    createDirs (vaultPath config) (dirsToCreate config roots) fs = Return tt fs1
    ∧ fs' = <[agentsMdPath := File (kept ++ generateAgentsMd)]> fs1
    ∧ agentsMdPath ≠ []
    ∧ stat fs1 (dirname agentsMdPath) = Some Dir
    ∧ beforeFirst obsdMarker (kept ++ generateAgentsMd) = kept
    ∧ (stat fs1 agentsMdPath = None → kept = [])
    ∧ (∀ existing, readFileSync fs1 agentsMdPath = Some existing →
                   beforeFirst obsdMarker existing `prefix_of` kept)
    ∧ stat fs1 agentsMdPath ≠ Some Dir
    ∧ (∀ existing, readFileSync fs1 agentsMdPath = Some existing →
                   kept = if occurs obsdMarker existing
                          then beforeFirst obsdMarker existing
                          else existing ++ [newline]).
Proof.
  intros agentsMdPath. unfold initVault. fold agentsMdPath.
  intros ([] & fs1 & Hdirs & Hrest)%bind_Return. exists fs1.
  apply bind_Return in Hrest as (present & fs2 & [= <- <-] & Hrest).
  destruct (existsSync fs1 agentsMdPath) eqn:Hpresent.
  - apply bind_Return in Hrest as (existing & fs2 & Hread & Hwrite).
    unfold attempt in Hread.
    destruct (readFileSync fs1 agentsMdPath) as [text|] eqn:Htext; [|done].
    injection Hread as <- <-.
    destruct (beforeFirst_kept text) as [Hkept Hprefix].
    set (kept := if occurs obsdMarker text
                 then beforeFirst obsdMarker text else text ++ [newline]) in *.
    exists kept.
    assert (perform (λ fs, writeFileSync fs agentsMdPath (kept ++ generateAgentsMd)) fs1
            = Return tt fs') as Hrun.
    { unfold kept. destruct (occurs obsdMarker text); [done|]. by rewrite <- app_assoc. }
    unfold perform in Hrun.
    destruct (writeFileSync fs1 agentsMdPath _) as [written|] eqn:Hw; [|done].
    injection Hrun as <-. apply writeFileSync_Some in Hw as (-> & Hne & Hup & Hfile).
    split_and!; [done..| | |done|].
    + intros Hnone. unfold readFileSync in Htext. by rewrite Hnone in Htext.
    + intros existing [= ->]. done.
    + intros existing [= ->]. done.
  - exists []. unfold perform in Hrest.
    destruct (writeFileSync fs1 agentsMdPath _) as [written|] eqn:Hw; [|done].
    injection Hrest as <-. apply writeFileSync_Some in Hw as (-> & Hne & Hup & Hfile).
    apply existsSync_false in Hpresent.
    split_and!; [done..| |done| |done|].
    + destruct generateAgentsMd_marker as [rest ->].
      exact (beforeFirst_here obsdMarker rest).
    + intros existing Hread. unfold readFileSync in Hread. by rewrite Hpresent in Hread.
    + intros existing Hread. unfold readFileSync in Hread. by rewrite Hpresent in Hread.
Qed.


Lemma Return_vaultAfter (out : outcome unit) :
  returned out = Some tt → out = Return tt (vaultAfter out).
Proof. by destruct out as [[] fs| |]. Qed.


(** X18.  [init] is idempotent: run again on the vault that a run has left,
    it ends well and leaves that vault as it is, [AGENTS.md] included. *)
Theorem initVault_idempotent
    (config : Config) (roots : ArchiveRoots) (fs fs' : vault) :
  initVault config roots fs = Return tt fs' →
  initVault config roots fs' = Return tt fs'.
Proof.
  intros (fs1 & kept & Hdirs & -> & Hne & Hup & Hkept & _ & _ & _)%initVault_Return.
  set (agentsMdPath := join [vaultPath config; js "AGENTS.md"]) in *.
  set (text := kept ++ generateAgentsMd) in *.
  apply createDirs_Return in Hdirs as (_ & Hthere & _).
  unfold initVault. fold agentsMdPath. unfold bind at 1.
  rewrite createDirs_noop.
  2:{ eapply Forall_impl; [exact Hthere|]. intros dir Hdir. simpl.
      rewrite stat_insert by done. by destruct (decide (agentsMdPath = _)). }
  assert (stat (<[agentsMdPath := File text]> fs1) agentsMdPath = Some (File text)) as Hnow
    by (by rewrite stat_insert, decide_True).
  unfold bind at 1, ask.
  assert (existsSync (<[agentsMdPath := File text]> fs1) agentsMdPath = true) as ->
    by (apply existsSync_true; by rewrite Hnow).
  unfold bind, attempt, readFileSync. rewrite Hnow.
  assert (occurs obsdMarker text = true) as ->.
  { unfold text. destruct generateAgentsMd_marker as [rest ->]. apply occurs_app. }
  fold text. rewrite Hkept. fold text.
  unfold perform, writeFileSync. rewrite Hnow.
  assert (dirname agentsMdPath ≠ agentsMdPath) as Hparent.
  { unfold dirname. intros Heq%(f_equal length).
    destruct agentsMdPath as [|seg p] using rev_ind; [done|].
    rewrite removelast_snoc, length_app in Heq. simpl in Heq. lia. }
  rewrite stat_insert, decide_False, Hup by done.
  by rewrite insert_insert_eq.
Qed.

Lemma initVault_idempotent_witness :
  initVault demoConfig demoRoots (vaultAfter (initVault demoConfig demoRoots demoVault))
  = Return tt (vaultAfter (initVault demoConfig demoRoots demoVault)).
Proof.
  apply (initVault_idempotent demoConfig demoRoots demoVault).
  apply Return_vaultAfter. vm_compute. reflexivity.
Defined.

(** ** new: the files of a multi-file template *)

(** What the loop over the files leaves alone: directories, and every
    entry at a path that is not written. *)
Lemma writeFiles_Return (folderPath : path) (vars : gmap jsstring jsstring)
    (fileDefs : list TemplateFile) (fs fs' : vault) :
  writeFiles folderPath vars fileDefs fs = Return tt fs' →
  (∀ q, stat fs q = Some Dir → stat fs' q = Some Dir)
  ∧ (∀ q e, fs !! q = Some e →
            q ∉ (λ fileDef, joinAt folderPath [tf_name fileDef]) <$> fileDefs →
            fs' !! q = Some e).
Proof.
  revert fs. induction fileDefs as [|fileDef fileDefs IH]; intros fs; simpl.
  - intros [= <-]. done.
  - intros ([] & fs1 & Hensure & Hrest)%bind_Return.
    apply bind_Return in Hrest as ([] & fs2 & Hwrite & Hrest).
    unfold perform in Hensure, Hwrite.
    destruct (ensureDir fs _) as [fs1'|] eqn:Hdir; [|done]. injection Hensure as ->.
    destruct (writeFileSync fs1 _ _) as [fs2'|] eqn:Hfile; [|done]. injection Hwrite as ->.
    apply ensureDir_Some in Hdir as (Hsub & _).
    apply writeFileSync_Some in Hfile as (-> & Hne & _ & Hnodir).
    destruct (IH _ Hrest) as [Hdirs Hkept]. split.
    + intros q Hq. apply Hdirs. rewrite stat_insert by done.
      assert (stat fs1 q = Some Dir) as Hq1.
      { unfold stat in *. destruct (decide (q = [])); [done|]. by eapply lookup_weaken. }
      destruct (decide (_ = q)) as [<-|_]; [done|done].
    + intros q e Hq Hnot. apply not_elem_of_cons in Hnot as [Hhere Hlater].
      apply Hkept; [|done]. rewrite lookup_insert_ne by done. by eapply lookup_weaken.
Qed.

Lemma writeFiles_written (folderPath : path) (vars : gmap jsstring jsstring)
    (fileDefs : list TemplateFile) (fs fs' : vault) :
  writeFiles folderPath vars fileDefs fs = Return tt fs' →
  NoDup ((λ fileDef, joinAt folderPath [tf_name fileDef]) <$> fileDefs) →
  ∀ fileDef, fileDef ∈ fileDefs →
    readFileSync fs' (joinAt folderPath [tf_name fileDef])
    = Some (removeCursor (renderTemplate (tf_template fileDef) vars)).
Proof.
  revert fs. induction fileDefs as [|first fileDefs IH]; intros fs; simpl.
  - intros _ _ fileDef Hin. by apply elem_of_nil in Hin.
  - intros ([] & fs1 & Hensure & Hrest)%bind_Return.
    apply bind_Return in Hrest as ([] & fs2 & Hwrite & Hrest).
    unfold perform in Hensure, Hwrite.
    destruct (ensureDir fs _) as [fs1'|] eqn:Hdir; [|done]. injection Hensure as ->.
    destruct (writeFileSync fs1 _ _) as [fs2'|] eqn:Hfile; [|done]. injection Hwrite as ->.
    apply writeFileSync_Some in Hfile as (-> & Hne & _).
    intros [Hfresh Hnodup]%NoDup_cons fileDef [->|Hin]%elem_of_cons.
    + destruct (writeFiles_Return _ _ _ _ _ Hrest) as [_ Hkept].
      unfold readFileSync, stat. rewrite decide_False by done.
      by rewrite (Hkept _ _ (lookup_insert_eq _ _ _) Hfresh).
    + by eapply IH.
Qed.

(** X19.  A run of [createEntity] on a multi-file template that ends well:
    the folder was not there before and is a directory now, and, when the
    template names no file twice, each of its files is there with its
    template rendered and the first cursor marker taken out. *)
Theorem createEntity_write_creates_files
    (config : Config) (tpl : EntityTemplate) (vars : gmap jsstring jsstring)
    (fs fs' : vault) :
  truthy (filePath tpl) = false →
  createEntity_write config tpl vars fs = Return tt fs' →
  ∃ pattern fileDefs,
    folderPattern tpl = Some pattern ∧ files tpl = Some fileDefs
    ∧ let folderPath := join [vaultPath config; renderTemplate pattern vars] in
      stat fs folderPath = None
      ∧ stat fs' folderPath = Some Dir
      ∧ (NoDup ((λ fileDef, joinAt folderPath [tf_name fileDef]) <$> fileDefs) →
         ∀ fileDef, fileDef ∈ fileDefs →
           readFileSync fs' (joinAt folderPath [tf_name fileDef])
           = Some (removeCursor (renderTemplate (tf_template fileDef) vars))).
Proof.
  intros Hmulti. unfold createEntity_write. rewrite Hmulti.
  intros (pattern & fs1 & Hpattern & Hrest)%bind_Return.
  unfold attempt in Hpattern.
  destruct (folderPattern tpl) as [pattern'|]; [|done]. injection Hpattern as -> <-.
  apply bind_Return in Hrest as (present & fs1 & [= <- <-] & Hrest).
  destruct (existsSync fs _) eqn:Hthere; [done|]. apply existsSync_false in Hthere.
  apply bind_Return in Hrest as ([] & fs1 & Hensure & Hrest).
  unfold perform in Hensure.
  destruct (ensureDir fs _) as [fs1'|] eqn:Hdir; [|done]. injection Hensure as ->.
  apply bind_Return in Hrest as (fileDefs & fs2 & Hfiles & Hrest).
  unfold attempt in Hfiles.
  destruct (files tpl) as [fileDefs'|]; [|done]. injection Hfiles as -> <-.
  exists pattern, fileDefs. split_and!; [done..| |].
  - apply ensureDir_Some in Hdir as (_ & _ & Hmade & _).
    destruct (writeFiles_Return _ _ _ _ _ Hrest) as [Hdirs _]. by apply Hdirs, Hmade.
  - by apply (writeFiles_written _ _ _ fs1).
Qed.

Lemma createEntity_write_creates_files_witness :
  let tpl := default {| folderPattern := None; filePath := None; files := None;
                         template := None |}
                     (templates demoConfig !! js "project") in
  let vars : gmap jsstring jsstring :=
    list_to_map [(js "title", js "Garden"); (js "slug", js "garden"); (js "prefix", js "fg")] in
  ∃ pattern fileDefs,
    folderPattern tpl = Some pattern ∧ files tpl = Some fileDefs
    ∧ let folderPath := join [vaultPath demoConfig; renderTemplate pattern vars] in
      let fs' := vaultAfter (createEntity_write demoConfig tpl vars demoVault) in
      stat demoVault folderPath = None
      ∧ stat fs' folderPath = Some Dir
      ∧ (NoDup ((λ fileDef, joinAt folderPath [tf_name fileDef]) <$> fileDefs) →
         ∀ fileDef, fileDef ∈ fileDefs →
           readFileSync fs' (joinAt folderPath [tf_name fileDef])
           = Some (removeCursor (renderTemplate (tf_template fileDef) vars))).
Proof.
  apply (createEntity_write_creates_files demoConfig
           (default {| folderPattern := None; filePath := None; files := None;
                       template := None |}
                    (templates demoConfig !! js "project"))
           (list_to_map [(js "title", js "Garden"); (js "slug", js "garden");
                         (js "prefix", js "fg")])
           demoVault).
  - reflexivity.
  - apply Return_vaultAfter. vm_compute. reflexivity.
Defined.

(** ** mark: the same status again, and there and back *)



Lemma statusMap_Some statusLower newStatus :
  statusMap !! statusLower = Some newStatus →
  statusLower ∈ statusFolders
  ∧ newStatus ≠ [] ∧ forallb (λ c, negb (isLineTerminator c)) newStatus = true.
Proof.
  unfold statusMap. intros Hin%elem_of_list_to_map_2.
  repeat (apply elem_of_cons in Hin as [[= -> ->]|Hin];
          [split_and!; [apply (bool_decide_unpack _); by vm_compute|done|reflexivity]|]).
  by apply elem_of_nil in Hin.
Qed.

Lemma statusFolders_tag statusFolder :
  statusFolder ∈ statusFolders → statusFolder ≠ [] ∧ newline ∉ statusFolder.
Proof.
  unfold statusFolders. rewrite !elem_of_cons, elem_of_nil.
  intros [->|[->|[->|[->|[]]]]]; (split; [done|]);
    apply (bool_decide_unpack _); by vm_compute.
Qed.

(** X21.  There and back.  Take a file whose first [status: ] field heads
    a line and holds the capitalised status [a], followed by a [tags:] line
    and then by the status tag of [a].  [markWork]'s text for a status [b],
    rewritten again for [a], is the file as it was ([a], [b] other than
    [done]). *)
Theorem markWork_text_round_trip
    (a b capitalA capitalB head between tagsBefore tail : jsstring) :
  let text (status capital : jsstring) :=
    head ++ js "status: " ++ capital ++ newline :: between
    ++ js "tags:" ++ [newline] ++ tagsBefore ++ js "- status/" ++ status ++ tail in
  statusMap !! a = Some capitalA → statusMap !! b = Some capitalB →
  a ≠ js "done" → b ≠ js "done" →
  lineStartAfter None head = true → occurs (js "status: ") head = false →
  occurs (js "tags:" ++ [newline])
         (head ++ js "status: " ++ capitalA ++ newline :: between) = false →
  occurs (js "tags:" ++ [newline])
         (head ++ js "status: " ++ capitalB ++ newline :: between) = false →
  occurs (js "- status/") tagsBefore = false → lineEnd tail = true →
  markWorkText b (text a capitalA) = text b capitalB
  ∧ markWorkText a (markWorkText b (text a capitalA)) = text a capitalA.
Proof.
  intros text Ha Hb Hna Hnb Hstart Hfield HtagsA HtagsB Htag Htail.
  assert (∀ s capital s' capital',
            statusMap !! s = Some capital → statusMap !! s' = Some capital' →
            s' ≠ js "done" →
            occurs (js "tags:" ++ [newline])
                   (head ++ js "status: " ++ capital' ++ newline :: between) = false →
            markWorkText s' (text s capital) = text s' capital') as Hstep.
  { intros s capital s' capital' Hs Hs' Hnotdone Htags.
    destruct (statusMap_Some _ _ Hs) as (Hfolder & Hcap & Hline).
    destruct (statusFolders_tag _ Hfolder) as [Hne Hnl].
    unfold markWorkText, text. rewrite Hs'. cbn [default].
    assert (isLit s' "done" = false) as -> by (by apply bool_decide_eq_false_2).
    rewrite (statusField_rewritten None head capital _ (js "status: " ++ capital'));
      [|done..|by intros c t [= <- _]].
    set (before := head ++ js "status: " ++ capital' ++ newline :: between) in *.
    assert (head ++ (js "status: " ++ capital') ++ newline :: between
              ++ js "tags:" ++ [newline] ++ tagsBefore ++ js "- status/" ++ s ++ tail
            = before ++ js "tags:" ++ [newline] ++ tagsBefore ++ js "- status/" ++ s ++ tail)
      as -> by (unfold before; by rewrite <- !app_assoc).
    rewrite tagsBlock_rewritten by done.
    unfold before. by rewrite <- !app_assoc. }
  split.
  - by apply (Hstep a capitalA b capitalB).
  - rewrite (Hstep a capitalA b capitalB) by done. by apply (Hstep b capitalB a capitalA).
Qed.

Lemma markWork_text_round_trip_witness :
  markWorkText (js "review") (taskText "Active" "active") = taskText "Review" "review"
  ∧ markWorkText (js "active") (markWorkText (js "review") (taskText "Active" "active"))
    = taskText "Active" "active".
Proof.
  apply (markWork_text_round_trip (js "active") (js "review") (js "Active") (js "Review")
           (js "---" ++ [newline]) [] (js "  - work" ++ [newline] ++ js "  ")
           ([newline] ++ js "---" ++ [newline] ++ js "# Task")).
  - reflexivity.
  - reflexivity.
  - apply (bool_decide_unpack _). by vm_compute.
  - apply (bool_decide_unpack _). by vm_compute.
  - reflexivity.
  - reflexivity.
  - reflexivity.
  - reflexivity.
  - reflexivity.
  - reflexivity.
Defined.
